(* ===== verification/_CoqProject ===== *)
-Q . S2P
Prelude.v
CppStd.v
Glm.v
Assets.v
GameObject.v
Playback.v
Pose.v
Materials.v
Loops.v
Placement.v
Soundness.v
PlaybackSpec.v
Frames.v
