(* ===== verification/Prelude.v ===== *)
(** * A verified model of [AnimatedGameObject] (Hell2024 engine)

    This development models the C++ class [AnimatedGameObject] of
    [src/Rogue/Rogue/src/Core/AnimatedGameObject.cpp] as executable Rocq
    definitions and proves the properties that make its animation playback,
    pose evaluation, material bindings and placement queries correct.

    ** The program

    An [AnimatedGameObject] is an entity of the game world that owns
    - a reference to a shared, immutable-by-intent [SkinnedModel] asset
      ([_skinnedModel]), whose clips ([m_animations]), mesh entries
      ([m_meshEntries]) and bone-name mapping ([m_BoneMapping]) it reads;
    - a playback state machine: the current clip pointer
      ([_currentAnimation]), the current and previous clip time in seconds,
      the speed and the [_animationPaused], [_loopAnimation] and
      [_animationIsComplete] flags;
    - two bone-transform buffers ([_animatedTransforms],
      [_animatedTransformsPrevious]) refilled every frame by
      [CalculateBoneTransforms], the current one sampled at the current or
      at the previous time depending on [_motionBlur];
    - a per-mesh material table ([_materialIndices]) sized by
      [SetSkinnedModel];
    - a placement [_transform], composed with a 180-degree yaw correction
      for three weapon models by [GetModelMatrix], from which the barrel
      attachment queries ([GetGlockBarrelPostion] and its two siblings)
      derive world positions.
    [Update] is the per-frame entry point: it advances the state machine
    ([UpdateAnimation]) and re-samples both poses, and does nothing while
    no clip is selected.

    ** Files and what they model

    - [Prelude] (this file): the state-and-error monad [M] in which every
      method is written (state = the [World]: the asset registry, the object
      and the console output; errors = the undefined behaviours [ub] of the
      C++ code: null dereference, dangling pointer, index out of range,
      signed overflow of a loop counter),
      its laws and loop lemmas, the comparison [Qgtb] used for C++'s [>]
      on floats, the hint databases [anim] and [anim_rw] and the shared
      tactics.
    - [CppStd]: the C++ library semantics the source relies on:
      [std::vector::operator[]] reads and writes (out of range is undefined,
      so it is a fault), [std::vector::resize], [std::map::operator[]]
      (which inserts a zero value for a missing key) and IEEE division of
      the clip duration by the tick rate (a zero rate gives an infinity or a
      NaN, which [>] compares the IEEE way).
    - [Glm]: glm's [vec3]/[vec4]/[mat4] over rationals with the
      column-major product, translation and scale matrices, the engine's
      [Transform] and its [to_mat4]; matrices are compared by the setoid
      [mat_eq] (entrywise [Qeq]) with [Proper] instances for every
      operation. Rotations are trigonometric and are taken through the
      interface [EulerRotation] (its laws: the zero rotation is the
      identity, and every rotation fixes the origin).
    - [Assets]: [Animation], [MeshEntry], [SkinnedModel], the registry
      [Assets] (vectors indexed by the pointers the object stores),
      [AssetManager::GetSkinnedModel] and [GetMaterialIndex], and the
      interface [BoneSampler] for
      [SkinnedModel::UpdateBoneTransformsFromAnimation] with the contract
      the spec states (the pose depends only on model, time and clip, and
      has one matrix per bone).
    - [GameObject]: the data members of the class as the record
      [AnimatedGameObject], the [World], the monadic accessors ([this],
      [this_skinnedModel], [this_currentAnimation], [update_this], [cout]),
      the plain setters ([SetName], [SetPosition], [SetRotationX/Y/Z],
      [SetScale], [EnableMotionBlur], [DisableMotionBlur]) and the demo
      world the witnesses run on.
    - [Playback] (claims C1-C3, C5-C10, C12-C14, C37): [PlayAndLoopAnimation],
      [PlayAnimation],
      [PauseAnimation], [ToggleAnimationPause], [UpdateAnimation],
      [IsAnimationComplete], [AnimationIsPastPercentage]. The state change
      of each method is a pure function of the object ([select_looping],
      [select_once], [advance]) lifted by a run lemma. Theorems: looping
      clips never complete and completed clips stay frozen over any
      sequence of ticks, one tick completes a non-looping clip, the bound
      [time <= duration] after a tick, the one-frame lag of the previous
      time at a wrap, the behaviour of each play method on every branch
      (found, same clip, other clip, not found, null model; for
      [PlayAnimation] the exact world it leaves), the
      stuck-pause defect of [PlayAndLoopAnimation] after a completed
      [PlayAnimation], the spec's concrete scenario, and liveness (C37): a
      running non-looping clip ticked at a positive speed completes after
      [ceil ((duration - time) / (dt * speed)) + 1] ticks.
    - [Pose] (C16, C17, C19): [CalculateBoneTransforms] and [Update] against any
      [BoneSampler]: motion blur off collapses both poses onto the previous
      time, on samples the current one; [Update] without a clip is a no-op
      and with one ticks, then samples.
    - [Materials] (C20-C25): [SetSkinnedModel], [SetMeshMaterial],
      [SetMeshMaterialByIndex], [SetMaterial]; the table-size invariant
      that makes every loop write in range, preserved by every material
      method, the exact table each produces, and the equivalence (C38) of
      the two mesh loops with sequences of [SetMeshMaterialByIndex].
    - [Loops] (C11, C15, C18): the four loops of the file as the C++
      writes them, [for (int i = 0; i < v.size(); i++)], with a 32-bit
      counter, the bound re-read through [_skinnedModel] before every test
      and converted to [size_t], the element read by index and the
      [return] at the first match ([int_for], with fuel). With more fuel
      than the vector has elements they terminate and return exactly what
      the structural models of [Playback] and [Materials] return, faults
      included, for vectors of at most [INT_MAX] elements. Past [INT_MAX]
      the bound cannot be dropped (C18): on a model of more than
      [INT_MAX] meshes with a table sized for it, the mesh loops reach
      [i == INT_MAX] and [i++] overflows (undefined behaviour), while the
      structural models return.
    - [Placement] (C4, C26, C27, C29-C31, C39): [GetModelMatrix] and the three
      barrel queries against any [EulerRotation]: the correction table,
      the identity correction for other models, the barrel position as
      the offset seen through the model and bone matrices, the insertion
      [std::map::operator[]] performs into the shared model when the bone
      is missing, the idempotence of a query (C4: the insertion happens at
      most once, a repeated query returns the same position and changes
      nothing), a sufficient condition for the query never to fault, and
      the round trip (C39) of [SetPosition] through the translation column
      of [GetModelMatrix]; a query on an object of another name returns
      the zero vector.
    - [Soundness] (C40): the well-formedness of a world ([world_wf]: live
      pointers, a sized table, a clip only with a model), playing the role
      of a typing invariant; every mutating public method (the calls
      [call], run by [run_call]) returns from a well-formed world into a
      well-formed one (progress and preservation), [PlayAnimation] without
      a model excepted, so sequences of calls never fault once a model is
      set.
    - [PlaybackSpec] (C32-C36): the spec's state machine (NoClip, Playing,
      Paused, Completed) as the inductive relation [astep], the public
      methods as the labelled relation [cstep] on worlds, the partial
      abstraction [abs], frame lemmas for the methods that leave playback
      alone, and the refinement of method sequences into runs of the
      spec's machine. By rule induction over method sequences: [complete ->
      not looping] always holds, looping objects never complete without a
      [PlayAnimation], completed clips stay completed until a play or a
      toggle. [ToggleAnimationPause] of a completed clip is the one step
      that leaves the spec's state space (complete and running).
    - [Frames] (C28): sequences of calls run with the four loops as the
      C++ writes them ([run_calls_for]). Every call leaves the registry
      alone, so a bound [n <= INT_MAX] on the clip and mesh counts of the
      registry's models holds for the whole frame. Under it, with [n + 1]
      tests of fuel per loop, the frame returns exactly the structural
      run's result, and from a well-formed world with a model set it
      terminates without a fault in a well-formed world. This composes
      [Loops] with [Soundness].

    ** Modelling choices

    - Floats are modelled as rationals [Q]: the properties proved are those
      of exact arithmetic; rounding is not modelled. The one place where
      IEEE semantics changes control flow without rounding, a zero tick
      rate in [m_duration / m_ticksPerSecond], is modelled exactly ([CppStd]).
    - Pointers are indices into the registry's vectors; [nullptr] is [None];
      dereferencing [None] or an index past the vector is the fault
      [NullDeref] or [DanglingPointer]. Pointer equality is index equality,
      so two distinct clips with equal contents are different, as in C++.
    - The console output [std::cout] is the [w_cout] log of the world.
    - Every method is straight-line code or a loop over a finite vector.
      The component files model each loop by structural recursion on the
      list, so every method is total and the theorems say that the methods
      return (not only what they return if they do). [Loops] also models
      the loops with their [int] counter, as [int_for] with fuel; fuel
      running out is [None], apart from the C++ outcomes. The fuel bound
      is [n + 1] tests for a vector of [n] elements ([n] iterations and the
      final failing test), and the termination theorems (C11, C15) prove
      that this much fuel is enough whenever [n <= INT_MAX]. Sequences of
      frames are lists of ticks ([advance_all], [UpdateAnimation_seq]) or
      of method calls ([csteps], [run_calls]), of any length; what is
      proved about time is liveness: a clip reaches its end after a
      bounded number of ticks (C37).

    ** Not modelled
    - Rendering, audio, input and the editor ([Player.h], [Audio.hpp],
      [Editor.h], [Input.h] are included but unused by this file).
    - Keyframe interpolation inside [UpdateBoneTransformsFromAnimation]
      and the trigonometry of Euler rotations: external collaborators
      outside [src/], taken through the interfaces [BoneSampler] and
      [EulerRotation]; the theorems hold for every implementation that
      meets the interface's laws.
    - Asset loading: the registry is a value the methods read ([Assets]);
      only the barrel queries write it (the [std::map] insertion).
    - Float rounding (see above) and concurrency (the spec's model is
      single-threaded; the world is threaded through every method).
*)

From stdpp Require Export base list gmap strings.
From Stdlib Require Export QArith Qround Lqa.

Declare Scope anim_scope.
Delimit Scope anim_scope with anim.

Create HintDb anim.
Create Rewrite HintDb anim_rw.

(** ** Undefined behaviours of the C++ code, as fault values *)

Inductive ub :=
  | NullDeref          (** [p->f] with [p == nullptr] *)
  | DanglingPointer    (** a pointer that designates no live object *)
  | IndexOutOfRange    (** [v[i]] with [i >= v.size()] *)
  | SignedOverflow.    (** [i++] on an [int] holding [INT_MAX] *)

#[export] Instance ub_eq_dec : EqDecision ub.
Proof. solve_decision. Defined.

Inductive outcome (A : Type) :=
  | Ok (a : A)
  | Fault (e : ub).
Arguments Ok {A} a.
Arguments Fault {A} e.

(** ** A state-and-error monad over a state [St] *)

Definition M (St A : Type) : Type := St -> outcome (A * St).

Section Monad.
Context {St : Type}.

Definition ret {A} (a : A) : M St A := fun s => Ok (a, s).

Definition bind {A B} (m : M St A) (k : A -> M St B) : M St B :=
  fun s => match m s with
           | Ok (a, s') => k a s'
           | Fault e => Fault e
           end.

Definition get : M St St := fun s => Ok (s, s).
Definition put (s : St) : M St unit := fun _ => Ok (tt, s).
Definition modify (f : St -> St) : M St unit := fun s => Ok (tt, f s).
Definition fault {A} (e : ub) : M St A := fun _ => Fault e.

(** lift an [option] that must be [Some] (a dereference) *)
Definition deref {A} (e : ub) (o : option A) : M St A :=
  match o with Some a => ret a | None => fault e end.

(** [for (i = 0; i < n; i++) body(i)] over the elements of a list *)
Fixpoint for_each_idx {A} (i : nat) (l : list A) (body : nat -> A -> M St unit)
  : M St unit :=
  match l with
  | [] => ret tt
  | x :: l' => bind (body i x) (fun _ => for_each_idx (S i) l' body)
  end.
End Monad.

Notation "x <- m ;; k" := (bind m (fun x => k))
  (at level 100, m at next level, right associativity) : anim_scope.
Notation "m ;; k" := (bind m (fun _ => k))
  (at level 100, right associativity) : anim_scope.

Open Scope anim_scope.

Section MonadLaws.
Context {St : Type}.

Lemma bind_ret_l {A B} (a : A) (k : A -> M St B) s :
  bind (ret a) k s = k a s.
Proof. reflexivity. Qed.

Lemma bind_Ok {A B} (m : M St A) (k : A -> M St B) s a s' :
  m s = Ok (a, s') -> bind m k s = k a s'.
Proof. unfold bind. by intros ->. Qed.

Lemma bind_Fault {A B} (m : M St A) (k : A -> M St B) s e :
  m s = Fault e -> bind m k s = Fault e.
Proof. unfold bind. by intros ->. Qed.

Lemma bind_Ok_inv {A B} (m : M St A) (k : A -> M St B) s b s'' :
  bind m k s = Ok (b, s'') -> exists a s', m s = Ok (a, s') /\ k a s' = Ok (b, s'').
Proof. unfold bind. destruct (m s) as [[a s']|e]; [by eauto | done]. Qed.

Lemma bind_assoc {A B C} (m : M St A) (k : A -> M St B) (h : B -> M St C) s :
  bind (bind m k) h s = bind m (fun a => bind (k a) h) s.
Proof. unfold bind. destruct (m s) as [[a s']|e]; reflexivity. Qed.

(** a loop whose every iteration succeeds and preserves [P] succeeds and
    ends in a state satisfying [P] *)
Lemma for_each_idx_inv {A} (P : St -> Prop) (l : list A) body :
  (forall i x s, P s -> exists s', body i x s = Ok (tt, s') /\ P s') ->
  forall i s, P s -> exists s', for_each_idx i l body s = Ok (tt, s') /\ P s'.
Proof.
  intros Hbody. induction l as [|x l IH]; intros i s Hs; simpl.
  - by exists s.
  - destruct (Hbody i x s Hs) as (s1 & E1 & H1).
    rewrite (bind_Ok _ _ _ _ _ E1). by apply IH.
Qed.

(** dually, every state a loop ends in satisfies [P] when every iteration
    that succeeds preserves it *)
Lemma for_each_idx_post {A} (P : St -> Prop) (l : list A) body :
  (forall i x s s', P s -> body i x s = Ok (tt, s') -> P s') ->
  forall i s s', P s -> for_each_idx i l body s = Ok (tt, s') -> P s'.
Proof.
  intros Hbody. induction l as [|x l IH]; intros i s s' Hs; simpl.
  - by intros [= <-].
  - unfold bind. destruct (body i x s) as [[[] s1]|e] eqn:E1; [|done].
    apply IH, (Hbody i x s); done.
Qed.
End MonadLaws.

#[export] Hint Rewrite @bind_ret_l @bind_assoc : anim_rw.

(** ** C++ [a > b] on floats, modelled on rationals *)

Definition Qgtb (a b : Q) : bool := negb (Qle_bool a b).

Lemma Qgtb_true (a b : Q) : Qgtb a b = true <-> b < a.
Proof.
  unfold Qgtb. rewrite negb_true_iff.
  split.
  - intros H. apply Qnot_le_lt. intros Hle. by apply Qle_bool_iff in Hle; congruence.
  - intros H. destruct (Qle_bool a b) eqn:E; [|done].
    apply Qle_bool_iff in E. lra.
Qed.

Lemma Qgtb_false (a b : Q) : Qgtb a b = false <-> a <= b.
Proof.
  unfold Qgtb. rewrite negb_false_iff. apply Qle_bool_iff.
Qed.

(** case analysis on a [Qgtb] test of the goal, with the arithmetic fact *)
Ltac case_Qgtb :=
  match goal with
  | |- context [Qgtb ?a ?b] =>
      let E := fresh "Egt" in
      destruct (Qgtb a b) eqn:E;
      [apply Qgtb_true in E | apply Qgtb_false in E]
  end.

(** split a goal that is a conjunction, and only conjunctions (a plain
    [repeat split] would also try [eq_refl] on the [Z] equality behind
    [Qeq]) *)
Ltac conj_split := repeat match goal with |- _ /\ _ => split end.

(** run the monadic plumbing of a concrete program *)
Ltac mrun := repeat (unfold bind, ret, get, put, modify, fault, deref in *; simpl in * ).
