(* ===== verification/CppStd.v ===== *)
(** * The C++ standard-library semantics the source relies on

    - [std::vector<T>::operator[]] for reading ([vec_read]) and writing
      ([vec_write]): no bounds check, so an index past the end is undefined
      behaviour, the fault [IndexOutOfRange] (stdpp's [<[i:=x]>] would
      silently do nothing there, which is not what C++ does);
    - [std::vector<T>::resize] ([vec_resize]): keep the prefix, append
      value-initialised elements;
    - [std::map<K,V>::operator[]] ([map_subscript]): return the value of a
      present key, or insert a value-initialised [V] (0 for
      [unsigned int]) and return it;
    - the float quotient [a / b] of two finite floats as the IEEE result
      ([fdiv]: a zero divisor gives an infinity or a NaN) and C++'s [x > q]
      against it ([fgt]). *)

From S2P Require Import Prelude.

Local Close Scope Q_scope.

(** ** [std::vector] *)

Definition vec_read {St A} (l : list A) (i : nat) : M St A :=
  deref IndexOutOfRange (l !! i).

Definition vec_write {A} (l : list A) (i : nat) (x : A) : option (list A) :=
  if decide (i < length l) then Some (<[i:=x]> l) else None.

Definition vec_resize {A} (n : nat) (dflt : A) (l : list A) : list A :=
  take n l ++ replicate (n - length l) dflt.

Lemma vec_write_in {A} (l : list A) i x :
  i < length l -> vec_write l i x = Some (<[i:=x]> l).
Proof. intros H. unfold vec_write. by rewrite decide_True. Qed.

Lemma vec_write_out {A} (l : list A) i x :
  length l <= i -> vec_write l i x = None.
Proof. intros H. unfold vec_write. rewrite decide_False; [done | lia]. Qed.

Lemma length_vec_resize {A} n (d : A) l : length (vec_resize n d l) = n.
Proof.
  unfold vec_resize. rewrite length_app, length_take, length_replicate. lia.
Qed.

Lemma vec_resize_keep {A} n (d : A) l i :
  i < n -> i < length l -> vec_resize n d l !! i = l !! i.
Proof.
  intros Hn Hl. unfold vec_resize.
  rewrite lookup_app_l by (rewrite length_take; lia).
  rewrite lookup_take; by rewrite decide_True.
Qed.

Lemma vec_resize_fill {A} n (d : A) l i :
  length l <= i < n -> vec_resize n d l !! i = Some d.
Proof.
  intros H. unfold vec_resize.
  rewrite lookup_app_r by (rewrite length_take; lia).
  rewrite length_take, lookup_replicate. split; [done | lia].
Qed.

(** ** [std::map<std::string, unsigned int>::operator[]] *)

Definition map_subscript (k : string) (m : gmap string nat) : nat * gmap string nat :=
  match m !! k with
  | Some v => (v, m)
  | None => (0%nat, <[k:=0%nat]> m)
  end.

Lemma map_subscript_present k m v :
  m !! k = Some v -> map_subscript k m = (v, m).
Proof. unfold map_subscript. by intros ->. Qed.

Lemma map_subscript_absent k m :
  m !! k = None -> map_subscript k m = (0%nat, <[k:=0%nat]> m).
Proof. unfold map_subscript. by intros ->. Qed.

(** the key is always present afterwards, and no other key changes *)
Lemma map_subscript_lookup k m :
  (map_subscript k m).2 !! k = Some (map_subscript k m).1.
Proof.
  unfold map_subscript. destruct (m !! k) eqn:E; simpl; [done|].
  by rewrite lookup_insert_eq.
Qed.

(** ** IEEE quotient of two finite floats, and [>] against it *)

Inductive fquot :=
  | FFin (q : Q)
  | FPosInf
  | FNegInf
  | FNaN.

Definition fdiv (a b : Q) : fquot :=
  if Qeq_bool b 0 then
    (if Qgtb a 0 then FPosInf else if Qgtb 0 a then FNegInf else FNaN)
  else FFin (a / b)%Q.

(** [x > d]: nothing is greater than +inf or NaN, everything finite is
    greater than -inf *)
Definition fgt (x : Q) (d : fquot) : bool :=
  match d with
  | FFin q => Qgtb x q
  | FPosInf => false
  | FNegInf => true
  | FNaN => false
  end.

Lemma fdiv_nonzero a b : ~ (b == 0)%Q -> fdiv a b = FFin (a / b)%Q.
Proof.
  intros H. unfold fdiv. destruct (Qeq_bool b 0) eqn:E; [|done].
  apply Qeq_bool_iff in E. contradiction.
Qed.

(** a non-negative duration over a non-negative rate is never [-inf] *)
Lemma fgt_nonneg_duration a b :
  (0 <= a)%Q -> (0 <= b)%Q -> fgt 0 (fdiv a b) = false.
Proof.
  intros Ha Hb. unfold fdiv.
  destruct (Qeq_bool b 0) eqn:E.
  - repeat case_Qgtb; simpl; try done; lra.
  - simpl. apply Qgtb_false.
    apply Qle_shift_div_l; [|lra].
    apply Qeq_bool_neq in E. lra.
Qed.
