(* ===== verification/Glm.v ===== *)
(** * glm vectors and matrices, and the engine's [Transform]

    [vec3], [vec4] and the column-major [mat4] of glm over rationals:
    [mat_apply m v] is glm's [m * v], [mat_mul] is glm's [m1 * m2] (column
    [j] of the product is [m1] applied to column [j] of [m2]), and
    [m[3][0..2]] (column 3) is [translation_of m]. Since [Q] has many
    representations of one number, matrices are compared with the setoid
    [mat_eq] (entrywise [Qeq]), for which the product is [Proper].

    [Transform] is the engine's struct (position, Euler rotation, scale,
    defaulting to 0, 0 and 1) and [to_mat4] its [translate * rotate * scale]
    composition. The rotation matrix of an Euler triple is trigonometric:
    it is taken through the interface [EulerRotation], whose law is that the
    zero rotation is the identity. *)

From S2P Require Import Prelude.

Record vec3 := Vec3 { vx : Q; vy : Q; vz : Q }.
Record vec4 := Vec4 { wx : Q; wy : Q; wz : Q; ww : Q }.
Record mat4 := Mat4 { col0 : vec4; col1 : vec4; col2 : vec4; col3 : vec4 }.

Definition vec3_zero : vec3 := Vec3 0 0 0.
Definition vec3_splat (s : Q) : vec3 := Vec3 s s s.

Definition v4add (a b : vec4) : vec4 :=
  Vec4 (wx a + wx b) (wy a + wy b) (wz a + wz b) (ww a + ww b).
Definition v4scale (s : Q) (a : vec4) : vec4 :=
  Vec4 (s * wx a) (s * wy a) (s * wz a) (s * ww a).

(** glm's [m * v] *)
Definition mat_apply (m : mat4) (v : vec4) : vec4 :=
  v4add (v4add (v4scale (wx v) (col0 m)) (v4scale (wy v) (col1 m)))
        (v4add (v4scale (wz v) (col2 m)) (v4scale (ww v) (col3 m))).

(** glm's [m1 * m2] *)
Definition mat_mul (a b : mat4) : mat4 :=
  Mat4 (mat_apply a (col0 b)) (mat_apply a (col1 b))
       (mat_apply a (col2 b)) (mat_apply a (col3 b)).

Definition mat_id : mat4 :=
  Mat4 (Vec4 1 0 0 0) (Vec4 0 1 0 0) (Vec4 0 0 1 0) (Vec4 0 0 0 1).

(** [glm::translate(glm::mat4(1), p)] *)
Definition translate_mat (p : vec3) : mat4 :=
  Mat4 (Vec4 1 0 0 0) (Vec4 0 1 0 0) (Vec4 0 0 1 0) (Vec4 (vx p) (vy p) (vz p) 1).

(** [glm::scale(glm::mat4(1), s)] *)
Definition scale_mat (s : vec3) : mat4 :=
  Mat4 (Vec4 (vx s) 0 0 0) (Vec4 0 (vy s) 0 0) (Vec4 0 0 (vz s) 0) (Vec4 0 0 0 1).

(** [glm::vec3(m[3][0], m[3][1], m[3][2])] *)
Definition translation_of (m : mat4) : vec3 :=
  Vec3 (wx (col3 m)) (wy (col3 m)) (wz (col3 m)).

(** ** Setoid equality *)

Definition vec3_eq (a b : vec3) : Prop :=
  vx a == vx b /\ vy a == vy b /\ vz a == vz b.
Definition vec4_eq (a b : vec4) : Prop :=
  wx a == wx b /\ wy a == wy b /\ wz a == wz b /\ ww a == ww b.
Definition mat_eq (a b : mat4) : Prop :=
  vec4_eq (col0 a) (col0 b) /\ vec4_eq (col1 a) (col1 b) /\
  vec4_eq (col2 a) (col2 b) /\ vec4_eq (col3 a) (col3 b).

Infix "≡₃" := vec3_eq (at level 70) : anim_scope.
Infix "≡₄" := vec4_eq (at level 70) : anim_scope.
Infix "≡ₘ" := mat_eq (at level 70) : anim_scope.
Infix "⋅" := mat_mul (at level 40, left associativity) : anim_scope.

(** destruct every vector and matrix and every conjunction in sight *)
Ltac glm_destr :=
  repeat match goal with
  | v : vec3 |- _ => destruct v
  | v : vec4 |- _ => destruct v
  | m : mat4 |- _ => destruct m
  | H : _ /\ _ |- _ => destruct H
  end.

Ltac glm_unfold :=
  unfold mat_eq, vec4_eq, vec3_eq, mat_mul, mat_apply, v4add, v4scale,
    mat_id, translate_mat, scale_mat, translation_of, vec3_zero, vec3_splat in *;
  glm_destr; cbn [wx wy wz ww vx vy vz col0 col1 col2 col3] in *;
  conj_split.

(** entries that are linear in the unknowns close by [lra], which is much
    faster than [ring] on [Q] *)
Ltac glm_solve := glm_unfold; lra.

#[export] Instance vec3_eq_equiv : Equivalence vec3_eq.
Proof.
  unfold vec3_eq. split.
  - intros a. conj_split; reflexivity.
  - intros a b (?&?&?). conj_split; symmetry; done.
  - intros a b c (?&?&?) (?&?&?). conj_split; etransitivity; eauto.
Qed.

#[export] Instance vec4_eq_equiv : Equivalence vec4_eq.
Proof.
  unfold vec4_eq. split.
  - intros a. conj_split; reflexivity.
  - intros a b (?&?&?&?). conj_split; symmetry; done.
  - intros a b c (?&?&?&?) (?&?&?&?). conj_split; etransitivity; eauto.
Qed.

#[export] Instance mat_eq_equiv : Equivalence mat_eq.
Proof.
  split; unfold mat_eq, vec4_eq.
  - intros m. conj_split; reflexivity.
  - intros a b H. glm_destr. conj_split; lra.
  - intros a b c H1 H2. glm_destr. conj_split; lra.
Qed.

#[export] Instance wx_proper : Proper (vec4_eq ==> Qeq) wx.
Proof. intros a b H. apply H. Qed.
#[export] Instance wy_proper : Proper (vec4_eq ==> Qeq) wy.
Proof. intros a b H. apply H. Qed.
#[export] Instance wz_proper : Proper (vec4_eq ==> Qeq) wz.
Proof. intros a b H. apply H. Qed.
#[export] Instance ww_proper : Proper (vec4_eq ==> Qeq) ww.
Proof. intros a b H. apply H. Qed.

#[export] Instance Vec4_proper : Proper (Qeq ==> Qeq ==> Qeq ==> Qeq ==> vec4_eq) Vec4.
Proof. intros ?? H1 ?? H2 ?? H3 ?? H4. by conj_split. Qed.

#[export] Instance Vec3_proper : Proper (Qeq ==> Qeq ==> Qeq ==> vec3_eq) Vec3.
Proof. intros ?? H1 ?? H2 ?? H3. by conj_split. Qed.

#[export] Instance Mat4_proper :
  Proper (vec4_eq ==> vec4_eq ==> vec4_eq ==> vec4_eq ==> mat_eq) Mat4.
Proof. intros ?? H1 ?? H2 ?? H3 ?? H4. by conj_split. Qed.

#[export] Instance v4add_proper : Proper (vec4_eq ==> vec4_eq ==> vec4_eq) v4add.
Proof. intros a a' Ha b b' Hb. unfold v4add. by rewrite Ha, Hb. Qed.

#[export] Instance v4scale_proper : Proper (Qeq ==> vec4_eq ==> vec4_eq) v4scale.
Proof. intros s s' Hs a a' Ha. unfold v4scale. by rewrite Hs, Ha. Qed.

#[export] Instance mat_apply_proper : Proper (mat_eq ==> vec4_eq ==> vec4_eq) mat_apply.
Proof.
  intros a a' (H0 & H1 & H2 & H3) v v' Hv. unfold mat_apply.
  by rewrite H0, H1, H2, H3, Hv.
Qed.

#[export] Instance mat_mul_proper : Proper (mat_eq ==> mat_eq ==> mat_eq) mat_mul.
Proof.
  intros a a' Ha b b' (H0 & H1 & H2 & H3). unfold mat_mul.
  by rewrite Ha, H0, H1, H2, H3.
Qed.

#[export] Instance translation_of_proper : Proper (mat_eq ==> vec3_eq) translation_of.
Proof. intros a a' (_ & _ & _ & H3). unfold translation_of. by rewrite H3. Qed.

#[export] Instance translate_mat_proper : Proper (vec3_eq ==> mat_eq) translate_mat.
Proof. intros a a' (Hx & Hy & Hz). unfold translate_mat. by rewrite Hx, Hy, Hz. Qed.

#[export] Instance scale_mat_proper : Proper (vec3_eq ==> mat_eq) scale_mat.
Proof. intros a a' (Hx & Hy & Hz). unfold scale_mat. by rewrite Hx, Hy, Hz. Qed.

Lemma mat_mul_id_l m : mat_id ⋅ m ≡ₘ m.
Proof. glm_solve. Qed.

Lemma mat_mul_id_r m : m ⋅ mat_id ≡ₘ m.
Proof. glm_solve. Qed.

Lemma translate_mat_zero : translate_mat vec3_zero ≡ₘ mat_id.
Proof. glm_solve. Qed.

Lemma scale_mat_one : scale_mat (vec3_splat 1) ≡ₘ mat_id.
Proof. glm_solve. Qed.

(** the translation column of [m * translate(p)] is [m] applied to the
    point [p] *)
Lemma translation_of_mul_translate m p :
  translation_of (m ⋅ translate_mat p)
  ≡₃ (let r := mat_apply m (Vec4 (vx p) (vy p) (vz p) 1) in Vec3 (wx r) (wy r) (wz r)).
Proof. glm_unfold; ring. Qed.

#[export] Hint Resolve mat_mul_id_l mat_mul_id_r translate_mat_zero scale_mat_one : anim.

(** ** Euler rotations, an external collaborator *)

(** the homogeneous origin [(0, 0, 0, 1)] *)
Definition vec4_origin : vec4 := Vec4 0 0 0 1.

#[export] Instance col3_proper : Proper (mat_eq ==> vec4_eq) col3.
Proof. by intros a a' (_ & _ & _ & H3). Qed.

(** column 3 of [m] is [m] applied to the origin *)
Lemma mat_apply_origin m : mat_apply m vec4_origin ≡₄ col3 m.
Proof. unfold vec4_origin. glm_solve. Qed.

(** a right factor that fixes the origin does not move the translation *)
Lemma translation_of_mul_fixing a b :
  col3 b ≡₄ vec4_origin -> translation_of (a ⋅ b) ≡₃ translation_of a.
Proof.
  intros Hb. unfold translation_of at 1. change (col3 (a ⋅ b)) with (mat_apply a (col3 b)).
  rewrite Hb, mat_apply_origin. reflexivity.
Qed.

(** a rotation matrix: proper, the identity for the zero angles, and it
    fixes the origin (its column 3 is [(0, 0, 0, 1)], as for every matrix
    glm builds from Euler angles) *)
Class EulerRotation := {
  rot_mat : vec3 -> mat4;
  rot_mat_proper :: Proper (vec3_eq ==> mat_eq) rot_mat;
  rot_mat_zero : rot_mat vec3_zero ≡ₘ mat_id;
  rot_mat_fixes_origin r : col3 (rot_mat r) ≡₄ vec4_origin
}.

(** ** The engine's [Transform] *)

Record Transform := mkTransform {
  position : vec3;
  rotation : vec3;
  scale : vec3
}.

(** [Transform t;] with its member initialisers *)
Definition Transform_default : Transform :=
  {| position := vec3_zero; rotation := vec3_zero; scale := vec3_splat 1 |}.

Section ToMat4.
Context `{EulerRotation}.

(** [Transform::to_mat4]: translate, then rotate, then scale *)
Definition to_mat4 (t : Transform) : mat4 :=
  translate_mat (position t) ⋅ rot_mat (rotation t) ⋅ scale_mat (scale t).

Lemma to_mat4_default : to_mat4 Transform_default ≡ₘ mat_id.
Proof.
  unfold to_mat4, Transform_default; simpl.
  rewrite translate_mat_zero, rot_mat_zero, scale_mat_one.
  rewrite !mat_mul_id_l. reflexivity.
Qed.

(** a transform with only a position is the translation by it *)
Lemma to_mat4_offset p :
  to_mat4 {| position := p; rotation := vec3_zero; scale := vec3_splat 1 |}
  ≡ₘ translate_mat p.
Proof.
  unfold to_mat4; simpl.
  rewrite rot_mat_zero, scale_mat_one, !mat_mul_id_r. reflexivity.
Qed.
(** the translation column of [to_mat4 t] is the position of [t] *)
Lemma col3_to_mat4 t :
  col3 (to_mat4 t) ≡₄ Vec4 (vx (position t)) (vy (position t)) (vz (position t)) 1.
Proof.
  unfold to_mat4.
  change (col3 (translate_mat (position t) ⋅ rot_mat (rotation t) ⋅ scale_mat (scale t)))
    with (mat_apply (translate_mat (position t) ⋅ rot_mat (rotation t)) vec4_origin).
  rewrite mat_apply_origin.
  change (col3 (translate_mat (position t) ⋅ rot_mat (rotation t)))
    with (mat_apply (translate_mat (position t)) (col3 (rot_mat (rotation t)))).
  rewrite rot_mat_fixes_origin, mat_apply_origin. reflexivity.
Qed.

Lemma translation_of_to_mat4 t : translation_of (to_mat4 t) ≡₃ position t.
Proof.
  unfold translation_of. rewrite col3_to_mat4. cbn. by destruct (position t).
Qed.
End ToMat4.
