(* ===== verification/Assets.v ===== *)
(** * The shared assets an [AnimatedGameObject] points to

    [Animation] and [SkinnedModel] are the engine's asset classes, reduced
    to the members [AnimatedGameObject.cpp] reads; keyframe data is not
    represented, since only the sampler reads it. The registry [Assets]
    holds the [AssetManager]'s vectors; a pointer to an animation or a
    model is an index into them, so aliasing is explicit: two objects with
    the same [_skinnedModel] index share one model, and a write through
    one ([std::map::operator[]] on [m_BoneMapping]) is seen by the other.

    [BoneSampler] is the interface of
    [SkinnedModel::UpdateBoneTransformsFromAnimation], an external
    collaborator, with the contract the spec gives it. *)

From S2P Require Import Prelude CppStd Glm.

Local Close Scope Q_scope.

(** [class Animation] *)
Record Animation := mkAnimation {
  _filename : string;
  m_duration : Q;        (** in ticks *)
  m_ticksPerSecond : Q
}.

(** [Animation::GetTicksPerSecond] *)
Definition GetTicksPerSecond (a : Animation) : Q := m_ticksPerSecond a.

(** [struct MeshEntry] *)
Record MeshEntry := mkMeshEntry { Name : string }.

(** pointers are indices into the registry's vectors *)
Abbreviation AnimationPtr := nat (only parsing).
Abbreviation SkinnedModelPtr := nat (only parsing).

(** [class SkinnedModel] *)
Record SkinnedModel := mkSkinnedModel {
  sm_filename : string;                    (** [_filename] *)
  m_animations : list AnimationPtr;        (** [std::vector<Animation*>] *)
  m_meshEntries : list MeshEntry;
  m_BoneMapping : gmap string nat;         (** [std::map<std::string, unsigned int>] *)
  m_NumBones : nat
}.

(** the [AssetManager]'s storage *)
Record Assets := mkAssets {
  g_animations : list Animation;
  g_skinnedModels : list SkinnedModel;
  g_materialNames : list string
}.

(** [AssetManager::GetSkinnedModel(name)]: the first model with that file
    name, or [nullptr] *)
Definition GetSkinnedModel (A : Assets) (name : string) : option SkinnedModelPtr :=
  fst <$> list_find (fun m => sm_filename m = name) (g_skinnedModels A).

(** [AssetManager::GetMaterialIndex(name)]: the index of the material of
    that name, or [-1] when there is none *)
Definition GetMaterialIndex (A : Assets) (name : string) : Z :=
  match list_find (fun n => n = name) (g_materialNames A) with
  | Some (i, _) => Z.of_nat i
  | None => (-1)%Z
  end.

(** [struct AnimatedTransforms]: one matrix per bone *)
Record AnimatedTransforms := mkAnimatedTransforms {
  local : list mat4;
  worldspace : list mat4
}.

Definition AnimatedTransforms_empty : AnimatedTransforms :=
  {| local := []; worldspace := [] |}.

(** ** The sampler, an external collaborator

    [UpdateBoneTransformsFromAnimation(time, animation, out transforms,
    out cameraMatrix)] overwrites the transform buffer and may write the
    camera matrix. Its contract (spec, section 4.2): the pose written is a
    function of the model, the time and the clip only (not of what the
    buffers held before), with one world-space matrix per bone. *)
Class BoneSampler := {
  UpdateBoneTransformsFromAnimation :
    SkinnedModel -> Q -> Animation -> AnimatedTransforms -> mat4 ->
    AnimatedTransforms * mat4;
  sampler_fresh : forall m t a buf1 buf2 c1 c2,
    (UpdateBoneTransformsFromAnimation m t a buf1 c1).1 =
    (UpdateBoneTransformsFromAnimation m t a buf2 c2).1;
  sampler_bones : forall m t a buf c,
    length (worldspace (UpdateBoneTransformsFromAnimation m t a buf c).1) = m_NumBones m
}.

(** ** Well-formed registry: every pointer stored in a model is live, and
    every bone index the mapping gives is a bone of the model *)
Definition model_wf (A : Assets) (m : SkinnedModel) : Prop :=
  Forall (fun p => p < length (g_animations A)) (m_animations m) /\
  map_Forall (fun _ i => i < m_NumBones m) (m_BoneMapping m).

Definition assets_wf (A : Assets) : Prop := Forall (model_wf A) (g_skinnedModels A).

Lemma GetSkinnedModel_Some A name p :
  GetSkinnedModel A name = Some p ->
  exists m, g_skinnedModels A !! p = Some m /\ sm_filename m = name.
Proof.
  unfold GetSkinnedModel. destruct (list_find _ _) as [[i m]|] eqn:E; simpl; [|done].
  intros [= <-]. apply list_find_Some in E as (? & ? & _). eauto.
Qed.

Lemma GetSkinnedModel_None A name :
  GetSkinnedModel A name = None ->
  Forall (fun m => sm_filename m <> name) (g_skinnedModels A).
Proof.
  unfold GetSkinnedModel. destruct (list_find _ _) eqn:E; simpl; [done|].
  intros _. by apply list_find_None in E.
Qed.
