(* ===== verification/GameObject.v ===== *)
(** * The state of an [AnimatedGameObject] and the world it lives in

    [AnimatedGameObject] holds the data members the methods of
    [AnimatedGameObject.cpp] read and write, with their C++ names. The
    [World] is what a method can see: the asset registry (shared with
    every other object), the object itself ([this]) and the console log.
    A method is a computation of the monad [Method] over the world; the
    accessors below read [this], dereference its pointers (faulting on
    [nullptr] or a dangling index, which are undefined behaviour in C++),
    write [this] and print a line. The plain setters of the class close
    the file. *)

From S2P Require Import Prelude CppStd Glm Assets.

Record AnimatedGameObject := mkAnimatedGameObject {
  _name : string;
  _transform : Transform;
  _skinnedModel : option SkinnedModelPtr;
  _currentAnimation : option AnimationPtr;
  _currentAnimationTime : Q;
  _currentAnimationTimePrevious : Q;
  _animationSpeed : Q;
  _animationPaused : bool;
  _loopAnimation : bool;
  _animationIsComplete : bool;
  _motionBlur : bool;
  _materialIndices : list Z;
  _animatedTransforms : AnimatedTransforms;
  _animatedTransformsPrevious : AnimatedTransforms;
  _cameraMatrix : mat4
}.

(** a freshly constructed object: null pointers, zero times, unit speed,
    all flags clear, empty buffers *)
Definition AnimatedGameObject_default : AnimatedGameObject := {|
  _name := "";
  _transform := Transform_default;
  _skinnedModel := None;
  _currentAnimation := None;
  _currentAnimationTime := 0;
  _currentAnimationTimePrevious := 0;
  _animationSpeed := 1;
  _animationPaused := false;
  _loopAnimation := false;
  _animationIsComplete := false;
  _motionBlur := false;
  _materialIndices := [];
  _animatedTransforms := AnimatedTransforms_empty;
  _animatedTransformsPrevious := AnimatedTransforms_empty;
  _cameraMatrix := mat_id
|}.

Record World := mkWorld {
  w_assets : Assets;
  w_self : AnimatedGameObject;
  w_cout : list string
}.

Abbreviation Method A := (M World A).

(** ** Accessors *)

Definition this : Method AnimatedGameObject := w <- get;; ret (w_self w).
Definition assets : Method Assets := w <- get;; ret (w_assets w).

Definition update_this (f : AnimatedGameObject -> AnimatedGameObject) : Method unit :=
  modify (fun w => {| w with w_self := f (w_self w) |}).

Definition update_assets (f : Assets -> Assets) : Method unit :=
  modify (fun w => {| w with w_assets := f (w_assets w) |}).

(** [std::cout << line] *)
Definition cout (line : string) : Method unit :=
  modify (fun w => {| w with w_cout := w_cout w ++ [line] |}).

(** [*p] for a pointer into one of the registry's vectors *)
Definition deref_ptr {A} (l : list A) (p : option nat) : Method A :=
  match p with
  | None => fault NullDeref
  | Some i => deref DanglingPointer (l !! i)
  end.

(** [_skinnedModel->...] *)
Definition this_skinnedModel : Method SkinnedModel :=
  o <- this;; A <- assets;; deref_ptr (g_skinnedModels A) (_skinnedModel o).

(** [_currentAnimation->...] *)
Definition this_currentAnimation : Method Animation :=
  o <- this;; A <- assets;; deref_ptr (g_animations A) (_currentAnimation o).

(** ** Running the accessors *)

Ltac unfold_accessors :=
  cbv beta iota delta [this_skinnedModel this_currentAnimation this assets
                       bind get ret deref_ptr deref fault].

Section Run.
Context (w : World).

Lemma this_run : this w = Ok (w_self w, w).
Proof. reflexivity. Qed.

Lemma update_this_run f :
  update_this f w = Ok (tt, {| w with w_self := f (w_self w) |}).
Proof. reflexivity. Qed.

Lemma cout_run s : cout s w = Ok (tt, {| w with w_cout := w_cout w ++ [s] |}).
Proof. reflexivity. Qed.

Lemma this_skinnedModel_run p m :
  _skinnedModel (w_self w) = Some p -> g_skinnedModels (w_assets w) !! p = Some m ->
  this_skinnedModel w = Ok (m, w).
Proof. intros E1 E2. unfold_accessors. by rewrite E1, E2. Qed.

Lemma this_skinnedModel_null :
  _skinnedModel (w_self w) = None -> this_skinnedModel w = Fault NullDeref.
Proof. intros E. unfold_accessors. by rewrite E. Qed.

Lemma this_currentAnimation_run p a :
  _currentAnimation (w_self w) = Some p -> g_animations (w_assets w) !! p = Some a ->
  this_currentAnimation w = Ok (a, w).
Proof. intros E1 E2. unfold_accessors. by rewrite E1, E2. Qed.

Lemma this_currentAnimation_null :
  _currentAnimation (w_self w) = None -> this_currentAnimation w = Fault NullDeref.
Proof. intros E. unfold_accessors. by rewrite E. Qed.
End Run.

#[export] Hint Rewrite this_run update_this_run cout_run : anim_rw.

(** ** Plain setters and getters *)

Definition GetName : Method string := o <- this;; ret (_name o).

Definition SetName (name : string) : Method unit :=
  update_this (fun o => {| o with _name := name |}).

Definition SetScale (s : Q) : Method unit :=
  update_this (fun o => let t := _transform o in
    {| o with _transform := {| t with scale := vec3_splat s |} |}).

Definition SetPosition (p : vec3) : Method unit :=
  update_this (fun o => let t := _transform o in
    {| o with _transform := {| t with position := p |} |}).

Definition SetRotationX (r : Q) : Method unit :=
  update_this (fun o => let t := _transform o in let v := rotation t in
    {| o with _transform := {| t with rotation := {| v with vx := r |} |} |}).

Definition SetRotationY (r : Q) : Method unit :=
  update_this (fun o => let t := _transform o in let v := rotation t in
    {| o with _transform := {| t with rotation := {| v with vy := r |} |} |}).

Definition SetRotationZ (r : Q) : Method unit :=
  update_this (fun o => let t := _transform o in let v := rotation t in
    {| o with _transform := {| t with rotation := {| v with vz := r |} |} |}).

Definition EnableMotionBlur : Method unit :=
  update_this (fun o => {| o with _motionBlur := true |}).

Definition DisableMotionBlur : Method unit :=
  update_this (fun o => {| o with _motionBlur := false |}).

(** ** A concrete world, the input of the examples and witnesses

    A Glock model with two clips ("Fire": 2 ticks at 1 tick per second;
    "Idle": 4 ticks at 2 ticks per second), two meshes, two bones with
    "Barrel" the second, and an object bound to it with no clip yet. *)
Definition clip_fire : Animation :=
  {| _filename := "Fire"; m_duration := 2; m_ticksPerSecond := 1 |}.
Definition clip_idle : Animation :=
  {| _filename := "Idle"; m_duration := 4; m_ticksPerSecond := 2 |}.

Definition glock_model : SkinnedModel := {|
  sm_filename := "Glock";
  m_animations := [0%nat; 1%nat];
  m_meshEntries := [mkMeshEntry "Body"; mkMeshEntry "Slide"];
  m_BoneMapping := {["Barrel" := 1%nat]};
  m_NumBones := 2
|}.

Definition demo_assets : Assets := {|
  g_animations := [clip_fire; clip_idle];
  g_skinnedModels := [glock_model];
  g_materialNames := ["Gun"; "Metal"]
|}.

Definition demo_object : AnimatedGameObject :=
  {| AnimatedGameObject_default with _name := "Glock"; _skinnedModel := Some 0%nat;
     _materialIndices := [0%Z; 0%Z] |}.

Definition demo_world : World :=
  {| w_assets := demo_assets; w_self := demo_object; w_cout := [] |}.

(** ** The setters' effect *)

(** [SetPosition] writes [_transform.position] and leaves the model
    pointer and the registry alone *)
Lemma SetPosition_sets w v :
  exists w', SetPosition v w = Ok (tt, w') /\ position (_transform (w_self w')) = v /\
    _skinnedModel (w_self w') = _skinnedModel (w_self w) /\ w_assets w' = w_assets w.
Proof. eexists. split_and!; reflexivity. Qed.
