(* ===== verification/Playback.v ===== *)
(** * The animation playback state machine

    [PlayAndLoopAnimation], [PlayAnimation], [PauseAnimation],
    [ToggleAnimationPause], [UpdateAnimation], [IsAnimationComplete] and
    [AnimationIsPastPercentage] of [AnimatedGameObject.cpp].

    Each method is a [Method] over the world, written as the C++ is: the
    clip search is the loop over [_skinnedModel->m_animations] that
    dereferences every pointer it visits and returns at the first match
    ([find_animation]); the state changes of a method are a pure function
    of the object ([select_looping], [select_once], [advance]), so that the
    properties can be stated once on the pure function and lifted to the
    method by its run lemma.

    Properties: the functional behaviour of every method on every branch
    (found, not found, null model), the behaviour of [advance] under
    looping and non-looping playback over any sequence of ticks, the bound
    [time <= duration] after a tick, the one-frame lag of the previous time
    at a wrap, and a defect: after a [PlayAnimation] of a clip has
    completed, [PlayAndLoopAnimation] of the same clip leaves the object
    paused forever. Liveness: a running non-looping clip ticked at a
    positive speed completes after a number of ticks bounded by its
    remaining length over the step. *)

From S2P Require Import Prelude CppStd Glm Assets GameObject.

(** ** Definitions *)

(** the newline character that ends a line of console output *)
Definition endl : string := String (Ascii.ascii_of_nat 10) EmptyString.

(** [for (i ...) if (m_animations[i]->_filename == name) ...; return]:
    the first clip pointer whose clip has that name *)
Fixpoint find_animation (A : Assets) (name : string) (ps : list AnimationPtr)
  : Method (option AnimationPtr) :=
  match ps with
  | [] => ret None
  | p :: ps' =>
      a <- deref_ptr (g_animations A) (Some p);;
      if decide (_filename a = name) then ret (Some p) else find_animation A name ps'
  end.

(** lines 32-46: the state change of [PlayAndLoopAnimation] once the clip
    is found *)
Definition select_looping (p : AnimationPtr) (speed : Q) (o : AnimatedGameObject)
  : AnimatedGameObject :=
  let o1 := if decide (_currentAnimation o = Some p) then o
            else {| o with _currentAnimationTime := 0; _animationPaused := false |} in
  {| o1 with _currentAnimation := Some p; _loopAnimation := true;
             _animationIsComplete := false; _animationSpeed := speed |}.

Definition PlayAndLoopAnimation (animationName : string) (speed : Q) : Method unit :=
  o <- this;;
  match _skinnedModel o with
  | None => ret tt
  | Some _ =>
      m <- this_skinnedModel;;
      A <- assets;;
      r <- find_animation A animationName (m_animations m);;
      match r with
      | Some p => update_this (select_looping p speed)
      | None => cout (animationName +:+ " not found!" +:+ endl)
      end
  end.

(** lines 102-107: the state change of [PlayAnimation] once the clip is
    found *)
Definition select_once (p : AnimationPtr) (speed : Q) (o : AnimatedGameObject)
  : AnimatedGameObject :=
  {| o with _currentAnimationTime := 0; _currentAnimation := Some p;
            _loopAnimation := false; _animationSpeed := speed;
            _animationPaused := false; _animationIsComplete := false |}.

(** no null check on [_skinnedModel], unlike [PlayAndLoopAnimation] *)
Definition PlayAnimation (animationName : string) (speed : Q) : Method unit :=
  m <- this_skinnedModel;;
  A <- assets;;
  r <- find_animation A animationName (m_animations m);;
  match r with
  | Some p => update_this (select_once p speed)
  | None => cout (animationName +:+ " not found!" +:+ endl)
  end.

Definition PauseAnimation : Method unit :=
  update_this (fun o => {| o with _animationPaused := true |}).

Definition ToggleAnimationPause : Method unit :=
  update_this (fun o => {| o with _animationPaused := negb (_animationPaused o) |}).

(** [m_duration / m_ticksPerSecond], the clip length in seconds *)
Definition clip_duration (a : Animation) : fquot :=
  fdiv (m_duration a) (m_ticksPerSecond a).

(** lines 119-131: advance the clock and detect completion *)
Definition advance (duration : fquot) (deltaTime : Q) (o : AnimatedGameObject)
  : AnimatedGameObject :=
  let o1 := if _animationPaused o then o
            else {| o with _currentAnimationTimePrevious := _currentAnimationTime o;
                           _currentAnimationTime :=
                             _currentAnimationTime o + deltaTime * _animationSpeed o |} in
  if fgt (_currentAnimationTime o1) duration then
    let o2 := {| o1 with _currentAnimationTime := 0 |} in
    if _loopAnimation o2 then o2
    else {| o2 with _animationPaused := true; _animationIsComplete := true |}
  else o1.

Definition UpdateAnimation (deltaTime : Q) : Method unit :=
  a <- this_currentAnimation;;
  update_this (advance (clip_duration a) deltaTime).

Definition IsAnimationComplete : Method bool :=
  o <- this;; ret (_animationIsComplete o).

Definition AnimationIsPastPercentage (percent : Q) : Method bool :=
  o <- this;;
  a <- this_currentAnimation;;
  ret (Qgtb (_currentAnimationTime o * GetTicksPerSecond a)
            (m_duration a * (percent / 100))).

(** the clip [find_animation] finds, as a pure function *)
Definition clip_by_name (A : Assets) (name : string) (ps : list AnimationPtr)
  : option AnimationPtr :=
  snd <$> list_find (fun p => _filename <$> g_animations A !! p = Some name) ps.

(** [n] ticks of [advance] against one clip *)
Fixpoint advance_all (duration : fquot) (dts : list Q) (o : AnimatedGameObject)
  : AnimatedGameObject :=
  match dts with
  | [] => o
  | dt :: dts' => advance_all duration dts' (advance duration dt o)
  end.

(** a frame loop that only ticks the state machine *)
Fixpoint UpdateAnimation_seq (dts : list Q) : Method unit :=
  match dts with
  | [] => ret tt
  | dt :: dts' => UpdateAnimation dt;; UpdateAnimation_seq dts'
  end.

(** ** Running the methods *)

Definition ptrs_live (A : Assets) (ps : list AnimationPtr) : Prop :=
  Forall (fun p => (p < length (g_animations A))%nat) ps.

Lemma find_animation_run A name ps w :
  ptrs_live A ps ->
  find_animation A name ps w = Ok (clip_by_name A name ps, w).
Proof.
  unfold clip_by_name. induction 1 as [|p ps Hp Hps IH]; [done|].
  destruct (lookup_lt_is_Some_2 _ _ Hp) as [a Ha].
  cbn [find_animation]. unfold deref_ptr, deref.
  rewrite Ha, bind_ret_l. simpl. rewrite Ha. simpl.
  case_decide as Hn; case_decide as Hn'; try congruence.
  { reflexivity. }
  rewrite IH. by destruct (list_find _ ps) as [[]|].
Qed.

(** the skinned model of [this] is live and its clip pointers are live *)
Definition model_ready (w : World) (m : SkinnedModel) : Prop :=
  exists p, _skinnedModel (w_self w) = Some p /\
            g_skinnedModels (w_assets w) !! p = Some m /\
            ptrs_live (w_assets w) (m_animations m).

Definition not_found_line (name : string) : string := name +:+ " not found!" +:+ endl.

Definition after_play (w : World) (r : option AnimationPtr)
  (sel : AnimationPtr -> AnimatedGameObject -> AnimatedGameObject) (name : string) : World :=
  match r with
  | Some p => {| w with w_self := sel p (w_self w) |}
  | None => {| w with w_cout := w_cout w ++ [not_found_line name] |}
  end.

Lemma PlayAndLoopAnimation_run w m name speed :
  model_ready w m ->
  PlayAndLoopAnimation name speed w =
  Ok (tt, after_play w (clip_by_name (w_assets w) name (m_animations m))
                     (fun p => select_looping p speed) name).
Proof.
  intros (p & Hp & Hm & Hl). unfold PlayAndLoopAnimation.
  rewrite (bind_Ok _ _ _ _ _ (this_run w)), Hp.
  rewrite (bind_Ok _ _ _ _ _ (this_skinnedModel_run w p m Hp Hm)).
  cbv [bind assets get ret]. rewrite find_animation_run by done.
  by destruct (clip_by_name _ _ _).
Qed.

Lemma PlayAndLoopAnimation_null w name speed :
  _skinnedModel (w_self w) = None -> PlayAndLoopAnimation name speed w = Ok (tt, w).
Proof. intros Hp. unfold PlayAndLoopAnimation. cbv [bind this get ret]. by rewrite Hp. Qed.

Lemma PlayAnimation_run w m name speed :
  model_ready w m ->
  PlayAnimation name speed w =
  Ok (tt, after_play w (clip_by_name (w_assets w) name (m_animations m))
                     (fun p => select_once p speed) name).
Proof.
  intros (p & Hp & Hm & Hl). unfold PlayAnimation.
  rewrite (bind_Ok _ _ _ _ _ (this_skinnedModel_run w p m Hp Hm)).
  cbv [bind assets get ret]. rewrite find_animation_run by done.
  by destruct (clip_by_name _ _ _).
Qed.

Lemma UpdateAnimation_run w p a dt :
  _currentAnimation (w_self w) = Some p -> g_animations (w_assets w) !! p = Some a ->
  UpdateAnimation dt w =
  Ok (tt, {| w with w_self := advance (clip_duration a) dt (w_self w) |}).
Proof.
  intros Hp Ha. unfold UpdateAnimation.
  by rewrite (bind_Ok _ _ _ _ _ (this_currentAnimation_run w p a Hp Ha)).
Qed.

Lemma UpdateAnimation_null w dt :
  _currentAnimation (w_self w) = None -> UpdateAnimation dt w = Fault NullDeref.
Proof.
  intros Hp. unfold UpdateAnimation.
  by rewrite (bind_Fault _ _ _ _ (this_currentAnimation_null w Hp)).
Qed.

(** ** [advance], the clock of the state machine *)

(** case analysis on the three tests of [advance] *)
Ltac advance_cases :=
  unfold advance;
  match goal with
  |- context [if _animationPaused ?o then _ else _] =>
      destruct (_animationPaused o) eqn:?Hpaused end; simpl;
  match goal with
  | |- context [if fgt ?a ?b then _ else _] => destruct (fgt a b) eqn:?Hgt
  | |- context [if Qgtb ?a ?b then _ else _] => destruct (Qgtb a b) eqn:?Hgt
  end; simpl;
  try match goal with
  |- context [if _loopAnimation ?o then _ else _] =>
      destruct (_loopAnimation o) eqn:?Hloop end; simpl.

Lemma advance_currentAnimation d dt o :
  _currentAnimation (advance d dt o) = _currentAnimation o.
Proof. advance_cases; reflexivity. Qed.

Lemma advance_loopAnimation d dt o :
  _loopAnimation (advance d dt o) = _loopAnimation o.
Proof. advance_cases; reflexivity. Qed.

Lemma advance_all_currentAnimation d dts o :
  _currentAnimation (advance_all d dts o) = _currentAnimation o.
Proof.
  revert o. induction dts as [|dt dts IH]; intros o; [done|].
  cbn [advance_all]. by rewrite IH, advance_currentAnimation.
Qed.

Lemma advance_all_loopAnimation d dts o :
  _loopAnimation (advance_all d dts o) = _loopAnimation o.
Proof.
  revert o. induction dts as [|dt dts IH]; intros o; [done|].
  cbn [advance_all]. by rewrite IH, advance_loopAnimation.
Qed.

#[export] Hint Rewrite advance_currentAnimation advance_loopAnimation
  advance_all_currentAnimation advance_all_loopAnimation : anim_rw.

(** a loop of [UpdateAnimation] is [advance_all] on the object *)
Lemma UpdateAnimation_seq_run w p a dts :
  _currentAnimation (w_self w) = Some p -> g_animations (w_assets w) !! p = Some a ->
  UpdateAnimation_seq dts w =
  Ok (tt, {| w with w_self := advance_all (clip_duration a) dts (w_self w) |}).
Proof.
  revert w. induction dts as [|dt dts IH]; intros w Hp Ha; [by destruct w|].
  cbn [UpdateAnimation_seq]. rewrite (bind_Ok _ _ _ _ _ (UpdateAnimation_run w p a dt Hp Ha)).
  rewrite IH; cbn [w_self w_assets]; [done | by rewrite advance_currentAnimation | done].
Qed.

(** *** One tick *)

Lemma advance_looping_flags d dt o :
  _loopAnimation o = true ->
  _animationIsComplete (advance d dt o) = _animationIsComplete o /\
  _animationPaused (advance d dt o) = _animationPaused o.
Proof. intros Hl. advance_cases; by rewrite ?Hl. Qed.

(** a paused object whose time is within the clip is a fixpoint of a tick *)
Lemma advance_paused_within d dt o :
  _animationPaused o = true -> fgt (_currentAnimationTime o) d = false ->
  advance d dt o = o.
Proof. intros Hp Hg. advance_cases; congruence || by destruct o. Qed.

(** a state that one tick of any length leaves alone is left alone by
    any sequence of ticks *)
Lemma advance_all_fixpoint d dts o :
  (forall dt, advance d dt o = o) -> advance_all d dts o = o.
Proof.
  intros Hfix. induction dts as [|dt dts IH]; [done|]. cbn [advance_all]. by rewrite Hfix.
Qed.

(** the clip length in seconds of a clip with a non-negative length and a
    positive rate *)
Lemma clip_duration_pos a :
  0 < m_ticksPerSecond a ->
  clip_duration a = FFin (m_duration a / m_ticksPerSecond a).
Proof. intros H. apply fdiv_nonzero. lra. Qed.

Lemma clip_duration_nonneg a :
  0 <= m_duration a -> 0 < m_ticksPerSecond a ->
  0 <= m_duration a / m_ticksPerSecond a.
Proof. intros H1 H2. apply Qle_shift_div_l; lra. Qed.

Lemma Qgtb_ext a b c d : (b < a <-> d < c) -> Qgtb a b = Qgtb c d.
Proof.
  intros H. destruct (Qgtb c d) eqn:E.
  - apply Qgtb_true in E. apply Qgtb_true. tauto.
  - apply Qgtb_false in E. apply Qgtb_false. apply Qnot_lt_le. intros Hlt.
    apply H in Hlt. lra.
Qed.

(** *** Ticking a running clip to its end *)

(** a completed clip with time 0 in a clip of non-negative length is a
    fixpoint of every sequence of ticks *)
Lemma advance_all_completed q dts o :
  0 <= q -> _animationPaused o = true -> _currentAnimationTime o = 0 ->
  advance_all (FFin q) dts o = o.
Proof.
  intros Hq Hp Ht. apply advance_all_fixpoint. intros dt.
  apply advance_paused_within; [done|]. rewrite Ht. by apply Qgtb_false.
Qed.

Lemma inject_Z_of_nat_succ m :
  inject_Z (Z.of_nat (S m)) == inject_Z (Z.of_nat m) + 1.
Proof. rewrite Nat2Z.inj_succ, <- Z.add_1_r, inject_Z_plus. reflexivity. Qed.

Lemma advance_all_cons d dt dts o :
  advance_all d (dt :: dts) o = advance_all d dts (advance d dt o).
Proof. reflexivity. Qed.

(** a running tick that does not pass the end [d] *)
Lemma advance_nowrap d dt o :
  _animationPaused o = false ->
  fgt (_currentAnimationTime o + dt * _animationSpeed o) d = false ->
  advance d dt o =
  {| o with _currentAnimationTimePrevious := _currentAnimationTime o;
            _currentAnimationTime := _currentAnimationTime o + dt * _animationSpeed o |}.
Proof. intros Hp Hg. advance_cases; congruence || reflexivity. Qed.

(** a running tick of a non-looping clip that passes the end *)
Lemma advance_wrap_flags d dt o :
  _animationPaused o = false -> _loopAnimation o = false ->
  fgt (_currentAnimationTime o + dt * _animationSpeed o) d = true ->
  _animationIsComplete (advance d dt o) = true /\ _animationPaused (advance d dt o) = true /\
  _currentAnimationTime (advance d dt o) = 0.
Proof. intros Hp Hl Hg. advance_cases; congruence || done. Qed.

(** a running non-looping clip whose time after [m + 1] ticks of [delta]
    seconds would pass the end [q] is complete, paused and at time 0 after
    those ticks *)
Lemma advance_all_reaches_end q dt m o :
  0 <= q -> 0 < dt * _animationSpeed o ->
  _animationPaused o = false -> _loopAnimation o = false ->
  q < _currentAnimationTime o + inject_Z (Z.of_nat (S m)) * (dt * _animationSpeed o) ->
  let o' := advance_all (FFin q) (repeat dt (S m)) o in
  _animationIsComplete o' = true /\ _animationPaused o' = true /\ _currentAnimationTime o' = 0.
Proof.
  revert o. induction m as [|m IH]; intros o Hq Hd Hp Hl Hend o'; subst o';
    change (repeat dt (S ?k)) with (dt :: repeat dt k); rewrite advance_all_cons;
    rewrite inject_Z_of_nat_succ in Hend.
  - apply advance_wrap_flags; [done | done |]. apply Qgtb_true.
    change (inject_Z (Z.of_nat 0)) with 0 in Hend. lra.
  - destruct (Qgtb (_currentAnimationTime o + dt * _animationSpeed o) q) eqn:Hgt.
    + destruct (advance_wrap_flags (FFin q) dt o Hp Hl Hgt) as (Hc & Hp' & Ht').
      rewrite advance_all_completed by done. by split_and!.
    + rewrite (advance_nowrap (FFin q) dt o Hp Hgt). apply Qgtb_false in Hgt.
      apply IH; cbn [_animationPaused _loopAnimation _currentAnimationTime _animationSpeed];
        try done.
      rewrite inject_Z_of_nat_succ in Hend |- *. lra.
Qed.

(** the number of ticks the bound of [advance_all_reaches_end] needs *)
Lemma ticks_to_end_enough q t delta :
  0 < delta ->
  q < t + inject_Z (Z.of_nat (S (Z.to_nat (Qceiling ((q - t) / delta))))) * delta.
Proof.
  intros Hd. rewrite inject_Z_of_nat_succ.
  set (c := Qceiling ((q - t) / delta)).
  assert (Hc : (q - t) / delta <= inject_Z (Z.of_nat (Z.to_nat c))).
  { apply (Qle_trans _ (inject_Z c)); [apply Qle_ceiling|].
    rewrite <- Zle_Qle. lia. }
  assert (E : (q - t) / delta * delta == q - t) by (field; lra).
  apply (Qmult_le_r _ _ delta) in Hc; [|done]. nra.
Qed.

(** *** The clock's properties *)

(** C1. A looping clip never completes: over any sequence of ticks, from
    any state with [_loopAnimation] set, [_animationIsComplete] and
    [_animationPaused] keep their values (a wrap resets the time without
    pausing). *)
Theorem advance_all_looping_never_completes d dts o :
  _loopAnimation o = true ->
  _animationIsComplete (advance_all d dts o) = _animationIsComplete o /\
  _animationPaused (advance_all d dts o) = _animationPaused o.
Proof.
  revert o. induction dts as [|dt dts IH]; intros o Hl; [done|].
  cbn [advance_all]. destruct (advance_looping_flags d dt o Hl) as [E1 E2].
  rewrite <- E1, <- E2. apply IH. by rewrite advance_loopAnimation.
Qed.

(** C2. A running non-looping clip whose new time passes the end stops in
    one tick: the time is reset to 0, the object is paused and complete, and
    the previous time keeps the time before the tick. *)
Theorem advance_once_completes d dt o :
  _animationPaused o = false -> _loopAnimation o = false ->
  fgt (_currentAnimationTime o + dt * _animationSpeed o) d = true ->
  advance d dt o =
  {| o with _currentAnimationTimePrevious := _currentAnimationTime o;
            _currentAnimationTime := 0;
            _animationPaused := true; _animationIsComplete := true |}.
Proof. intros Hp Hl Hg. advance_cases; congruence || reflexivity. Qed.

(** C3. A completed clip stays completed: while the object is paused and
    its time is within the clip, no sequence of ticks changes any field
    (time, previous time, flags). *)
Theorem advance_all_paused_frozen d dts o :
  _animationPaused o = true -> fgt (_currentAnimationTime o) d = false ->
  advance_all d dts o = o.
Proof.
  intros Hp Hg. apply advance_all_fixpoint. intros dt. by apply advance_paused_within.
Qed.

(** After a tick against a clip of finite non-negative length [q], the
    time is at most [q], whatever the state before. *)
Theorem advance_time_bound q dt o :
  0 <= q -> _currentAnimationTime (advance (FFin q) dt o) <= q.
Proof. intros Hq. advance_cases; try lra; by apply Qgtb_false. Qed.

(** C5. At a wrap (loop or completion) the previous time is not reset: it
    holds the time before the tick while the time becomes 0, so for one
    frame the previous time is ahead of the current one. *)
Theorem advance_wrap_previous_lag d dt o :
  _animationPaused o = false ->
  fgt (_currentAnimationTime o + dt * _animationSpeed o) d = true ->
  _currentAnimationTimePrevious (advance d dt o) = _currentAnimationTime o /\
  _currentAnimationTime (advance d dt o) = 0.
Proof. intros Hp Hg. advance_cases; congruence || done. Qed.

(** re-selecting the current clip keeps time and pause flag *)
Lemma select_looping_same p speed o :
  _currentAnimation o = Some p ->
  select_looping p speed o =
  {| o with _currentAnimation := Some p; _loopAnimation := true;
            _animationIsComplete := false; _animationSpeed := speed |}.
Proof. intros Hp. unfold select_looping. by rewrite decide_True. Qed.

(** *** The methods' properties *)

(** C6. [PlayAnimation] of a clip of the model always restarts it, even
    when it is the clip already playing: the world after the call is the
    world before it with exactly six fields of the object rewritten (time
    0, that clip, not looping, the new speed, running, not complete);
    every other field of the object (previous time, motion blur, material
    table, poses, transform, ...), the registry and the console output
    are unchanged. *)
Theorem PlayAnimation_restarts w m name speed p :
  model_ready w m -> clip_by_name (w_assets w) name (m_animations m) = Some p ->
  PlayAnimation name speed w =
  Ok (tt, {| w with w_self := let o := w_self w in
               {| o with _currentAnimationTime := 0; _currentAnimation := Some p;
                         _loopAnimation := false; _animationSpeed := speed;
                         _animationPaused := false; _animationIsComplete := false |} |}).
Proof. intros Hm Hc. by rewrite (PlayAnimation_run w m name speed Hm), Hc. Qed.

(** C7. [PlayAndLoopAnimation] of the clip already current keeps its time
    and its paused flag (a seamless speed change); it sets looping, clears
    completion and takes the new speed. *)
Theorem PlayAndLoopAnimation_same_clip w m name speed p :
  model_ready w m -> clip_by_name (w_assets w) name (m_animations m) = Some p ->
  _currentAnimation (w_self w) = Some p ->
  exists w', PlayAndLoopAnimation name speed w = Ok (tt, w') /\
    _currentAnimation (w_self w') = Some p /\
    _currentAnimationTime (w_self w') = _currentAnimationTime (w_self w) /\
    _animationPaused (w_self w') = _animationPaused (w_self w) /\
    _loopAnimation (w_self w') = true /\ _animationIsComplete (w_self w') = false /\
    _animationSpeed (w_self w') = speed.
Proof.
  intros Hm Hc Hp. rewrite (PlayAndLoopAnimation_run w m name speed Hm), Hc.
  eexists. split; [reflexivity|]. cbn [after_play w_self].
  by rewrite select_looping_same.
Qed.

(** C8. [PlayAndLoopAnimation] of a clip other than the current one
    restarts: time 0 and running, looping, not complete, new speed. *)
Theorem PlayAndLoopAnimation_new_clip w m name speed p :
  model_ready w m -> clip_by_name (w_assets w) name (m_animations m) = Some p ->
  _currentAnimation (w_self w) <> Some p ->
  exists w', PlayAndLoopAnimation name speed w = Ok (tt, w') /\
    _currentAnimation (w_self w') = Some p /\ _currentAnimationTime (w_self w') = 0 /\
    _animationPaused (w_self w') = false /\ _loopAnimation (w_self w') = true /\
    _animationIsComplete (w_self w') = false /\ _animationSpeed (w_self w') = speed.
Proof.
  intros Hm Hc Hp. rewrite (PlayAndLoopAnimation_run w m name speed Hm), Hc.
  eexists. split; [reflexivity|]. cbn [after_play w_self].
  unfold select_looping. rewrite decide_False by done. done.
Qed.

(** C9. A clip name the model does not have leaves the object and the
    registry unchanged and prints one diagnostic line, for both play
    methods. *)
Theorem Play_not_found w m name speed :
  model_ready w m -> clip_by_name (w_assets w) name (m_animations m) = None ->
  PlayAnimation name speed w = Ok (tt, {| w with w_cout := w_cout w ++ [not_found_line name] |}) /\
  PlayAndLoopAnimation name speed w =
    Ok (tt, {| w with w_cout := w_cout w ++ [not_found_line name] |}).
Proof.
  intros Hm Hc.
  rewrite (PlayAnimation_run w m name speed Hm), (PlayAndLoopAnimation_run w m name speed Hm), Hc.
  done.
Qed.

(** C10. Without a skinned model, [PlayAndLoopAnimation] returns silently
    but [PlayAnimation] dereferences the null [_skinnedModel]: undefined
    behaviour. *)
Theorem Play_null_model w name speed :
  _skinnedModel (w_self w) = None ->
  PlayAndLoopAnimation name speed w = Ok (tt, w) /\
  PlayAnimation name speed w = Fault NullDeref.
Proof.
  intros Hn. split; [by apply PlayAndLoopAnimation_null|].
  unfold PlayAnimation. by rewrite (bind_Fault _ _ _ _ (this_skinnedModel_null w Hn)).
Qed.

(** [ToggleAnimationPause] twice is the identity on the world. *)
Theorem ToggleAnimationPause_twice w :
  (ToggleAnimationPause;; ToggleAnimationPause) w = Ok (tt, w).
Proof.
  cbv [bind ToggleAnimationPause update_this modify]. cbn.
  rewrite negb_involutive. by destruct w as [? [] ?].
Qed.

(** C12. Defect: once a [PlayAnimation] of a clip has completed (paused,
    complete, time 0), [PlayAndLoopAnimation] of the same clip sets looping
    but does not unpause, because the unpause is guarded by "clip differs";
    from then on no sequence of [UpdateAnimation] ticks changes the world:
    the loop never plays. *)
Theorem PlayAndLoop_after_completion_stuck w m name speed p a dts :
  model_ready w m -> clip_by_name (w_assets w) name (m_animations m) = Some p ->
  g_animations (w_assets w) !! p = Some a ->
  0 <= m_duration a -> 0 <= m_ticksPerSecond a ->
  _currentAnimation (w_self w) = Some p -> _animationPaused (w_self w) = true ->
  _animationIsComplete (w_self w) = true -> _currentAnimationTime (w_self w) = 0 ->
  exists w', PlayAndLoopAnimation name speed w = Ok (tt, w') /\
    _loopAnimation (w_self w') = true /\ _animationPaused (w_self w') = true /\
    UpdateAnimation_seq dts w' = Ok (tt, w').
Proof.
  intros Hm Hc Ha Hd Ht Hp Hpaused _ Htime.
  rewrite (PlayAndLoopAnimation_run w m name speed Hm), Hc. cbn [after_play].
  eexists. split_and!; [reflexivity | by rewrite select_looping_same..|].
  rewrite (UpdateAnimation_seq_run _ p a dts) by (by rewrite ?select_looping_same).
  rewrite advance_all_fixpoint; [by destruct w|]. intros dt.
  apply advance_paused_within; rewrite select_looping_same by done; [done|].
  cbn. rewrite Htime. by apply fgt_nonneg_duration.
Qed.

(** C13. [UpdateAnimation] on a live clip of non-negative length and
    positive rate succeeds and leaves the time within the clip:
    [time <= m_duration / m_ticksPerSecond]. *)
Theorem UpdateAnimation_time_bound w p a dt :
  _currentAnimation (w_self w) = Some p -> g_animations (w_assets w) !! p = Some a ->
  0 <= m_duration a -> 0 < m_ticksPerSecond a ->
  exists w', UpdateAnimation dt w = Ok (tt, w') /\
    _currentAnimationTime (w_self w') <= m_duration a / m_ticksPerSecond a.
Proof.
  intros Hp Ha Hd Ht. rewrite (UpdateAnimation_run w p a dt Hp Ha).
  eexists. split; [reflexivity|]. cbn [w_self].
  rewrite clip_duration_pos by done.
  pose proof (clip_duration_nonneg a Hd Ht).
  advance_cases; try lra; by apply Qgtb_false.
Qed.

(** C14. [AnimationIsPastPercentage] compares in ticks, which for a
    positive rate is the comparison in seconds: it answers whether the time
    is past [percent] percent of the clip length
    [m_duration / m_ticksPerSecond]. *)
Theorem AnimationIsPastPercentage_seconds w p a percent :
  _currentAnimation (w_self w) = Some p -> g_animations (w_assets w) !! p = Some a ->
  0 < m_ticksPerSecond a ->
  AnimationIsPastPercentage percent w =
  Ok (Qgtb (_currentAnimationTime (w_self w))
           (m_duration a / m_ticksPerSecond a * (percent / 100)), w).
Proof.
  intros Hp Ha Ht. unfold AnimationIsPastPercentage.
  rewrite (bind_Ok _ _ _ _ _ (this_run w)).
  rewrite (bind_Ok _ _ _ _ _ (this_currentAnimation_run w p a Hp Ha)).
  unfold ret, GetTicksPerSecond. do 2 f_equal. apply Qgtb_ext.
  set (k := percent / 100). set (t := _currentAnimationTime (w_self w)).
  rewrite <- (Qmult_lt_r (m_duration a / m_ticksPerSecond a * k) t (m_ticksPerSecond a)) by done.
  assert (E : m_duration a / m_ticksPerSecond a * k * m_ticksPerSecond a == m_duration a * k)
    by (field; lra).
  by setoid_rewrite E.
Qed.

(** C37. Liveness: a running non-looping clip of non-negative length and
    positive rate, ticked with a fixed [dt] at a positive effective speed,
    completes: after [ceil ((duration - time) / (dt * speed)) + 1] calls
    of [UpdateAnimation] it is complete, paused and at time 0. *)
Theorem UpdateAnimation_seq_completes w p a dt :
  _currentAnimation (w_self w) = Some p -> g_animations (w_assets w) !! p = Some a ->
  0 <= m_duration a -> 0 < m_ticksPerSecond a ->
  _animationPaused (w_self w) = false -> _loopAnimation (w_self w) = false ->
  0 < dt * _animationSpeed (w_self w) ->
  let n := S (Z.to_nat (Qceiling ((m_duration a / m_ticksPerSecond a -
                                   _currentAnimationTime (w_self w)) /
                                  (dt * _animationSpeed (w_self w))))) in
  exists w', UpdateAnimation_seq (repeat dt n) w = Ok (tt, w') /\
    IsAnimationComplete w' = Ok (true, w') /\
    _animationPaused (w_self w') = true /\ _currentAnimationTime (w_self w') = 0.
Proof.
  intros Hp Ha Hd Ht Hpa Hl Hs n. subst n.
  rewrite (UpdateAnimation_seq_run w p a _ Hp Ha), clip_duration_pos by done.
  destruct (advance_all_reaches_end (m_duration a / m_ticksPerSecond a) dt
              (Z.to_nat (Qceiling ((m_duration a / m_ticksPerSecond a -
                                    _currentAnimationTime (w_self w)) /
                                   (dt * _animationSpeed (w_self w)))))
              (w_self w)) as (Hc & Hpa' & Ht');
    [by apply clip_duration_nonneg | done | done | done | by apply ticks_to_end_enough |].
  eexists. split_and!; [reflexivity | | done | done].
  cbv [IsAnimationComplete bind this get ret]. cbn [w_self]. by rewrite Hc.
Qed.

(** ** The spec's concrete scenario and the witnesses, on [demo_world] *)

(** [demo_world] after [PlayAnimation("Fire", 1)] *)
Definition demo_playing : World :=
  {| demo_world with w_self := select_once 0%nat 1 demo_object |}.

(** [demo_playing] after two ticks of 1 s and 1.5 s: the clip is complete *)
Definition demo_completed : World :=
  {| demo_world with w_self :=
       advance (FFin 2) (3#2) (advance (FFin 2) 1 (select_once 0%nat 1 demo_object)) |}.

Ltac ready_tac :=
  eexists; split_and!; [reflexivity | reflexivity | repeat constructor; simpl; lia].

(** The scenario of the spec: a 2-tick clip at 1 tick per second,
    played once at speed 1; a tick of 1 s leaves it running at time 1, a
    further tick of 1.5 s passes the end: time 0, paused, complete. *)
Example spec_scenario_play_once :
  exists w1 w2,
    (PlayAnimation "Fire" 1;; UpdateAnimation 1) demo_world = Ok (tt, w1) /\
    _currentAnimationTime (w_self w1) == 1 /\ _animationPaused (w_self w1) = false /\
    UpdateAnimation (3#2) w1 = Ok (tt, w2) /\
    _currentAnimationTime (w_self w2) = 0 /\ _animationPaused (w_self w2) = true /\
    IsAnimationComplete w2 = Ok (true, w2).
Proof.
  do 2 eexists. split; [vm_compute; reflexivity|].
  split; [reflexivity|]. split; [reflexivity|].
  split; [vm_compute; reflexivity|]. split_and!; reflexivity.
Qed.

Lemma advance_all_looping_never_completes_witness :
  let o := select_looping 0%nat 1 demo_object in
  _animationIsComplete (advance_all (FFin 2) [1; 3#2; 5] o) = _animationIsComplete o /\
  _animationPaused (advance_all (FFin 2) [1; 3#2; 5] o) = _animationPaused o.
Proof. apply (advance_all_looping_never_completes _ _ _). reflexivity. Defined.

Lemma advance_once_completes_witness :
  advance (FFin 2) (3#2) (advance (FFin 2) 1 (select_once 0%nat 1 demo_object)) =
  let o := advance (FFin 2) 1 (select_once 0%nat 1 demo_object) in
  {| o with _currentAnimationTimePrevious := _currentAnimationTime o;
            _currentAnimationTime := 0;
            _animationPaused := true; _animationIsComplete := true |}.
Proof. apply advance_once_completes; vm_compute; reflexivity. Defined.

Lemma advance_all_paused_frozen_witness :
  advance_all (FFin 2) [1; 7] (w_self demo_completed) = w_self demo_completed.
Proof. apply advance_all_paused_frozen; vm_compute; reflexivity. Defined.

Lemma advance_time_bound_witness :
  _currentAnimationTime (advance (FFin 2) 5 (select_once 0%nat 1 demo_object)) <= 2.
Proof. apply advance_time_bound. lra. Defined.

Lemma advance_wrap_previous_lag_witness :
  let o := advance (FFin 2) 1 (select_looping 0%nat 1 demo_object) in
  _currentAnimationTimePrevious (advance (FFin 2) (3#2) o) = _currentAnimationTime o /\
  _currentAnimationTime (advance (FFin 2) (3#2) o) = 0.
Proof. apply advance_wrap_previous_lag; vm_compute; reflexivity. Defined.

Lemma PlayAnimation_restarts_witness :
  PlayAnimation "Fire" 2 demo_completed =
  Ok (tt, {| demo_completed with w_self := let o := w_self demo_completed in
               {| o with _currentAnimationTime := 0; _currentAnimation := Some 0%nat;
                         _loopAnimation := false; _animationSpeed := 2;
                         _animationPaused := false; _animationIsComplete := false |} |}).
Proof. apply (PlayAnimation_restarts _ glock_model); [ready_tac | reflexivity]. Defined.

Lemma PlayAndLoopAnimation_same_clip_witness :
  exists w', PlayAndLoopAnimation "Fire" 2 demo_playing = Ok (tt, w') /\
    _currentAnimation (w_self w') = Some 0%nat /\
    _currentAnimationTime (w_self w') = _currentAnimationTime (w_self demo_playing) /\
    _animationPaused (w_self w') = _animationPaused (w_self demo_playing) /\
    _loopAnimation (w_self w') = true /\ _animationIsComplete (w_self w') = false /\
    _animationSpeed (w_self w') = 2.
Proof.
  apply (PlayAndLoopAnimation_same_clip _ glock_model); [ready_tac | reflexivity | reflexivity].
Defined.

Lemma PlayAndLoopAnimation_new_clip_witness :
  exists w', PlayAndLoopAnimation "Idle" 1 demo_playing = Ok (tt, w') /\
    _currentAnimation (w_self w') = Some 1%nat /\ _currentAnimationTime (w_self w') = 0 /\
    _animationPaused (w_self w') = false /\ _loopAnimation (w_self w') = true /\
    _animationIsComplete (w_self w') = false /\ _animationSpeed (w_self w') = 1.
Proof.
  apply (PlayAndLoopAnimation_new_clip _ glock_model); [ready_tac | reflexivity | discriminate].
Defined.

Lemma Play_not_found_witness :
  PlayAnimation "Reload" 1 demo_world =
    Ok (tt, {| demo_world with w_cout := w_cout demo_world ++ [not_found_line "Reload"] |}) /\
  PlayAndLoopAnimation "Reload" 1 demo_world =
    Ok (tt, {| demo_world with w_cout := w_cout demo_world ++ [not_found_line "Reload"] |}).
Proof. apply (Play_not_found _ glock_model); [ready_tac | reflexivity]. Defined.

Lemma Play_null_model_witness :
  let w := {| demo_world with w_self := AnimatedGameObject_default |} in
  PlayAndLoopAnimation "Fire" 1 w = Ok (tt, w) /\ PlayAnimation "Fire" 1 w = Fault NullDeref.
Proof. apply Play_null_model. reflexivity. Defined.

Lemma PlayAndLoop_after_completion_stuck_witness :
  exists w', PlayAndLoopAnimation "Fire" 1 demo_completed = Ok (tt, w') /\
    _loopAnimation (w_self w') = true /\ _animationPaused (w_self w') = true /\
    UpdateAnimation_seq [1; 1; 1] w' = Ok (tt, w').
Proof.
  apply (PlayAndLoop_after_completion_stuck _ glock_model _ _ 0%nat clip_fire);
    [ready_tac | reflexivity | reflexivity | vm_compute; discriminate
    | vm_compute; discriminate | reflexivity | vm_compute; reflexivity
    | vm_compute; reflexivity | vm_compute; reflexivity].
Defined.

Lemma UpdateAnimation_time_bound_witness :
  exists w', UpdateAnimation 5 demo_playing = Ok (tt, w') /\
    _currentAnimationTime (w_self w') <= m_duration clip_fire / m_ticksPerSecond clip_fire.
Proof.
  apply (UpdateAnimation_time_bound _ 0%nat); [reflexivity | reflexivity | simpl; lra | simpl; lra].
Defined.

Lemma AnimationIsPastPercentage_seconds_witness :
  AnimationIsPastPercentage 50 demo_playing =
  Ok (Qgtb (_currentAnimationTime (w_self demo_playing))
           (m_duration clip_fire / m_ticksPerSecond clip_fire * (50 / 100)), demo_playing).
Proof.
  apply (AnimationIsPastPercentage_seconds _ 0%nat); [reflexivity | reflexivity | simpl; lra].
Defined.

Lemma UpdateAnimation_seq_completes_witness :
  let n := S (Z.to_nat (Qceiling ((m_duration clip_fire / m_ticksPerSecond clip_fire -
                                   _currentAnimationTime (w_self demo_playing)) /
                                  ((1#2) * _animationSpeed (w_self demo_playing))))) in
  exists w', UpdateAnimation_seq (repeat (1#2) n) demo_playing = Ok (tt, w') /\
    IsAnimationComplete w' = Ok (true, w') /\
    _animationPaused (w_self w') = true /\ _currentAnimationTime (w_self w') = 0.
Proof.
  apply (UpdateAnimation_seq_completes demo_playing 0%nat clip_fire (1#2));
    first [reflexivity | vm_compute; reflexivity | vm_compute; intros [=]].
Defined.
