(* ===== verification/Pose.v ===== *)
(** * Pose evaluation: [CalculateBoneTransforms] and [Update]

    [CalculateBoneTransforms] samples the skeleton twice through the
    [BoneSampler] interface: into [_animatedTransforms] at the current time
    when motion blur is on and at the previous time otherwise, then into
    [_animatedTransformsPrevious] at the previous time. Both calls pass
    [_cameraMatrix] by reference, so the second call sees what the first
    wrote. [Update] ticks the state machine and re-samples, and does
    nothing while no clip is selected.

    The theorems are proved against the interface (any sampler meeting the
    contract of [Assets.BoneSampler]); [demo_sampler] is one such sampler,
    used by the witnesses. *)

From S2P Require Import Prelude CppStd Glm Assets GameObject Playback.

Section Pose.
Context `{BoneSampler}.

(** lines 134-144 *)
Definition CalculateBoneTransforms : Method unit :=
  m <- this_skinnedModel;;
  o <- this;;
  A <- assets;;
  a <- deref_ptr (g_animations A) (_currentAnimation o);;
  let t := if _motionBlur o then _currentAnimationTime o
           else _currentAnimationTimePrevious o in
  let r1 := UpdateBoneTransformsFromAnimation m t a
              (_animatedTransforms o) (_cameraMatrix o) in
  update_this (fun o => {| o with _animatedTransforms := r1.1; _cameraMatrix := r1.2 |});;
  o2 <- this;;
  let r2 := UpdateBoneTransformsFromAnimation m (_currentAnimationTimePrevious o2) a
              (_animatedTransformsPrevious o2) (_cameraMatrix o2) in
  update_this (fun o => {| o with _animatedTransformsPrevious := r2.1;
                                  _cameraMatrix := r2.2 |}).

(** lines 9-15 *)
Definition Update (deltaTime : Q) : Method unit :=
  o <- this;;
  match _currentAnimation o with
  | None => ret tt
  | Some _ => UpdateAnimation deltaTime;; CalculateBoneTransforms
  end.

(** the object after [CalculateBoneTransforms] with model [m] and clip [a] *)
Definition sampled (m : SkinnedModel) (a : Animation) (o : AnimatedGameObject)
  : AnimatedGameObject :=
  let t := if _motionBlur o then _currentAnimationTime o
           else _currentAnimationTimePrevious o in
  let r1 := UpdateBoneTransformsFromAnimation m t a
              (_animatedTransforms o) (_cameraMatrix o) in
  let r2 := UpdateBoneTransformsFromAnimation m (_currentAnimationTimePrevious o) a
              (_animatedTransformsPrevious o) r1.2 in
  {| o with _animatedTransforms := r1.1; _animatedTransformsPrevious := r2.1;
            _cameraMatrix := r2.2 |}.

(** the pose the sampler writes at time [t], whatever the buffers held *)
Definition pose_at (m : SkinnedModel) (t : Q) (a : Animation) : AnimatedTransforms :=
  (UpdateBoneTransformsFromAnimation m t a AnimatedTransforms_empty mat_id).1.

(** [this]'s model and clip are live *)
Definition clip_ready (w : World) (m : SkinnedModel) (a : Animation) : Prop :=
  exists pm pa, _skinnedModel (w_self w) = Some pm /\
    g_skinnedModels (w_assets w) !! pm = Some m /\
    _currentAnimation (w_self w) = Some pa /\ g_animations (w_assets w) !! pa = Some a.

Lemma pose_at_fresh m t a buf c :
  (UpdateBoneTransformsFromAnimation m t a buf c).1 = pose_at m t a.
Proof. apply sampler_fresh. Qed.

Lemma CalculateBoneTransforms_run w m a :
  clip_ready w m a ->
  CalculateBoneTransforms w = Ok (tt, {| w with w_self := sampled m a (w_self w) |}).
Proof.
  intros (pm & pa & Hm & Hlm & Ha & Hla). unfold CalculateBoneTransforms.
  rewrite (bind_Ok _ _ _ _ _ (this_skinnedModel_run w pm m Hm Hlm)).
  cbv [bind this assets get ret deref_ptr deref fault update_this modify].
  rewrite Ha, Hla. cbn. by destruct w.
Qed.

Lemma clip_ready_advance w m a d dt :
  clip_ready w m a ->
  clip_ready {| w with w_self := advance d dt (w_self w) |} m a.
Proof.
  intros (pm & pa & ? & ? & ? & ?). exists pm, pa. cbn.
  rewrite advance_currentAnimation. split_and!; try done.
  by advance_cases.
Qed.

Lemma Update_run w m a pa dt :
  clip_ready w m a -> _currentAnimation (w_self w) = Some pa ->
  Update dt w =
  Ok (tt, {| w with w_self := sampled m a (advance (clip_duration a) dt (w_self w)) |}).
Proof.
  intros Hr Hpa. pose proof Hr as (pm & pa' & _ & _ & Ha & Hla).
  rewrite Hpa in Ha. injection Ha as <-.
  unfold Update. rewrite (bind_Ok _ _ _ _ _ (this_run w)), Hpa.
  rewrite (bind_Ok _ _ _ _ _ (UpdateAnimation_run w pa a dt Hpa Hla)).
  rewrite (CalculateBoneTransforms_run _ m a) by by apply clip_ready_advance.
  done.
Qed.

(** ** Properties *)

(** C16. With motion blur off, the current and the previous pose are the
    same sample: both are the pose at the previous time. *)
Theorem CalculateBoneTransforms_no_blur w m a :
  clip_ready w m a -> _motionBlur (w_self w) = false ->
  exists w', CalculateBoneTransforms w = Ok (tt, w') /\
    _animatedTransforms (w_self w') = _animatedTransformsPrevious (w_self w') /\
    _animatedTransformsPrevious (w_self w') =
      pose_at m (_currentAnimationTimePrevious (w_self w)) a.
Proof.
  intros Hr Hb. rewrite (CalculateBoneTransforms_run w m a Hr).
  eexists. split; [reflexivity|]. cbn. rewrite Hb, !pose_at_fresh. done.
Qed.

(** C17. With motion blur on, the current pose is sampled at the current
    time and the previous pose at the previous time. *)
Theorem CalculateBoneTransforms_blur w m a :
  clip_ready w m a -> _motionBlur (w_self w) = true ->
  exists w', CalculateBoneTransforms w = Ok (tt, w') /\
    _animatedTransforms (w_self w') = pose_at m (_currentAnimationTime (w_self w)) a /\
    _animatedTransformsPrevious (w_self w') =
      pose_at m (_currentAnimationTimePrevious (w_self w)) a.
Proof.
  intros Hr Hb. rewrite (CalculateBoneTransforms_run w m a Hr).
  eexists. split; [reflexivity|]. cbn. rewrite Hb, !pose_at_fresh. done.
Qed.

(** [Update] with no clip selected changes nothing (it is not a
    fault: a fresh object ticks silently). *)
Theorem Update_no_clip w dt :
  _currentAnimation (w_self w) = None -> Update dt w = Ok (tt, w).
Proof.
  intros Hn. unfold Update. rewrite (bind_Ok _ _ _ _ _ (this_run w)), Hn. done.
Qed.

(** C19. [Update] with a clip ticks the clock first and then samples: the
    previous pose is the pose at the new previous time, and the playback
    state is the one [advance] computes; both buffers hold one matrix per
    bone afterwards. *)
Theorem Update_ticks_then_samples w m a pa dt :
  clip_ready w m a -> _currentAnimation (w_self w) = Some pa ->
  exists w', Update dt w = Ok (tt, w') /\
    let o' := advance (clip_duration a) dt (w_self w) in
    _currentAnimationTime (w_self w') = _currentAnimationTime o' /\
    _currentAnimationTimePrevious (w_self w') = _currentAnimationTimePrevious o' /\
    _animationPaused (w_self w') = _animationPaused o' /\
    _animationIsComplete (w_self w') = _animationIsComplete o' /\
    _animatedTransformsPrevious (w_self w') = pose_at m (_currentAnimationTimePrevious o') a /\
    length (worldspace (_animatedTransforms (w_self w'))) = m_NumBones m /\
    length (worldspace (_animatedTransformsPrevious (w_self w'))) = m_NumBones m.
Proof.
  intros Hr Hpa. rewrite (Update_run w m a pa dt Hr Hpa).
  eexists. split; [reflexivity|]. cbn -[advance].
  rewrite !sampler_bones, pose_at_fresh. done.
Qed.

End Pose.

(** ** A sampler meeting the contract, for the witnesses

    Every bone is translated along x by the sample time; the camera matrix
    is left as it was. *)
Definition demo_pose (m : SkinnedModel) (t : Q) : AnimatedTransforms :=
  let b := replicate (m_NumBones m) (translate_mat (Vec3 t 0 0)) in
  {| local := b; worldspace := b |}.

#[export] Program Instance demo_sampler : BoneSampler := {|
  UpdateBoneTransformsFromAnimation m t a buf c := (demo_pose m t, c)
|}.
Next Obligation. intros. simpl. apply length_replicate. Qed.

Definition demo_blur_world : World :=
  let o := w_self demo_playing in
  {| w_assets := demo_assets;
     w_self := {| o with _motionBlur := true;
                  _currentAnimationTime := 1; _currentAnimationTimePrevious := 1#2 |};
     w_cout := [] |}.

Ltac clip_ready_tac := do 2 eexists; split_and!; reflexivity.

Lemma CalculateBoneTransforms_no_blur_witness :
  exists w', CalculateBoneTransforms demo_playing = Ok (tt, w') /\
    _animatedTransforms (w_self w') = _animatedTransformsPrevious (w_self w') /\
    _animatedTransformsPrevious (w_self w') =
      pose_at glock_model (_currentAnimationTimePrevious (w_self demo_playing)) clip_fire.
Proof. apply CalculateBoneTransforms_no_blur; [clip_ready_tac | reflexivity]. Defined.

Lemma CalculateBoneTransforms_blur_witness :
  exists w', CalculateBoneTransforms demo_blur_world = Ok (tt, w') /\
    _animatedTransforms (w_self w') =
      pose_at glock_model (_currentAnimationTime (w_self demo_blur_world)) clip_fire /\
    _animatedTransformsPrevious (w_self w') =
      pose_at glock_model (_currentAnimationTimePrevious (w_self demo_blur_world)) clip_fire.
Proof. apply CalculateBoneTransforms_blur; [clip_ready_tac | reflexivity]. Defined.

Lemma Update_no_clip_witness : Update 1 demo_world = Ok (tt, demo_world).
Proof. apply Update_no_clip. reflexivity. Defined.

Lemma Update_ticks_then_samples_witness :
  exists w', Update (1#2) demo_playing = Ok (tt, w') /\
    let o' := advance (clip_duration clip_fire) (1#2) (w_self demo_playing) in
    _currentAnimationTime (w_self w') = _currentAnimationTime o' /\
    _currentAnimationTimePrevious (w_self w') = _currentAnimationTimePrevious o' /\
    _animationPaused (w_self w') = _animationPaused o' /\
    _animationIsComplete (w_self w') = _animationIsComplete o' /\
    _animatedTransformsPrevious (w_self w') =
      pose_at glock_model (_currentAnimationTimePrevious o') clip_fire /\
    length (worldspace (_animatedTransforms (w_self w'))) = m_NumBones glock_model /\
    length (worldspace (_animatedTransformsPrevious (w_self w'))) = m_NumBones glock_model.
Proof. apply (Update_ticks_then_samples _ _ _ 0%nat); [clip_ready_tac | reflexivity]. Defined.
