(* ===== verification/Materials.v ===== *)
(** * Material bindings: [SetSkinnedModel], [SetMeshMaterial],
      [SetMeshMaterialByIndex], [SetMaterial]

    [_materialIndices] is a [std::vector<int>] with one entry per mesh of
    the skinned model. [SetSkinnedModel] resizes it to the new model's
    mesh count; the two loops write [_materialIndices[i]] for mesh indices
    [i] of the model with no bounds check, so they are in range only while
    the table has the model's size. That is the invariant [materials_sized]:
    established by [SetSkinnedModel], preserved by every material method
    (and untouched by the playback methods), it makes both loops succeed,
    and the theorems give the exact table each method produces. Each mesh
    loop is also equivalent to the sequence of [SetMeshMaterialByIndex]
    calls at the indices it selects ([by_index_seq]). *)

From S2P Require Import Prelude CppStd Glm Assets GameObject.

(** the double-quote character of the diagnostic *)
Definition dquote : string := String (Ascii.ascii_of_nat 34) EmptyString.
Definition newline : string := String (Ascii.ascii_of_nat 10) EmptyString.

(** lines 173-182 *)
Definition SetSkinnedModel (name : string) : Method unit :=
  A <- assets;;
  match GetSkinnedModel A name with
  | Some p =>
      m <- deref_ptr (g_skinnedModels A) (Some p);;
      update_this (fun o => {| o with _skinnedModel := Some p;
        _materialIndices := vec_resize (length (m_meshEntries m)) 0%Z (_materialIndices o) |})
  | None =>
      cout ("Could not SetSkinnedModel(name) with name: " +:+ dquote +:+ name +:+ dquote
            +:+ ", it does not exist" +:+ newline)
  end.

(** [_materialIndices[i] = v], undefined out of range *)
Definition set_material_index (i : nat) (v : Z) : Method unit :=
  o <- this;;
  match vec_write (_materialIndices o) i v with
  | Some l => update_this (fun o => {| o with _materialIndices := l |})
  | None => fault IndexOutOfRange
  end.

(** the body of the mesh loops: if the mesh is selected, bind it to the
    material's index *)
Definition material_body (sel : MeshEntry -> bool) (materialName : string)
  (i : nat) (mesh : MeshEntry) : Method unit :=
  if sel mesh then (A <- assets;; set_material_index i (GetMaterialIndex A materialName))
  else ret tt.

(** lines 65-76: every mesh of that name (the early return is commented
    out) *)
Definition SetMeshMaterial (meshName materialName : string) : Method unit :=
  o <- this;;
  match _skinnedModel o with
  | None => ret tt
  | Some _ =>
      m <- this_skinnedModel;;
      for_each_idx 0 (m_meshEntries m)
        (material_body (fun mesh => bool_decide (Name mesh = meshName)) materialName)
  end.

(** lines 78-85 *)
Definition SetMeshMaterialByIndex (meshIndex : Z) (materialName : string) : Method unit :=
  o <- this;;
  match _skinnedModel o with
  | None => ret tt
  | Some _ =>
      if decide (0 <= meshIndex /\ meshIndex < Z.of_nat (length (_materialIndices o)))%Z
      then A <- assets;; set_material_index (Z.to_nat meshIndex) (GetMaterialIndex A materialName)
      else ret tt
  end.

(** lines 87-95 *)
Definition SetMaterial (materialName : string) : Method unit :=
  o <- this;;
  match _skinnedModel o with
  | None => ret tt
  | Some _ =>
      m <- this_skinnedModel;;
      for_each_idx 0 (m_meshEntries m) (material_body (fun _ => true) materialName)
  end.

(** the table has one entry per mesh of the object's model *)
Definition materials_sized (w : World) : Prop :=
  forall p, _skinnedModel (w_self w) = Some p ->
  exists m, g_skinnedModels (w_assets w) !! p = Some m /\
            length (_materialIndices (w_self w)) = length (m_meshEntries m).

(** the table a mesh loop produces *)
Definition bind_selected (sel : MeshEntry -> bool) (v : Z) (meshes : list MeshEntry)
  (table : list Z) : list Z :=
  zip_with (fun mesh x => if sel mesh then v else x) meshes table.

(** ** Running the methods *)

Definition with_table (w : World) (l : list Z) : World :=
  let o := w_self w in {| w with w_self := {| o with _materialIndices := l |} |}.

Lemma set_material_index_run w i v :
  (i < length (_materialIndices (w_self w)))%nat ->
  set_material_index i v w = Ok (tt, with_table w (<[i:=v]> (_materialIndices (w_self w)))).
Proof.
  intros Hi. unfold set_material_index.
  rewrite (bind_Ok _ _ _ _ _ (this_run w)), vec_write_in by done. done.
Qed.

Lemma set_material_index_out w i v :
  (length (_materialIndices (w_self w)) <= i)%nat ->
  set_material_index i v w = Fault IndexOutOfRange.
Proof.
  intros Hi. unfold set_material_index.
  rewrite (bind_Ok _ _ _ _ _ (this_run w)), vec_write_out by done. done.
Qed.

Lemma with_table_self w l :
  _materialIndices (w_self (with_table w l)) = l.
Proof. done. Qed.

Lemma with_table_twice w l1 l2 : with_table (with_table w l1) l2 = with_table w l2.
Proof. done. Qed.

Lemma assets_run w : assets w = Ok (w_assets w, w).
Proof. reflexivity. Qed.

(** the loop over the meshes from index [length pre], on a table
    [pre ++ post] with one entry of [post] per remaining mesh *)
Lemma mesh_loop_run sel materialName meshes w pre post :
  _materialIndices (w_self w) = pre ++ post -> length post = length meshes ->
  for_each_idx (length pre) meshes (material_body sel materialName) w =
  Ok (tt, with_table w (pre ++ bind_selected sel
                          (GetMaterialIndex (w_assets w) materialName) meshes post)).
Proof.
  revert w pre post. induction meshes as [|mesh meshes IH]; intros w pre post Ht Hl.
  - destruct post; [|done]. cbn. rewrite app_nil_r in Ht. rewrite app_nil_r, <- Ht. by destruct w as [? [] ?].
  - destruct post as [|x post]; [done|]. simpl in Hl.
    cbn [for_each_idx]. unfold material_body.
    destruct (sel mesh) eqn:Hs.
    + rewrite bind_assoc, (bind_Ok _ _ _ _ _ (assets_run w)).
      assert (Hi : (length pre < length (_materialIndices (w_self w)))%nat)
        by (rewrite Ht, length_app; simpl; lia).
      rewrite (bind_Ok _ _ _ _ _ (set_material_index_run w _ _ Hi)).
      rewrite Ht, insert_app_r_alt, Nat.sub_diag by lia. cbn.
      replace (S (length pre)) with (length (pre ++ [GetMaterialIndex (w_assets w) materialName]))
        by (rewrite length_app; simpl; lia).
      rewrite (IH _ _ post); [| by rewrite with_table_self, <- app_assoc | lia].
      cbn. rewrite Hs, <- app_assoc. done.
    + rewrite bind_ret_l.
      replace (S (length pre)) with (length (pre ++ [x])) by (rewrite length_app; simpl; lia).
      rewrite (IH _ _ post); [| by rewrite Ht, <- app_assoc | lia].
      cbn. rewrite Hs, <- app_assoc. done.
Qed.

Lemma mesh_loop_full sel materialName meshes w :
  length (_materialIndices (w_self w)) = length meshes ->
  for_each_idx 0 meshes (material_body sel materialName) w =
  Ok (tt, with_table w (bind_selected sel (GetMaterialIndex (w_assets w) materialName)
                          meshes (_materialIndices (w_self w)))).
Proof. intros Hl. by apply (mesh_loop_run _ _ _ _ [] _). Qed.

Lemma length_bind_selected sel v meshes table :
  length table = length meshes -> length (bind_selected sel v meshes table) = length meshes.
Proof. intros H. unfold bind_selected. rewrite length_zip_with. lia. Qed.

Lemma lookup_bind_selected sel v meshes table i mesh :
  length table = length meshes -> meshes !! i = Some mesh ->
  bind_selected sel v meshes table !! i = if sel mesh then Some v else table !! i.
Proof.
  intros Hl Hm. unfold bind_selected. rewrite lookup_zip_with, Hm. simpl.
  destruct (table !! i) eqn:E.
  - simpl. by destruct (sel mesh).
  - apply lookup_ge_None in E. apply lookup_lt_Some in Hm. lia.
Qed.

(** the object's model is [m] at a live pointer, and the table is sized *)
Definition sized_model (w : World) (m : SkinnedModel) : Prop :=
  exists p, _skinnedModel (w_self w) = Some p /\ g_skinnedModels (w_assets w) !! p = Some m /\
            length (_materialIndices (w_self w)) = length (m_meshEntries m).

Lemma sized_model_sized w m : sized_model w m -> materials_sized w.
Proof. intros (p & Hp & Hm & Hl) p' Hp'. rewrite Hp in Hp'. injection Hp' as <-. eauto. Qed.

Lemma materials_sized_with_table w l m :
  sized_model w m -> length l = length (m_meshEntries m) -> materials_sized (with_table w l).
Proof.
  intros (p & Hp & Hm & _) Hl p' Hp'. cbn in Hp'. rewrite Hp in Hp'. injection Hp' as <-.
  exists m. split; [done|]. by rewrite with_table_self.
Qed.

(** rewriting the table with one of the same length keeps it sized *)
Lemma sized_model_with_table w l m :
  sized_model w m -> length l = length (m_meshEntries m) -> sized_model (with_table w l) m.
Proof. intros (p & Hp & Hm & _) Hl. exists p. by rewrite with_table_self. Qed.

Lemma SetMeshMaterial_run w m meshName materialName :
  sized_model w m ->
  SetMeshMaterial meshName materialName w =
  Ok (tt, with_table w (bind_selected (fun mesh => bool_decide (Name mesh = meshName))
           (GetMaterialIndex (w_assets w) materialName) (m_meshEntries m)
           (_materialIndices (w_self w)))).
Proof.
  intros (p & Hp & Hm & Hl). unfold SetMeshMaterial.
  rewrite (bind_Ok _ _ _ _ _ (this_run w)), Hp.
  rewrite (bind_Ok _ _ _ _ _ (this_skinnedModel_run w p m Hp Hm)).
  by apply mesh_loop_full.
Qed.

Lemma SetMaterial_run w m materialName :
  sized_model w m ->
  SetMaterial materialName w =
  Ok (tt, with_table w (bind_selected (fun _ => true)
           (GetMaterialIndex (w_assets w) materialName) (m_meshEntries m)
           (_materialIndices (w_self w)))).
Proof.
  intros (p & Hp & Hm & Hl). unfold SetMaterial.
  rewrite (bind_Ok _ _ _ _ _ (this_run w)), Hp.
  rewrite (bind_Ok _ _ _ _ _ (this_skinnedModel_run w p m Hp Hm)).
  by apply mesh_loop_full.
Qed.

Lemma bind_selected_all v meshes table :
  length table = length meshes ->
  bind_selected (fun _ => true) v meshes table = replicate (length meshes) v.
Proof.
  revert table. induction meshes as [|m ms IH]; intros [|x t] Hl; try done.
  simpl in *. f_equal. apply IH. lia.
Qed.

Lemma SetMeshMaterialByIndex_run w meshIndex materialName :
  is_Some (_skinnedModel (w_self w)) ->
  SetMeshMaterialByIndex meshIndex materialName w =
  if decide (0 <= meshIndex /\ meshIndex < Z.of_nat (length (_materialIndices (w_self w))))%Z
  then Ok (tt, with_table w (<[Z.to_nat meshIndex := GetMaterialIndex (w_assets w) materialName]>
                              (_materialIndices (w_self w))))
  else Ok (tt, w).
Proof.
  intros [p Hp]. unfold SetMeshMaterialByIndex.
  rewrite (bind_Ok _ _ _ _ _ (this_run w)), Hp.
  case_decide as Hr; [|done].
  rewrite (bind_Ok _ _ _ _ _ (assets_run w)). apply set_material_index_run. lia.
Qed.

(** ** The loops as sequences of indexed writes

    [by_index_seq ixs] calls [SetMeshMaterialByIndex] on each index of
    [ixs] in order; [selected_from sel i meshes] lists the indices, from
    [i], of the meshes [sel] selects. *)

Fixpoint by_index_seq (ixs : list nat) (materialName : string) : Method unit :=
  match ixs with
  | [] => ret tt
  | i :: ixs' => SetMeshMaterialByIndex (Z.of_nat i) materialName;; by_index_seq ixs' materialName
  end.

Fixpoint selected_from (sel : MeshEntry -> bool) (i : nat) (meshes : list MeshEntry) : list nat :=
  match meshes with
  | [] => []
  | mesh :: meshes' =>
      if sel mesh then i :: selected_from sel (S i) meshes' else selected_from sel (S i) meshes'
  end.

Lemma selected_from_all i meshes : selected_from (fun _ => true) i meshes = seq i (length meshes).
Proof. revert i. induction meshes as [|m ms IH]; intros i; [done|]. simpl. by rewrite IH. Qed.

(** the loop from index [i] over the remaining meshes is the sequence of
    indexed writes at the selected indices *)
Lemma mesh_loop_by_index sel materialName meshes i w :
  is_Some (_skinnedModel (w_self w)) ->
  length (_materialIndices (w_self w)) = (i + length meshes)%nat ->
  for_each_idx i meshes (material_body sel materialName) w =
  by_index_seq (selected_from sel i meshes) materialName w.
Proof.
  revert i w. induction meshes as [|mesh meshes IH]; intros i w Hm Hl; [done|].
  cbn [for_each_idx selected_from]. unfold material_body.
  destruct (sel mesh); cbn [by_index_seq].
  - rewrite bind_assoc, (bind_Ok _ _ _ _ _ (assets_run w)).
    assert (Hi : (i < length (_materialIndices (w_self w)))%nat) by (simpl in Hl; lia).
    rewrite (bind_Ok _ _ _ _ _ (set_material_index_run w _ _ Hi)).
    rewrite (bind_Ok (SetMeshMaterialByIndex _ _) _ w tt
               (with_table w (<[i := GetMaterialIndex (w_assets w) materialName]>
                              (_materialIndices (w_self w))))).
    + apply IH; [done|]. rewrite with_table_self, length_insert. simpl in Hl. lia.
    + rewrite SetMeshMaterialByIndex_run by done. rewrite decide_True by lia.
      by rewrite Nat2Z.id.
  - rewrite bind_ret_l. apply IH; [done|]. simpl in Hl. lia.
Qed.

(** ** Properties *)

(** C20. [SetSkinnedModel] of a registered model points the object at it
    and resizes the table to its mesh count, keeping the existing entries
    and filling new ones with 0; the table is then sized for the model. *)
Theorem SetSkinnedModel_found w name p m :
  GetSkinnedModel (w_assets w) name = Some p -> g_skinnedModels (w_assets w) !! p = Some m ->
  exists w', SetSkinnedModel name w = Ok (tt, w') /\
    _skinnedModel (w_self w') = Some p /\ sized_model w' m /\
    forall i, (i < length (m_meshEntries m))%nat ->
      _materialIndices (w_self w') !! i =
      Some (default 0%Z (_materialIndices (w_self w) !! i)).
Proof.
  intros Hg Hm. unfold SetSkinnedModel.
  rewrite (bind_Ok _ _ _ _ _ (assets_run w)), Hg. cbv [bind deref_ptr deref ret].
  rewrite Hm. eexists. split; [reflexivity|]. cbn.
  split; [done|]. split.
  - exists p. cbn. split_and!; [done | done | apply length_vec_resize].
  - intros i Hi. destruct (decide (i < length (_materialIndices (w_self w))))%nat.
    + rewrite vec_resize_keep by done.
      by destruct (lookup_lt_is_Some_2 (_materialIndices (w_self w)) i) as [x ->].
    + rewrite vec_resize_fill by lia. by rewrite (proj2 (lookup_ge_None _ _)) by lia.
Qed.

(** C21. [SetSkinnedModel] of an unknown name keeps the model and the
    table and prints one diagnostic line. *)
Theorem SetSkinnedModel_not_found w name :
  GetSkinnedModel (w_assets w) name = None ->
  SetSkinnedModel name w =
  Ok (tt, {| w with w_cout := w_cout w ++
    ["Could not SetSkinnedModel(name) with name: " +:+ dquote +:+ name +:+ dquote
     +:+ ", it does not exist" +:+ newline] |}).
Proof.
  intros Hg. unfold SetSkinnedModel. by rewrite (bind_Ok _ _ _ _ _ (assets_run w)), Hg.
Qed.

(** C22. On a sized table, [SetMeshMaterial] writes in range and binds
    every mesh of that name (not only the first) to the material's index;
    the entries of the other meshes are unchanged. *)
Theorem SetMeshMaterial_binds_matching w m meshName materialName :
  sized_model w m ->
  exists w', SetMeshMaterial meshName materialName w = Ok (tt, w') /\
    sized_model w' m /\
    forall i mesh, m_meshEntries m !! i = Some mesh ->
      _materialIndices (w_self w') !! i =
      if decide (Name mesh = meshName)
      then Some (GetMaterialIndex (w_assets w) materialName)
      else _materialIndices (w_self w) !! i.
Proof.
  intros Hs. rewrite (SetMeshMaterial_run w m _ _ Hs).
  pose proof Hs as (p & Hp & Hm & Hl).
  eexists. split; [reflexivity|]. split.
  - apply sized_model_with_table, length_bind_selected; done.
  - intros i mesh Hi. rewrite with_table_self, (lookup_bind_selected _ _ _ _ _ mesh) by done.
    by case_bool_decide; case_decide.
Qed.

(** C23. [SetMeshMaterialByIndex] writes exactly the entry [meshIndex] when
    [0 <= meshIndex < size] and otherwise changes nothing. *)
Theorem SetMeshMaterialByIndex_bounds w p meshIndex materialName :
  _skinnedModel (w_self w) = Some p ->
  ((0 <= meshIndex < Z.of_nat (length (_materialIndices (w_self w))))%Z ->
   SetMeshMaterialByIndex meshIndex materialName w =
   Ok (tt, with_table w (<[Z.to_nat meshIndex := GetMaterialIndex (w_assets w) materialName]>
                         (_materialIndices (w_self w))))) /\
  (~ (0 <= meshIndex < Z.of_nat (length (_materialIndices (w_self w))))%Z ->
   SetMeshMaterialByIndex meshIndex materialName w = Ok (tt, w)).
Proof.
  intros Hp. rewrite SetMeshMaterialByIndex_run by (rewrite Hp; eauto).
  split; intros H; [by rewrite decide_True | by rewrite decide_False].
Qed.

(** C24. On a sized table, [SetMaterial] binds every mesh to the
    material's index. *)
Theorem SetMaterial_all w m materialName :
  sized_model w m ->
  exists w', SetMaterial materialName w = Ok (tt, w') /\
    _materialIndices (w_self w') =
      replicate (length (m_meshEntries m)) (GetMaterialIndex (w_assets w) materialName).
Proof.
  intros Hs. rewrite (SetMaterial_run w m _ Hs).
  pose proof Hs as (p & Hp & Hm & Hl).
  eexists. split; [reflexivity|]. rewrite with_table_self. by apply bind_selected_all.
Qed.

(** C25. The table stays sized for the model: from a sized world, each of
    [SetMeshMaterial], [SetMeshMaterialByIndex] and [SetMaterial] succeeds
    and leaves it sized. *)
Theorem material_methods_preserve_sized w m meshName materialName meshIndex :
  sized_model w m ->
  (exists w', SetMeshMaterial meshName materialName w = Ok (tt, w') /\ sized_model w' m) /\
  (exists w', SetMeshMaterialByIndex meshIndex materialName w = Ok (tt, w') /\ sized_model w' m) /\
  (exists w', SetMaterial materialName w = Ok (tt, w') /\ sized_model w' m).
Proof.
  intros Hs. pose proof Hs as (p & Hp & Hm & Hl). split_and!.
  - rewrite (SetMeshMaterial_run w m _ _ Hs). eexists. split; [reflexivity|].
    apply sized_model_with_table, length_bind_selected; done.
  - rewrite SetMeshMaterialByIndex_run by (rewrite Hp; eauto). case_decide; [|by eauto].
    eexists. split; [reflexivity|].
    apply sized_model_with_table; [done|]. by rewrite length_insert.
  - rewrite (SetMaterial_run w m _ Hs). eexists. split; [reflexivity|].
    apply sized_model_with_table, length_bind_selected; done.
Qed.

(** C38. Equivalence of the two mesh loops with the indexed setter: on a
    table sized for the model, [SetMeshMaterial] is the sequence of
    [SetMeshMaterialByIndex] calls at the indices of the meshes of that
    name, in increasing order, and [SetMaterial] the sequence at every
    mesh index. *)
Theorem mesh_loops_by_index w m meshName materialName :
  sized_model w m ->
  SetMeshMaterial meshName materialName w =
    by_index_seq (selected_from (fun mesh => bool_decide (Name mesh = meshName)) 0
                    (m_meshEntries m)) materialName w /\
  SetMaterial materialName w = by_index_seq (seq 0 (length (m_meshEntries m))) materialName w.
Proof.
  intros (p & Hp & Hm & Hl).
  unfold SetMeshMaterial, SetMaterial. rewrite !(bind_Ok _ _ _ _ _ (this_run w)), Hp.
  rewrite !(bind_Ok _ _ _ _ _ (this_skinnedModel_run w p m Hp Hm)).
  rewrite <- selected_from_all. split; apply mesh_loop_by_index; by rewrite ?Hp.
Qed.

(** ** Witnesses on [demo_world] *)

Ltac sized_tac := eexists; split_and!; reflexivity.

Lemma SetSkinnedModel_found_witness :
  exists w', SetSkinnedModel "Glock" demo_world = Ok (tt, w') /\
    _skinnedModel (w_self w') = Some 0%nat /\ sized_model w' glock_model /\
    forall i, (i < length (m_meshEntries glock_model))%nat ->
      _materialIndices (w_self w') !! i =
      Some (default 0%Z (_materialIndices (w_self demo_world) !! i)).
Proof. apply SetSkinnedModel_found; reflexivity. Defined.

Lemma SetSkinnedModel_not_found_witness :
  SetSkinnedModel "Shotgun" demo_world =
  Ok (tt, {| demo_world with w_cout := w_cout demo_world ++
    ["Could not SetSkinnedModel(name) with name: " +:+ dquote +:+ "Shotgun" +:+ dquote
     +:+ ", it does not exist" +:+ newline] |}).
Proof. apply SetSkinnedModel_not_found. reflexivity. Defined.

Lemma SetMeshMaterial_binds_matching_witness :
  exists w', SetMeshMaterial "Slide" "Metal" demo_world = Ok (tt, w') /\
    sized_model w' glock_model /\
    forall i mesh, m_meshEntries glock_model !! i = Some mesh ->
      _materialIndices (w_self w') !! i =
      if decide (Name mesh = "Slide")
      then Some (GetMaterialIndex (w_assets demo_world) "Metal")
      else _materialIndices (w_self demo_world) !! i.
Proof. apply SetMeshMaterial_binds_matching. sized_tac. Defined.

Lemma SetMeshMaterialByIndex_bounds_witness :
  ((0 <= 1 < Z.of_nat (length (_materialIndices (w_self demo_world))))%Z ->
   SetMeshMaterialByIndex 1 "Metal" demo_world =
   Ok (tt, with_table demo_world (<[Z.to_nat 1 := GetMaterialIndex (w_assets demo_world) "Metal"]>
                         (_materialIndices (w_self demo_world))))) /\
  (~ (0 <= 1 < Z.of_nat (length (_materialIndices (w_self demo_world))))%Z ->
   SetMeshMaterialByIndex 1 "Metal" demo_world = Ok (tt, demo_world)).
Proof. apply (SetMeshMaterialByIndex_bounds _ 0%nat). reflexivity. Defined.

Lemma SetMaterial_all_witness :
  exists w', SetMaterial "Gun" demo_world = Ok (tt, w') /\
    _materialIndices (w_self w') =
      replicate (length (m_meshEntries glock_model)) (GetMaterialIndex (w_assets demo_world) "Gun").
Proof. apply SetMaterial_all. sized_tac. Defined.

Lemma material_methods_preserve_sized_witness :
  (exists w', SetMeshMaterial "Body" "Gun" demo_world = Ok (tt, w') /\ sized_model w' glock_model) /\
  (exists w', SetMeshMaterialByIndex 5 "Gun" demo_world = Ok (tt, w') /\ sized_model w' glock_model) /\
  (exists w', SetMaterial "Gun" demo_world = Ok (tt, w') /\ sized_model w' glock_model).
Proof. apply material_methods_preserve_sized. sized_tac. Defined.

Lemma mesh_loops_by_index_witness :
  SetMeshMaterial "Slide" "Metal" demo_world =
    by_index_seq (selected_from (fun mesh => bool_decide (Name mesh = "Slide")) 0
                    (m_meshEntries glock_model)) "Metal" demo_world /\
  SetMaterial "Metal" demo_world =
    by_index_seq (seq 0 (length (m_meshEntries glock_model))) "Metal" demo_world.
Proof. apply mesh_loops_by_index. sized_tac. Defined.
