(* ===== verification/Loops.v ===== *)
(** * The counted loops as the C++ writes them

    Every loop of [AnimatedGameObject.cpp] has the shape
    [for (int i = 0; i < v.size(); i++) { ... v[i] ... }]: a 32-bit signed
    counter, a bound re-read through [_skinnedModel] before every test and
    converted to [size_t] in the comparison, an element read by index, and
    (in the two play methods) a [return] out of the loop at the first
    match. The component files model each loop by structural recursion on
    the vector ([find_animation], [for_each_idx]); this file models the
    loops the way they are written, as [int_for] with fuel, and proves

    - termination: with more fuel than the vector has elements, the loop
      returns (the fuel never runs out), and
    - equivalence: it returns exactly what the structural model returns,
      for each of the four loop methods, whenever the vector has at most
      [INT_MAX] elements;
    - the overflow bound: over a model of more than [INT_MAX] meshes
      with a table sized for it, every iteration of the mesh loops
      continues and [i++] overflows the [int] counter, which is undefined
      behaviour ([SignedOverflow]), where the structural models return.

    Fuel exhaustion is kept apart from the C++ outcomes: a loop with fuel
    is a function into [option (outcome _)], [None] meaning "out of fuel",
    never a behaviour of the code. *)

From S2P Require Import Prelude CppStd Glm Assets GameObject Playback Materials.

Local Open Scope Z_scope.

(** ** The [int] counter *)

Definition INT_MAX : Z := 2 ^ 31 - 1.

(** [i < v.size()] converts the [int] [i] to the 64-bit [size_t] *)
Definition size_t_of_int (i : Z) : Z := i mod 2 ^ 64.

(** ** Computations with fuel *)

Definition FM (St A : Type) : Type := St -> option (outcome (A * St)).

Definition flift {St A} (m : M St A) : FM St A := fun s => Some (m s).

Definition fbind {St A B} (m : FM St A) (k : A -> FM St B) : FM St B :=
  fun s => match m s with
           | Some (Ok (a, s')) => k a s'
           | Some (Fault e) => Some (Fault e)
           | None => None
           end.

(** [for (int i = i0; i < size; i++) { body(i) }]: [size] is evaluated
    before every test, [body] either continues ([None]) or returns from the
    enclosing method ([Some r]) *)
Fixpoint int_for {St R} (fuel : nat) (size : M St Z) (body : Z -> M St (option R))
  (i : Z) : FM St (option R) :=
  match fuel with
  | O => fun _ => None
  | S fuel' => fun s =>
      match size s with
      | Fault e => Some (Fault e)
      | Ok (n, s1) =>
          if decide (size_t_of_int i < n) then
            match body i s1 with
            | Ok (None, s2) =>
                if decide (i = INT_MAX) then Some (Fault SignedOverflow)
                else int_for fuel' size body (i + 1) s2
            | r => Some r
            end
          else Some (Ok (None, s1))
      end
  end.

(** the structural loop over the elements of a list, with early return *)
Fixpoint list_break {St A R} (k : nat) (l : list A) (body : nat -> A -> M St (option R))
  : M St (option R) :=
  match l with
  | [] => ret None
  | x :: l' =>
      r <- body k x;;
      match r with
      | Some _ => ret r
      | None => list_break (S k) l' body
      end
  end.

(** ** The loops of the four methods *)

(** [_skinnedModel->m_animations.size()] *)
Definition animations_size : Method Z :=
  m <- this_skinnedModel;; ret (Z.of_nat (length (m_animations m))).

(** [_skinnedModel->m_meshEntries.size()] *)
Definition meshEntries_size : Method Z :=
  m <- this_skinnedModel;; ret (Z.of_nat (length (m_meshEntries m))).

(** [if (p->_filename == animationName) { act(p); return; }] on the clip
    pointer [p] at index [k] *)
Definition find_body (A : Assets) (animationName : string) (act : AnimationPtr -> Method unit)
  (k : nat) (p : AnimationPtr) : Method (option unit) :=
  a <- deref_ptr (g_animations A) (Some p);;
  if decide (_filename a = animationName) then (act p;; ret (Some tt)) else ret None.

(** lines 30-48 and 101-109: iteration [i] of the clip search, which reads
    [_skinnedModel->m_animations[i]->_filename] *)
Definition play_body (animationName : string) (act : AnimationPtr -> Method unit) (i : Z)
  : Method (option unit) :=
  m <- this_skinnedModel;;
  p <- vec_read (m_animations m) (Z.to_nat i);;
  A <- assets;;
  find_body A animationName act (Z.to_nat i) p.

(** after the search loop: [return] if it returned, else the diagnostic *)
Definition after_search (animationName : string) (r : option unit) : Method unit :=
  match r with
  | Some _ => ret tt
  | None => cout (animationName +:+ " not found!" +:+ endl)
  end.

(** lines 21-52 with the loop as written *)
Definition PlayAndLoopAnimation_for (fuel : nat) (animationName : string) (speed : Q)
  : FM World unit :=
  fbind (flift this) (fun o =>
  match _skinnedModel o with
  | None => flift (ret tt)
  | Some _ =>
      fbind (int_for fuel animations_size
               (play_body animationName (fun p => update_this (select_looping p speed))) 0)
        (fun r => flift (after_search animationName r))
  end).

(** lines 97-113 with the loop as written: the first [size()] dereferences
    [_skinnedModel] unchecked *)
Definition PlayAnimation_for (fuel : nat) (animationName : string) (speed : Q)
  : FM World unit :=
  fbind (int_for fuel animations_size
           (play_body animationName (fun p => update_this (select_once p speed))) 0)
    (fun r => flift (after_search animationName r)).

(** lines 69-75 and 91-94: iteration [i] of a mesh loop, which binds
    [auto& mesh = _skinnedModel->m_meshEntries[i]] *)
Definition mesh_body (sel : MeshEntry -> bool) (materialName : string) (i : Z)
  : Method (option unit) :=
  m <- this_skinnedModel;;
  mesh <- vec_read (m_meshEntries m) (Z.to_nat i);;
  material_body sel materialName (Z.to_nat i) mesh;;
  ret None.

(** lines 65-76 with the loop as written *)
Definition SetMeshMaterial_for (fuel : nat) (meshName materialName : string) : FM World unit :=
  fbind (flift this) (fun o =>
  match _skinnedModel o with
  | None => flift (ret tt)
  | Some _ =>
      fbind (int_for fuel meshEntries_size
               (mesh_body (fun mesh => bool_decide (Name mesh = meshName)) materialName) 0)
        (fun _ => flift (ret tt))
  end).

(** lines 87-95 with the loop as written *)
Definition SetMaterial_for (fuel : nat) (materialName : string) : FM World unit :=
  fbind (flift this) (fun o =>
  match _skinnedModel o with
  | None => flift (ret tt)
  | Some _ =>
      fbind (int_for fuel meshEntries_size (mesh_body (fun _ => true) materialName) 0)
        (fun _ => flift (ret tt))
  end).

(** the model of the object, if live, has at most [n] elements in the
    vector [f] selects *)
Definition model_at_most {X} (f : SkinnedModel -> list X) (n : nat) (w : World) : Prop :=
  forall pm m, _skinnedModel (w_self w) = Some pm -> g_skinnedModels (w_assets w) !! pm = Some m ->
  (length (f m) <= n)%nat.

(** ** Lemmas on the counter and the loops *)

Lemma size_t_of_int_nonneg i : 0 <= i <= INT_MAX -> size_t_of_int i = i.
Proof. intros Hi. unfold size_t_of_int, INT_MAX in *. apply Z.mod_small. lia. Qed.

Lemma fbind_at {St A B} (m : FM St A) (k : A -> FM St B) s r :
  m s = Some r ->
  fbind m k s = match r with Ok (a, s') => k a s' | Fault e => Some (Fault e) end.
Proof. unfold fbind. by intros ->. Qed.

Lemma fbind_flift {St A B} (m : M St A) (k : A -> FM St B) s :
  fbind (flift m) k s = match m s with Ok (a, s') => k a s' | Fault e => Some (Fault e) end.
Proof. reflexivity. Qed.

Lemma int_for_size_fault {St R} fuel size (body : Z -> M St (option R)) i s e :
  size s = Fault e -> int_for (S fuel) size body i s = Some (Fault e).
Proof. intros E. cbn [int_for]. by rewrite E. Qed.

Section IntFor.
Context {St A R : Type} (l : list A) (P : St -> Prop) (size : M St Z)
  (body : Z -> M St (option R)) (sbody : nat -> A -> M St (option R)).

(** the bound is the length of [l] while [P] holds *)
Hypothesis Hsize : forall s, P s -> size s = Ok (Z.of_nat (length l), s).
(** the body at [i] is the structural body at the [i]-th element *)
Hypothesis Hbody : forall k x s, P s -> l !! k = Some x -> body (Z.of_nat k) s = sbody k x s.
(** an iteration that continues keeps [P] *)
Hypothesis Hcont :
  forall k x s s', P s -> l !! k = Some x -> sbody k x s = Ok (None, s') -> P s'.
Hypothesis Hlen : Z.of_nat (length l) <= INT_MAX.

Lemma int_for_list_break fuel k s :
  (k <= length l)%nat -> (length l - k < fuel)%nat -> P s ->
  int_for fuel size body (Z.of_nat k) s = Some (list_break k (drop k l) sbody s).
Proof.
  revert k s. induction fuel as [|fuel IH]; intros k s Hk Hf Hs; [lia|].
  cbn [int_for]. rewrite (Hsize s Hs), size_t_of_int_nonneg by lia.
  destruct (l !! k) as [x|] eqn:Ex.
  - assert (Hk' : (k < length l)%nat) by (apply lookup_lt_is_Some_1; eauto).
    rewrite decide_True by lia. rewrite (drop_S _ _ _ Ex), (Hbody k x s Hs Ex).
    cbn [list_break]. unfold bind.
    destruct (sbody k x s) as [[[r|] s2]|e] eqn:Eb; [done | | done].
    rewrite decide_False by lia.
    replace (Z.of_nat k + 1) with (Z.of_nat (S k)) by lia.
    apply IH; [lia | lia | exact (Hcont k x s s2 Hs Ex Eb)].
  - apply lookup_ge_None_1 in Ex. rewrite decide_False by lia.
    by rewrite drop_ge.
Qed.

End IntFor.

(** a loop with no [return] in its body is [for_each_idx] *)
Lemma list_break_each {St A} k (l : list A) (body : nat -> A -> M St unit) s :
  list_break (R:=unit) k l (fun i x => body i x;; ret None) s =
  (for_each_idx k l body;; ret None) s.
Proof.
  revert k s. induction l as [|x l IH]; intros k s; [done|].
  cbn [list_break for_each_idx]. rewrite !bind_assoc.
  destruct (body k x s) as [[[] s1]|e] eqn:E.
  - rewrite !(bind_Ok _ _ _ _ _ E), bind_ret_l. apply IH.
  - by rewrite !(bind_Fault _ _ _ _ E).
Qed.

(** ** The four methods *)

Lemma list_break_find A name act k ps s :
  list_break k ps (find_body A name act) s =
  (r <- find_animation A name ps;;
   match r with Some p => act p;; ret (Some tt) | None => ret None end) s.
Proof.
  revert k s. induction ps as [|p ps IH]; intros k s; [done|].
  cbn [list_break find_animation]. unfold find_body. rewrite !bind_assoc.
  destruct (deref_ptr (g_animations A) (Some p) s) as [[a s1]|e] eqn:E.
  - rewrite !(bind_Ok _ _ _ _ _ E). case_decide.
    + rewrite bind_ret_l, !bind_assoc. unfold bind. destruct (act p s1) as [[[] s2]|e]; done.
    + rewrite bind_ret_l. apply IH.
  - by rewrite !(bind_Fault _ _ _ _ E).
Qed.

(** a method that starts with [_skinnedModel->...] faults with it *)
Lemma this_skinnedModel_fault {B} (k : SkinnedModel -> Method B) w e :
  this_skinnedModel w = Fault e -> (m <- this_skinnedModel;; k m) w = Fault e.
Proof. apply bind_Fault. Qed.

(** the search loop with the model [m] live *)
Lemma play_int_loop_run w pm m name act fuel :
  _skinnedModel (w_self w) = Some pm -> g_skinnedModels (w_assets w) !! pm = Some m ->
  Z.of_nat (length (m_animations m)) <= INT_MAX -> (length (m_animations m) < fuel)%nat ->
  int_for fuel animations_size (play_body name act) 0 w =
  Some ((r <- find_animation (w_assets w) name (m_animations m);;
         match r with Some p => act p;; ret (Some tt) | None => ret None end) w).
Proof.
  intros Hp Hm Hl Hf. rewrite <- (list_break_find _ _ _ 0), <- (drop_0 (m_animations m)).
  refine (int_for_list_break (m_animations m) (eq w) _ _ _ _ _ _ Hl fuel 0%nat w _ _ eq_refl);
    [| | | lia | lia].
  - intros s <-. unfold animations_size. by rewrite (bind_Ok _ _ _ _ _ (this_skinnedModel_run w pm m Hp Hm)).
  - intros k x s <- Ex. unfold play_body.
    rewrite (bind_Ok _ _ _ _ _ (this_skinnedModel_run w pm m Hp Hm)), Nat2Z.id.
    unfold vec_read, deref. rewrite Ex. done.
  - intros k x s s' <- _. unfold find_body, bind, deref_ptr, deref, ret, fault.
    destruct (_ !! x) as [a|]; [|done]. case_decide.
    + destruct (act x w) as [[[] ?]|]; done.
    + congruence.
Qed.

(** after the search, both versions act on the clip found or print *)
Lemma search_after w A ps name act :
  match (r <- find_animation A name ps;;
         match r with Some p => act p;; ret (Some tt) | None => ret None end) w with
  | Ok (r, s') => flift (after_search name r) s'
  | Fault e => Some (Fault e)
  end =
  Some ((r <- find_animation A name ps;;
         match r with Some p => act p | None => cout (name +:+ " not found!" +:+ endl) end) w).
Proof.
  unfold flift, bind.
  destruct (find_animation _ _ _ w) as [[[p|] w1]|e]; [|done|done].
  destruct (act p w1) as [[[] w2]|e]; done.
Qed.

Lemma this_skinnedModel_dangling w pm :
  _skinnedModel (w_self w) = Some pm -> g_skinnedModels (w_assets w) !! pm = None ->
  this_skinnedModel w = Fault DanglingPointer.
Proof. intros E1 E2. unfold_accessors. by rewrite E1, E2. Qed.

(** both the loop and the method fault at a null or dangling [_skinnedModel] *)
Lemma loop_model_fault {R B} fuel size (body : Z -> Method (option R)) (k : option R -> FM World B)
  (rest : SkinnedModel -> Method B) w e :
  this_skinnedModel w = Fault e -> size w = Fault e ->
  fbind (int_for (S fuel) size body 0) k w = Some ((m <- this_skinnedModel;; rest m) w).
Proof.
  intros E Es. rewrite (fbind_at _ _ _ _ (int_for_size_fault _ _ _ _ _ _ Es)).
  by rewrite (bind_Fault _ _ _ _ E).
Qed.

Lemma PlayAndLoopAnimation_for_run w fuel n name speed :
  Z.of_nat n <= INT_MAX -> (n < fuel)%nat -> model_at_most m_animations n w ->
  PlayAndLoopAnimation_for fuel name speed w = Some (PlayAndLoopAnimation name speed w).
Proof.
  intros Hn Hf Hw. destruct fuel as [|fuel]; [lia|].
  unfold PlayAndLoopAnimation_for, PlayAndLoopAnimation.
  rewrite fbind_flift, (bind_Ok _ _ _ _ _ (this_run w)), this_run. cbv beta iota.
  destruct (_skinnedModel (w_self w)) as [pm|] eqn:Hp; [|done].
  destruct (g_skinnedModels (w_assets w) !! pm) as [m|] eqn:Hm.
  - pose proof (Hw pm m Hp Hm).
    rewrite (bind_Ok _ _ _ _ _ (this_skinnedModel_run w pm m Hp Hm)), (bind_Ok _ _ _ _ _ (assets_run w)).
    rewrite (fbind_at _ _ _ _ (play_int_loop_run w pm m _ _ (S fuel) Hp Hm ltac:(lia) ltac:(lia))).
    apply search_after.
  - pose proof (this_skinnedModel_dangling w pm Hp Hm) as E.
    eapply loop_model_fault; [exact E | exact (this_skinnedModel_fault _ _ _ E)].
Qed.

Lemma PlayAnimation_for_run w fuel n name speed :
  Z.of_nat n <= INT_MAX -> (n < fuel)%nat -> model_at_most m_animations n w ->
  PlayAnimation_for fuel name speed w = Some (PlayAnimation name speed w).
Proof.
  intros Hn Hf Hw. destruct fuel as [|fuel]; [lia|]. unfold PlayAnimation_for, PlayAnimation.
  destruct (_skinnedModel (w_self w)) as [pm|] eqn:Hp.
  2:{ pose proof (this_skinnedModel_null w Hp) as E.
      eapply loop_model_fault; [exact E | exact (this_skinnedModel_fault _ _ _ E)]. }
  destruct (g_skinnedModels (w_assets w) !! pm) as [m|] eqn:Hm.
  2:{ pose proof (this_skinnedModel_dangling w pm Hp Hm) as E.
      eapply loop_model_fault; [exact E | exact (this_skinnedModel_fault _ _ _ E)]. }
  pose proof (Hw pm m Hp Hm).
  rewrite (bind_Ok _ _ _ _ _ (this_skinnedModel_run w pm m Hp Hm)), (bind_Ok _ _ _ _ _ (assets_run w)).
  rewrite (fbind_at _ _ _ _ (play_int_loop_run w pm m _ _ (S fuel) Hp Hm ltac:(lia) ltac:(lia))).
  apply search_after.
Qed.

Lemma material_body_keeps sel name k x s s' u :
  material_body sel name k x s = Ok (u, s') ->
  _skinnedModel (w_self s') = _skinnedModel (w_self s) /\ w_assets s' = w_assets s.
Proof.
  unfold material_body, set_material_index, assets, this, update_this.
  destruct (sel x); [|by inversion 1]. mrun.
  destruct (vec_write _ _ _); [|done]. by inversion 1.
Qed.

(** the mesh loop with the model [m] live *)
Lemma mesh_int_loop_run w pm m sel name fuel :
  _skinnedModel (w_self w) = Some pm -> g_skinnedModels (w_assets w) !! pm = Some m ->
  Z.of_nat (length (m_meshEntries m)) <= INT_MAX -> (length (m_meshEntries m) < fuel)%nat ->
  int_for fuel meshEntries_size (mesh_body sel name) 0 w =
  Some ((for_each_idx 0 (m_meshEntries m) (material_body sel name);; ret None) w).
Proof.
  intros Hp Hm Hl Hf. rewrite <- list_break_each, <- (drop_0 (m_meshEntries m)).
  refine (int_for_list_break (m_meshEntries m)
            (fun s => _skinnedModel (w_self s) = Some pm /\ w_assets s = w_assets w)
            _ _ _ _ _ _ Hl fuel 0%nat w _ _ (conj Hp eq_refl)); [| | | lia | lia].
  - intros s [Hp' Ha]. unfold meshEntries_size.
    by rewrite (bind_Ok _ _ _ _ _ (this_skinnedModel_run s pm m Hp' ltac:(by rewrite Ha))).
  - intros k x s [Hp' Ha] Ex. unfold mesh_body.
    rewrite (bind_Ok _ _ _ _ _ (this_skinnedModel_run s pm m Hp' ltac:(by rewrite Ha))), Nat2Z.id.
    unfold vec_read, deref. by rewrite Ex, bind_ret_l.
  - intros k x s s' [Hp' Ha] _ E. apply bind_Ok_inv in E as (u & s1 & E1 & [= <-]).
    destruct (material_body_keeps _ _ _ _ _ _ _ E1). split; congruence.
Qed.

Lemma mesh_method_run w fuel n sel name :
  Z.of_nat n <= INT_MAX -> (n < fuel)%nat -> model_at_most m_meshEntries n w ->
  fbind (flift this) (fun o =>
    match _skinnedModel o with
    | None => flift (ret tt)
    | Some _ => fbind (int_for fuel meshEntries_size (mesh_body sel name) 0) (fun _ => flift (ret tt))
    end) w =
  Some ((o <- this;;
         match _skinnedModel o with
         | None => ret tt
         | Some _ => m <- this_skinnedModel;; for_each_idx 0 (m_meshEntries m) (material_body sel name)
         end) w).
Proof.
  intros Hn Hf Hw. destruct fuel as [|fuel]; [lia|].
  rewrite fbind_flift, (bind_Ok _ _ _ _ _ (this_run w)), this_run. cbv beta iota.
  destruct (_skinnedModel (w_self w)) as [pm|] eqn:Hp; [|done].
  destruct (g_skinnedModels (w_assets w) !! pm) as [m|] eqn:Hm.
  2:{ pose proof (this_skinnedModel_dangling w pm Hp Hm) as E.
      eapply loop_model_fault; [exact E | exact (this_skinnedModel_fault _ _ _ E)]. }
  pose proof (Hw pm m Hp Hm).
  rewrite (bind_Ok _ _ _ _ _ (this_skinnedModel_run w pm m Hp Hm)).
  rewrite (fbind_at _ _ _ _ (mesh_int_loop_run w pm m _ _ (S fuel) Hp Hm ltac:(lia) ltac:(lia))).
  unfold bind, flift. by destruct (for_each_idx _ _ _ w) as [[[] w1]|e].
Qed.

(** C11. Termination and equivalence of the clip search: on a world whose
    model (if live) has at most [n <= INT_MAX] clips, the loops of
    [PlayAndLoopAnimation] and [PlayAnimation] as the C++ writes them
    ([int] counter, [size()] re-read, [m_animations[i]] indexed, [return]
    at the first match) terminate within [n + 1] tests and return exactly
    what the structural models return, faults included (null or dangling
    model, dangling clip pointer). *)
Theorem play_loops_terminate w fuel n name speed :
  Z.of_nat n <= INT_MAX -> (n < fuel)%nat -> model_at_most m_animations n w ->
  PlayAndLoopAnimation_for fuel name speed w = Some (PlayAndLoopAnimation name speed w) /\
  PlayAnimation_for fuel name speed w = Some (PlayAnimation name speed w).
Proof.
  intros Hn Hf Hw.
  split; [exact (PlayAndLoopAnimation_for_run w fuel n name speed Hn Hf Hw)
         | exact (PlayAnimation_for_run w fuel n name speed Hn Hf Hw)].
Qed.

(** C15. Equivalence of the mesh loops with their structural models: on a
    world whose model (if live) has at most [n <= INT_MAX] meshes, the
    loops of [SetMeshMaterial] and [SetMaterial] as the C++ writes them
    terminate within [n + 1] tests and return exactly what [for_each_idx]
    over the meshes returns, faults included (a table shorter than the
    mesh list faults at the first write past its end in both). *)
Theorem mesh_loops_terminate w fuel n meshName materialName :
  Z.of_nat n <= INT_MAX -> (n < fuel)%nat -> model_at_most m_meshEntries n w ->
  SetMeshMaterial_for fuel meshName materialName w = Some (SetMeshMaterial meshName materialName w) /\
  SetMaterial_for fuel materialName w = Some (SetMaterial materialName w).
Proof. intros Hn Hf Hw. split; by apply (mesh_method_run _ _ n). Qed.

(** ** Overflow of the counter *)

(** with an invariant [P]: while [P] holds the bound is [n], and every
    iteration at an index below [n] continues and keeps [P] *)
Lemma int_for_overflow_inv {St R} (P : St -> Prop) fuel (size : M St Z)
  (body : Z -> M St (option R)) n i s :
  (forall s, P s -> size s = Ok (n, s)) ->
  (forall j s, P s -> 0 <= j < n -> exists s', body j s = Ok (None, s') /\ P s') ->
  INT_MAX < n -> 0 <= i <= INT_MAX -> (Z.to_nat (INT_MAX - i) < fuel)%nat -> P s ->
  int_for fuel size body i s = Some (Fault SignedOverflow).
Proof.
  intros Hs Hb Hn. revert i s. induction fuel as [|fuel IH]; intros i s Hi Hf Hp; [lia|].
  cbn [int_for]. rewrite (Hs s Hp), size_t_of_int_nonneg by done. rewrite decide_True by lia.
  destruct (Hb i s Hp) as (s' & -> & Hp'); [lia|]. case_decide as Hm; [done|].
  apply IH; [lia | lia | done].
Qed.

(** an iteration of a mesh loop on a table sized for the model writes in
    range and continues *)
Lemma mesh_body_continues w pm m sel name j :
  _skinnedModel (w_self w) = Some pm -> g_skinnedModels (w_assets w) !! pm = Some m ->
  length (_materialIndices (w_self w)) = length (m_meshEntries m) ->
  0 <= j < Z.of_nat (length (m_meshEntries m)) ->
  exists w', mesh_body sel name j w = Ok (None, w') /\
    _skinnedModel (w_self w') = Some pm /\ w_assets w' = w_assets w /\
    length (_materialIndices (w_self w')) = length (m_meshEntries m).
Proof.
  intros Hp Hm Hl Hj. unfold mesh_body.
  rewrite (bind_Ok _ _ _ _ _ (this_skinnedModel_run w pm m Hp Hm)).
  destruct (lookup_lt_is_Some_2 (m_meshEntries m) (Z.to_nat j)) as [x Hx]; [lia|].
  unfold vec_read, deref. rewrite Hx, bind_ret_l. unfold material_body.
  destruct (sel x).
  - rewrite bind_assoc, (bind_Ok _ _ _ _ _ (assets_run w)).
    rewrite (bind_Ok _ _ _ _ _ (set_material_index_run w (Z.to_nat j) _ ltac:(lia))).
    eexists. split_and!; [reflexivity | exact Hp | reflexivity |].
    rewrite with_table_self, length_insert. done.
  - rewrite bind_ret_l. by exists w.
Qed.

(** the mesh loop on a sized table of more than [INT_MAX] meshes *)
Lemma mesh_int_loop_overflow w m sel name fuel :
  sized_model w m -> INT_MAX < Z.of_nat (length (m_meshEntries m)) ->
  (Z.to_nat INT_MAX < fuel)%nat ->
  int_for fuel meshEntries_size (mesh_body sel name) 0 w = Some (Fault SignedOverflow).
Proof.
  intros (pm & Hp & Hm & Hl) Hn Hf.
  apply (int_for_overflow_inv
           (fun s => _skinnedModel (w_self s) = Some pm /\ w_assets s = w_assets w /\
                     length (_materialIndices (w_self s)) = length (m_meshEntries m))
           _ _ _ (Z.of_nat (length (m_meshEntries m)))); [| | done | unfold INT_MAX; lia | lia | done].
  - intros s (Hp' & Ha & _). unfold meshEntries_size.
    by rewrite (bind_Ok _ _ _ _ _ (this_skinnedModel_run s pm m Hp' ltac:(by rewrite Ha))).
  - intros j s (Hp' & Ha & Hl') Hj.
    destruct (mesh_body_continues s pm m sel name j Hp' ltac:(by rewrite Ha) Hl' Hj)
      as (s' & E & Hp'' & Ha' & Hl''). exists s'. split_and!; congruence.
Qed.

(** C18. Overflow of the [int] counter in the mesh loops: on a model with
    more than [INT_MAX] meshes and a material table sized for it, every
    iteration of the loops of [SetMeshMaterial] and [SetMaterial] writes in
    range and continues, so the loop reaches [i == INT_MAX], runs that
    iteration, and [i++] overflows: undefined behaviour. The structural
    models of the two methods, whose index is unbounded, return on the same
    world: the bound [n <= INT_MAX] of C15 cannot be dropped. *)
Theorem mesh_loops_overflow w m fuel meshName materialName :
  sized_model w m -> INT_MAX < Z.of_nat (length (m_meshEntries m)) ->
  (Z.to_nat INT_MAX < fuel)%nat ->
  SetMeshMaterial_for fuel meshName materialName w = Some (Fault SignedOverflow) /\
  SetMaterial_for fuel materialName w = Some (Fault SignedOverflow) /\
  (exists w', SetMeshMaterial meshName materialName w = Ok (tt, w')) /\
  (exists w', SetMaterial materialName w = Ok (tt, w')).
Proof.
  intros Hs Hn Hf. pose proof Hs as (pm & Hp & _).
  unfold SetMeshMaterial_for, SetMaterial_for.
  rewrite !fbind_flift, this_run. cbv beta iota. rewrite Hp.
  rewrite !(fbind_at _ _ _ _ (mesh_int_loop_overflow w m _ _ fuel Hs Hn Hf)).
  split_and!; [done | done | eexists; by apply SetMeshMaterial_run | eexists; by apply SetMaterial_run].
Qed.

(** ** Witnesses, on [demo_world] *)

Lemma play_loops_terminate_witness :
  PlayAndLoopAnimation_for 3 "Fire" 1 demo_world = Some (PlayAndLoopAnimation "Fire" 1 demo_world) /\
  PlayAnimation_for 3 "Fire" 1 demo_world = Some (PlayAnimation "Fire" 1 demo_world).
Proof.
  apply (play_loops_terminate demo_world 3 2 "Fire" 1);
    [unfold INT_MAX; lia | lia | intros pm m [= <-] [= <-]; simpl; lia].
Defined.

Lemma mesh_loops_terminate_witness :
  SetMeshMaterial_for 3 "Slide" "Metal" demo_world =
    Some (SetMeshMaterial "Slide" "Metal" demo_world) /\
  SetMaterial_for 3 "Metal" demo_world = Some (SetMaterial "Metal" demo_world).
Proof.
  apply (mesh_loops_terminate demo_world 3 2 "Slide" "Metal");
    [unfold INT_MAX; lia | lia | intros pm m [= <-] [= <-]; simpl; lia].
Defined.

(** a model of [2^31] meshes and an object whose table is sized for it;
    the lists are never computed, only their lengths are used *)
Definition big_model : SkinnedModel :=
  {| glock_model with m_meshEntries := repeat (mkMeshEntry "Body") (Z.to_nat (2 ^ 31)) |}.

Definition big_world : World :=
  {| w_assets := {| demo_assets with g_skinnedModels := [big_model] |};
     w_self := {| demo_object with _materialIndices := repeat 0 (Z.to_nat (2 ^ 31)) |};
     w_cout := [] |}.

Lemma big_world_sized : sized_model big_world big_model.
Proof.
  exists 0%nat. split_and!; [reflexivity | reflexivity |].
  etrans; [apply List.repeat_length | symmetry; apply List.repeat_length].
Qed.

Lemma big_model_meshes : length (m_meshEntries big_model) = Z.to_nat (2 ^ 31).
Proof. apply List.repeat_length. Qed.

Lemma mesh_loops_overflow_witness :
  SetMeshMaterial_for (Z.to_nat (2 ^ 31)) "Body" "Metal" big_world = Some (Fault SignedOverflow) /\
  SetMaterial_for (Z.to_nat (2 ^ 31)) "Metal" big_world = Some (Fault SignedOverflow) /\
  (exists w', SetMeshMaterial "Body" "Metal" big_world = Ok (tt, w')) /\
  (exists w', SetMaterial "Metal" big_world = Ok (tt, w')).
Proof.
  apply (mesh_loops_overflow big_world big_model);
    [apply big_world_sized | rewrite big_model_meshes; unfold INT_MAX; lia | unfold INT_MAX; lia].
Defined.
