(* ===== verification/Placement.v ===== *)
(** * Placement and attachment queries: [GetModelMatrix] and the barrel
      positions

    [GetModelMatrix] composes the object's transform with a correction: a
    180-degree yaw for the models named "AKS74U", "Glock" and "Shotgun",
    the default (identity) transform for every other model. The three
    barrel queries read a bone index from the shared model's
    [m_BoneMapping] with [std::map::operator[]] (which inserts the key with
    index 0 when it is missing: a write into the model every object using
    it shares), read that bone's matrix from [_animatedTransforms.worldspace]
    without a bounds check, and return the translation of
    [GetModelMatrix() * bone * translate(offset)]; an object of another
    name gets the zero vector.

    The rotation matrices come from the interface [EulerRotation]; the
    theorems hold for every rotation meeting it. Since a rotation fixes the
    origin, [SetPosition] round-trips through the translation column of
    [GetModelMatrix]. A query is idempotent: the insertion into the shared
    mapping happens at most once. *)

From S2P Require Import Prelude CppStd Glm Assets GameObject.

(** [HELL_PI] *)
Definition HELL_PI : Q := 314159265359 # 100000000000.

(** lines 148-154: the correction transform of a model *)
Definition model_correction (filename : string) : Transform :=
  if bool_decide (filename = "AKS74U") || bool_decide (filename = "Glock")
     || bool_decide (filename = "Shotgun")
  then {| position := vec3_zero; rotation := Vec3 0 HELL_PI 0; scale := vec3_splat 1 |}
  else Transform_default.

(** the pointer held in [_skinnedModel] and the model it designates *)
Definition this_model_ptr : Method (nat * SkinnedModel) :=
  o <- this;; A <- assets;;
  match _skinnedModel o with
  | None => fault NullDeref
  | Some p => m <- deref DanglingPointer (g_skinnedModels A !! p);; ret (p, m)
  end.

Section Placement.
Context `{EulerRotation}.

(** lines 146-159 *)
Definition GetModelMatrix : Method mat4 :=
  m <- this_skinnedModel;;
  o <- this;;
  ret (to_mat4 (_transform o) ⋅ to_mat4 (model_correction (sm_filename m))).

(** lines 211-226 (and 228-243, 245-260 with their names and offsets) *)
Definition barrel_position (objectName boneName : string) (offset : vec3) : Method vec3 :=
  o <- this;;
  if decide (_name o = objectName) then
    pm <- this_model_ptr;;
    let '(p, m) := pm in
    let '(boneIndex, mapping') := map_subscript boneName (m_BoneMapping m) in
    let m' := {| m with m_BoneMapping := mapping' |} in
    update_assets (fun A => {| A with g_skinnedModels := <[p := m']> (g_skinnedModels A) |});;
    boneMatrix <- vec_read (worldspace (_animatedTransforms o)) boneIndex;;
    M <- GetModelMatrix;;
    let mm := M ⋅ boneMatrix ⋅
              to_mat4 {| position := offset; rotation := vec3_zero; scale := vec3_splat 1 |} in
    ret (translation_of mm)
  else ret vec3_zero.

Definition GetGlockBarrelPostion : Method vec3 :=
  barrel_position "Glock" "Barrel" (Vec3 0 (2 + 2) 11).

Definition GetAKS74UBarrelPostion : Method vec3 :=
  barrel_position "AKS74U" "Weapon" (Vec3 0 (0 + 1) 36).

Definition GetShotgunBarrelPostion : Method vec3 :=
  barrel_position "Shotgun" "Weapon" (Vec3 0 (0 + 1) 58).

(** a point [p] seen through [m]: the [xyz] of [m * (p, 1)] *)
Definition transform_point (m : mat4) (p : vec3) : vec3 :=
  let r := mat_apply m (Vec4 (vx p) (vy p) (vz p) 1) in Vec3 (wx r) (wy r) (wz r).

(** the world after the bone lookup wrote the mapping back *)
Definition with_model (w : World) (p : nat) (m : SkinnedModel) : World :=
  let A := w_assets w in
  {| w with w_assets := {| A with g_skinnedModels := <[p := m]> (g_skinnedModels A) |} |}.

(** ** Running the methods *)

Lemma GetModelMatrix_run w p m :
  _skinnedModel (w_self w) = Some p -> g_skinnedModels (w_assets w) !! p = Some m ->
  GetModelMatrix w =
  Ok (to_mat4 (_transform (w_self w)) ⋅ to_mat4 (model_correction (sm_filename m)), w).
Proof.
  intros Hp Hm. unfold GetModelMatrix.
  by rewrite (bind_Ok _ _ _ _ _ (this_skinnedModel_run w p m Hp Hm)).
Qed.

Lemma this_model_ptr_run w p m :
  _skinnedModel (w_self w) = Some p -> g_skinnedModels (w_assets w) !! p = Some m ->
  this_model_ptr w = Ok ((p, m), w).
Proof. intros Hp Hm. cbv [this_model_ptr bind this assets get ret]. by rewrite Hp, Hm. Qed.

Lemma with_model_same w p m :
  g_skinnedModels (w_assets w) !! p = Some m -> with_model w p m = w.
Proof.
  intros Hm. unfold with_model. rewrite list_insert_id by done. by destruct w as [[] ? ?].
Qed.

Lemma barrel_position_run w objectName boneName offset p m :
  _name (w_self w) = objectName ->
  _skinnedModel (w_self w) = Some p -> g_skinnedModels (w_assets w) !! p = Some m ->
  let '(i, mapping') := map_subscript boneName (m_BoneMapping m) in
  let m' := {| m with m_BoneMapping := mapping' |} in
  barrel_position objectName boneName offset w =
  match worldspace (_animatedTransforms (w_self w)) !! i with
  | Some B =>
      Ok (translation_of
            (to_mat4 (_transform (w_self w)) ⋅ to_mat4 (model_correction (sm_filename m)) ⋅ B ⋅
             to_mat4 {| position := offset; rotation := vec3_zero; scale := vec3_splat 1 |}),
          with_model w p m')
  | None => Fault IndexOutOfRange
  end.
Proof.
  intros Hn Hp Hm. destruct (map_subscript _ _) as [i mapping'] eqn:Hs.
  unfold barrel_position. rewrite (bind_Ok _ _ _ _ _ (this_run w)), decide_True by done.
  rewrite (bind_Ok _ _ _ _ _ (this_model_ptr_run w p m Hp Hm)). rewrite Hs.
  cbv [bind update_assets modify vec_read deref ret fault].
  destruct (worldspace _ !! i) as [B|]; [|done].
  rewrite (GetModelMatrix_run _ p {| m with m_BoneMapping := mapping' |}); [done | done |].
  cbn. by rewrite list_lookup_insert_eq by (by apply lookup_lt_Some in Hm).
Qed.

(** the translation of [X * offset.to_mat4()] is [X] applied to the offset *)
Lemma translation_of_offset X offset :
  translation_of (X ⋅ to_mat4 {| position := offset; rotation := vec3_zero;
                                 scale := vec3_splat 1 |})
  ≡₃ transform_point X offset.
Proof. rewrite to_mat4_offset. apply translation_of_mul_translate. Qed.

Definition yaw_180 : Transform :=
  {| position := vec3_zero; rotation := Vec3 0 HELL_PI 0; scale := vec3_splat 1 |}.

(** ** Properties *)

(** C26. The three weapon models get the 180-degree yaw correction:
    [GetModelMatrix] is [_transform.to_mat4() * yaw(HELL_PI)]. *)
Theorem GetModelMatrix_weapon_correction w p m :
  _skinnedModel (w_self w) = Some p -> g_skinnedModels (w_assets w) !! p = Some m ->
  sm_filename m = "AKS74U" \/ sm_filename m = "Glock" \/ sm_filename m = "Shotgun" ->
  GetModelMatrix w = Ok (to_mat4 (_transform (w_self w)) ⋅ to_mat4 yaw_180, w).
Proof.
  intros Hp Hm Hn. rewrite (GetModelMatrix_run w p m Hp Hm). unfold model_correction.
  by destruct Hn as [-> | [-> | ->]].
Qed.

(** C27. Every other model gets the identity correction: [GetModelMatrix]
    is the object's own transform matrix. *)
Theorem GetModelMatrix_other_identity w p m :
  _skinnedModel (w_self w) = Some p -> g_skinnedModels (w_assets w) !! p = Some m ->
  sm_filename m <> "AKS74U" -> sm_filename m <> "Glock" -> sm_filename m <> "Shotgun" ->
  exists M, GetModelMatrix w = Ok (M, w) /\ M ≡ₘ to_mat4 (_transform (w_self w)).
Proof.
  intros Hp Hm H1 H2 H3. rewrite (GetModelMatrix_run w p m Hp Hm).
  eexists. split; [reflexivity|]. unfold model_correction.
  rewrite !bool_decide_false by done. cbn [orb].
  rewrite to_mat4_default. apply mat_mul_id_r.
Qed.

(** A barrel query on an object of another name returns the zero
    vector and changes nothing (the model is not even read). *)
Theorem barrel_position_other_name w objectName boneName offset :
  _name (w_self w) <> objectName ->
  barrel_position objectName boneName offset w = Ok (vec3_zero, w).
Proof.
  intros Hn. unfold barrel_position.
  by rewrite (bind_Ok _ _ _ _ _ (this_run w)), decide_False.
Qed.

(** C29. When the bone is in the mapping and its matrix is in the current
    pose, the barrel query succeeds without changing the world and returns
    the offset seen through [GetModelMatrix() * bone]. *)
Theorem barrel_position_present w objectName boneName offset p m i B :
  _name (w_self w) = objectName ->
  _skinnedModel (w_self w) = Some p -> g_skinnedModels (w_assets w) !! p = Some m ->
  m_BoneMapping m !! boneName = Some i ->
  worldspace (_animatedTransforms (w_self w)) !! i = Some B ->
  exists v, barrel_position objectName boneName offset w = Ok (v, w) /\
    v ≡₃ transform_point (to_mat4 (_transform (w_self w)) ⋅
                          to_mat4 (model_correction (sm_filename m)) ⋅ B) offset.
Proof.
  intros Hn Hp Hm Hi HB.
  pose proof (barrel_position_run w objectName boneName offset p m Hn Hp Hm) as Hrun.
  rewrite (map_subscript_present _ _ _ Hi) in Hrun. rewrite Hrun, HB.
  replace {| m with m_BoneMapping := m_BoneMapping m |} with m by (by destruct m).
  rewrite with_model_same by done.
  eexists. split; [reflexivity|]. apply translation_of_offset.
Qed.

(** C30. When the bone is missing, [std::map::operator[]] inserts it with
    index 0 into the shared model (every object using the model sees the
    new key) and the query reads bone 0: a fault if the pose is empty. *)
Theorem barrel_position_missing_bone w objectName boneName offset p m :
  _name (w_self w) = objectName ->
  _skinnedModel (w_self w) = Some p -> g_skinnedModels (w_assets w) !! p = Some m ->
  m_BoneMapping m !! boneName = None ->
  let m' := {| m with m_BoneMapping := <[boneName := 0%nat]> (m_BoneMapping m) |} in
  match worldspace (_animatedTransforms (w_self w)) !! 0%nat with
  | Some B =>
      exists v, barrel_position objectName boneName offset w = Ok (v, with_model w p m') /\
        v ≡₃ transform_point (to_mat4 (_transform (w_self w)) ⋅
                              to_mat4 (model_correction (sm_filename m)) ⋅ B) offset
  | None => barrel_position objectName boneName offset w = Fault IndexOutOfRange
  end.
Proof.
  intros Hn Hp Hm Hi m'.
  pose proof (barrel_position_run w objectName boneName offset p m Hn Hp Hm) as Hrun.
  rewrite (map_subscript_absent _ _ Hi) in Hrun. rewrite Hrun.
  destruct (worldspace _ !! 0%nat) as [B|]; [|done].
  eexists. split; [reflexivity|]. apply translation_of_offset.
Qed.

(** C31. Safety of the barrel queries: when every index of the model's
    mapping is a bone, the model has a bone, and the current pose has one
    matrix per bone (as [Update] leaves it), the query never faults. *)
Theorem barrel_position_safe w objectName boneName offset p m :
  _skinnedModel (w_self w) = Some p -> g_skinnedModels (w_assets w) !! p = Some m ->
  map_Forall (fun _ i => (i < m_NumBones m)%nat) (m_BoneMapping m) ->
  (0 < m_NumBones m)%nat ->
  length (worldspace (_animatedTransforms (w_self w))) = m_NumBones m ->
  exists v w', barrel_position objectName boneName offset w = Ok (v, w').
Proof.
  intros Hp Hm Hwf Hpos Hlen.
  destruct (decide (_name (w_self w) = objectName)) as [Hn|Hn];
    [|exists vec3_zero, w; unfold barrel_position;
     by rewrite (bind_Ok _ _ _ _ _ (this_run w)), decide_False].
  pose proof (barrel_position_run w objectName boneName offset p m Hn Hp Hm) as Hrun.
  destruct (map_subscript boneName (m_BoneMapping m)) as [i mapping'] eqn:Hs.
  assert (Hi : (i < m_NumBones m)%nat).
  { unfold map_subscript in Hs. destruct (m_BoneMapping m !! boneName) eqn:E;
      injection Hs as <- _; [by apply (Hwf boneName) | done]. }
  rewrite Hrun. destruct (lookup_lt_is_Some_2 (worldspace (_animatedTransforms (w_self w))) i)
    as [B ->]; [lia|]. eauto.
Qed.

(** the correction never moves the origin *)
Lemma model_correction_fixes_origin filename :
  col3 (to_mat4 (model_correction filename)) ≡₄ vec4_origin.
Proof.
  rewrite col3_to_mat4. unfold model_correction.
  by destruct (_ || _); cbn; conj_split.
Qed.

(** C39. Round trip: after [SetPosition(v)] the translation column of
    [GetModelMatrix()] is [v], for every model (the weapon correction is a
    pure rotation about the origin). *)
Theorem SetPosition_GetModelMatrix w p m v :
  _skinnedModel (w_self w) = Some p -> g_skinnedModels (w_assets w) !! p = Some m ->
  exists w' M, SetPosition v w = Ok (tt, w') /\ GetModelMatrix w' = Ok (M, w') /\
    translation_of M ≡₃ v.
Proof.
  intros Hp Hm. destruct (SetPosition_sets w v) as (w' & E & Hpos & Hs & Ha).
  exists w'. eexists. split; [exact E|].
  rewrite (GetModelMatrix_run w' p m) by (rewrite ?Hs, ?Ha; done). split; [reflexivity|].
  rewrite translation_of_mul_fixing by apply model_correction_fixes_origin.
  rewrite <- Hpos. apply translation_of_to_mat4.
Qed.

(** C4. A barrel query is idempotent: once it has returned, calling it
    again on the world it left returns the same position and changes
    nothing more. The one write a query makes, the insertion of a missing
    bone into the shared model's mapping by [std::map::operator[]], thus
    happens at most once, and later queries read the inserted index. *)
Theorem barrel_position_idempotent w objectName boneName offset v w' :
  barrel_position objectName boneName offset w = Ok (v, w') ->
  barrel_position objectName boneName offset w' = Ok (v, w').
Proof.
  intros E. destruct (decide (_name (w_self w) = objectName)) as [Hn|Hn].
  2:{ unfold barrel_position in *. rewrite (bind_Ok _ _ _ _ _ (this_run w)), decide_False in E
        by done. injection E as <- <-. by rewrite (bind_Ok _ _ _ _ _ (this_run w)), decide_False. }
  destruct (_skinnedModel (w_self w)) as [p|] eqn:Hp.
  2:{ unfold barrel_position, this_model_ptr in E. cbv [bind this assets get ret fault] in E.
      rewrite decide_True, Hp in E by done. discriminate. }
  destruct (g_skinnedModels (w_assets w) !! p) as [m|] eqn:Hm.
  2:{ unfold barrel_position, this_model_ptr in E. cbv [bind this assets get ret fault deref] in E.
      rewrite decide_True, Hp, Hm in E by done. discriminate. }
  pose proof (barrel_position_run w objectName boneName offset p m Hn Hp Hm) as Hrun.
  destruct (map_subscript boneName (m_BoneMapping m)) as [i mapping'] eqn:Hs.
  rewrite Hrun in E. destruct (worldspace _ !! i) as [B|] eqn:HB; [|done].
  injection E as <- <-.
  set (m' := {| m with m_BoneMapping := mapping' |}).
  assert (Hm' : g_skinnedModels (w_assets (with_model w p m')) !! p = Some m')
    by (cbn; apply list_lookup_insert_eq; by apply lookup_lt_Some in Hm).
  pose proof (barrel_position_run (with_model w p m') objectName boneName offset p m' Hn Hp Hm')
    as Hrun'.
  assert (Hs' : map_subscript boneName mapping' = (i, mapping')).
  { apply map_subscript_present. pose proof (map_subscript_lookup boneName (m_BoneMapping m)) as L.
    by rewrite Hs in L. }
  change (m_BoneMapping m') with mapping' in Hrun'. rewrite Hs' in Hrun'.
  change (w_self (with_model w p m')) with (w_self w) in Hrun'. rewrite HB in Hrun'.
  rewrite Hrun'. replace {| m' with m_BoneMapping := mapping' |} with m' by done.
  by rewrite with_model_same.
Qed.

End Placement.

(** ** Witnesses

    The witnesses evaluate the queries with [flat_rotation], the rotation
    that ignores its angles: it meets the interface's laws and keeps the
    matrices rational. [demo_posed] is [demo_world] with a two-bone pose;
    [zombie_world] binds the object to a model of another name. *)
#[export] Program Instance flat_rotation : EulerRotation := {| rot_mat _ := mat_id |}.
Next Obligation. reflexivity. Qed.
Next Obligation. reflexivity. Qed.

Definition demo_posed (name : string) : World :=
  let o := demo_object in
  {| demo_world with w_self := {| o with _name := name;
       _animatedTransforms :=
         {| local := []; worldspace := [mat_id; translate_mat (Vec3 1 2 3)] |} |} |}.

Definition zombie_world : World :=
  let A := demo_assets in
  {| demo_world with w_assets :=
       {| A with g_skinnedModels := [{| glock_model with sm_filename := "Zombie" |}] |} |}.

Lemma GetModelMatrix_weapon_correction_witness :
  GetModelMatrix demo_world =
  Ok (to_mat4 (_transform (w_self demo_world)) ⋅ to_mat4 yaw_180, demo_world).
Proof. apply (GetModelMatrix_weapon_correction _ 0%nat glock_model); [reflexivity | reflexivity | right; left; reflexivity]. Defined.

Lemma GetModelMatrix_other_identity_witness :
  exists M, GetModelMatrix zombie_world = Ok (M, zombie_world) /\
    M ≡ₘ to_mat4 (_transform (w_self zombie_world)).
Proof.
  apply (GetModelMatrix_other_identity _ 0%nat {| glock_model with sm_filename := "Zombie" |});
    [reflexivity | reflexivity | discriminate | discriminate | discriminate].
Defined.

Lemma barrel_position_other_name_witness :
  "Glock" <> "AKS74U" /\
  barrel_position "AKS74U" "Weapon" (Vec3 0 (0 + 1) 36) demo_world = Ok (vec3_zero, demo_world).
Proof.
  split; [discriminate|].
  apply (barrel_position_other_name demo_world "AKS74U" "Weapon" (Vec3 0 (0 + 1) 36)).
  discriminate.
Defined.

Lemma barrel_position_present_witness :
  exists v, GetGlockBarrelPostion (demo_posed "Glock") = Ok (v, demo_posed "Glock") /\
    v ≡₃ transform_point (to_mat4 (_transform (w_self (demo_posed "Glock"))) ⋅
           to_mat4 (model_correction (sm_filename glock_model)) ⋅ translate_mat (Vec3 1 2 3))
           (Vec3 0 (2 + 2) 11).
Proof.
  apply (barrel_position_present _ _ _ _ 0%nat glock_model 1%nat);
    [reflexivity | reflexivity | reflexivity | reflexivity | reflexivity].
Defined.

Lemma barrel_position_missing_bone_witness :
  let m' := {| glock_model with m_BoneMapping :=
                 <["Weapon" := 0%nat]> (m_BoneMapping glock_model) |} in
  match worldspace (_animatedTransforms (w_self (demo_posed "Shotgun"))) !! 0%nat with
  | Some B =>
      exists v, barrel_position "Shotgun" "Weapon" (Vec3 0 (0 + 1) 58) (demo_posed "Shotgun") =
                Ok (v, with_model (demo_posed "Shotgun") 0%nat m') /\
        v ≡₃ transform_point (to_mat4 (_transform (w_self (demo_posed "Shotgun"))) ⋅
               to_mat4 (model_correction (sm_filename glock_model)) ⋅ B) (Vec3 0 (0 + 1) 58)
  | None => barrel_position "Shotgun" "Weapon" (Vec3 0 (0 + 1) 58) (demo_posed "Shotgun") =
            Fault IndexOutOfRange
  end.
Proof.
  exact (barrel_position_missing_bone (demo_posed "Shotgun") "Shotgun" "Weapon"
           (Vec3 0 (0 + 1) 58) 0%nat glock_model eq_refl eq_refl eq_refl eq_refl).
Defined.

Lemma barrel_position_safe_witness :
  exists v w', GetGlockBarrelPostion (demo_posed "Glock") = Ok (v, w').
Proof.
  apply (barrel_position_safe _ _ _ _ 0%nat glock_model);
    [reflexivity | reflexivity | apply (bool_decide_unpack _); vm_compute; reflexivity
    | simpl; lia | reflexivity].
Defined.

Lemma SetPosition_GetModelMatrix_witness :
  exists w' M, SetPosition (Vec3 1 2 3) demo_world = Ok (tt, w') /\
    GetModelMatrix w' = Ok (M, w') /\ translation_of M ≡₃ Vec3 1 2 3.
Proof.
  apply (SetPosition_GetModelMatrix demo_world 0%nat glock_model); reflexivity.
Defined.

Lemma barrel_position_idempotent_witness :
  exists v w',
    barrel_position "Shotgun" "Weapon" (Vec3 0 (0 + 1) 58) (demo_posed "Shotgun") = Ok (v, w') /\
    barrel_position "Shotgun" "Weapon" (Vec3 0 (0 + 1) 58) w' = Ok (v, w').
Proof.
  destruct (barrel_position "Shotgun" "Weapon" (Vec3 0 (0 + 1) 58) (demo_posed "Shotgun"))
    as [[v w']|e] eqn:E.
  - exists v, w'. split; [reflexivity|].
    exact (barrel_position_idempotent _ _ _ _ v w' E).
  - vm_compute in E. discriminate.
Defined.
