(* ===== verification/Soundness.v ===== *)
(** * Well-formed worlds: every public method returns and keeps them

    The C++ code has undefined behaviour at every dereference of a null or
    dangling pointer and at every out-of-range vector access. [world_wf]
    states the shape of a world in which none of these happens: the
    registry's models point at live clips and name live bones, the
    object's model pointer is null or live with the material table sized
    for it, the clip pointer is null or live, and a clip is only selected
    while a model is. This plays the role of a typing invariant: every
    public method that changes the object (the calls [call], run by
    [run_call]) returns from a well-formed world and leaves it well-formed
    (preservation and progress), the one exception being [PlayAnimation]
    without a model, whose null dereference is claim C10. Sequences of
    calls therefore never fault once a model is set. *)

From S2P Require Import Prelude CppStd Glm Assets GameObject Playback Pose Materials.

(** ** Well-formed worlds *)

Definition clip_live (w : World) : Prop :=
  forall p, _currentAnimation (w_self w) = Some p -> is_Some (g_animations (w_assets w) !! p).

Definition world_wf (w : World) : Prop :=
  assets_wf (w_assets w) /\ materials_sized w /\ clip_live w /\
  (is_Some (_currentAnimation (w_self w)) -> is_Some (_skinnedModel (w_self w))).

(** ** The public methods that change the object *)

Inductive call :=
  | CPlayAndLoopAnimation (animationName : string) (speed : Q)
  | CPlayAnimation (animationName : string) (speed : Q)
  | CPauseAnimation
  | CToggleAnimationPause
  | CUpdate (deltaTime : Q)
  | CSetSkinnedModel (name : string)
  | CSetMeshMaterial (meshName materialName : string)
  | CSetMeshMaterialByIndex (meshIndex : Z) (materialName : string)
  | CSetMaterial (materialName : string)
  | CSetName (name : string)
  | CSetPosition (position : vec3)
  | CSetScale (s : Q)
  | CSetRotationX (r : Q)
  | CSetRotationY (r : Q)
  | CSetRotationZ (r : Q)
  | CEnableMotionBlur
  | CDisableMotionBlur.

(** the precondition the code itself has: [PlayAnimation] dereferences
    [_skinnedModel] without a null check *)
Definition call_defined (w : World) (c : call) : Prop :=
  match c with CPlayAnimation _ _ => is_Some (_skinnedModel (w_self w)) | _ => True end.

Section Calls.
Context `{BoneSampler}.

Definition run_call (c : call) : Method unit :=
  match c with
  | CPlayAndLoopAnimation n s => PlayAndLoopAnimation n s
  | CPlayAnimation n s => PlayAnimation n s
  | CPauseAnimation => PauseAnimation
  | CToggleAnimationPause => ToggleAnimationPause
  | CUpdate dt => Update dt
  | CSetSkinnedModel n => SetSkinnedModel n
  | CSetMeshMaterial mn n => SetMeshMaterial mn n
  | CSetMeshMaterialByIndex i n => SetMeshMaterialByIndex i n
  | CSetMaterial n => SetMaterial n
  | CSetName n => SetName n
  | CSetPosition p => SetPosition p
  | CSetScale s => SetScale s
  | CSetRotationX r => SetRotationX r
  | CSetRotationY r => SetRotationY r
  | CSetRotationZ r => SetRotationZ r
  | CEnableMotionBlur => EnableMotionBlur
  | CDisableMotionBlur => DisableMotionBlur
  end.

(** a frame loop: the calls in order, stopping at the first fault *)
Fixpoint run_calls (cs : list call) : Method unit :=
  match cs with
  | [] => ret tt
  | c :: cs' => run_call c;; run_calls cs'
  end.

End Calls.

(** ** Helper lemmas *)

Lemma clip_by_name_elem A name ps p : clip_by_name A name ps = Some p -> p ∈ ps.
Proof.
  unfold clip_by_name. destruct (list_find _ ps) as [[i q]|] eqn:E; simpl; [|done].
  intros [= <-]. apply list_find_Some in E as (Hi & _). by eapply list_elem_of_lookup_2.
Qed.

(** a clip pointer of a model of a well-formed registry is live *)
Lemma model_clip_live A pm m p :
  assets_wf A -> g_skinnedModels A !! pm = Some m -> p ∈ m_animations m ->
  is_Some (g_animations A !! p).
Proof.
  intros HA Hm Hp. destruct (proj1 (Forall_lookup _ _) HA pm m Hm) as [Hc _].
  apply lookup_lt_is_Some_2. by apply (proj1 (Forall_forall _ _) Hc).
Qed.

(** the object may change, keeping its model and the size of its table,
    and selecting either the same clip or a clip of its model *)
Lemma world_wf_self w o' :
  world_wf w ->
  _skinnedModel o' = _skinnedModel (w_self w) ->
  length (_materialIndices o') = length (_materialIndices (w_self w)) ->
  (forall p, _currentAnimation o' = Some p ->
     _currentAnimation (w_self w) = Some p \/
     exists pm m, _skinnedModel (w_self w) = Some pm /\
                  g_skinnedModels (w_assets w) !! pm = Some m /\ p ∈ m_animations m) ->
  world_wf {| w with w_self := o' |}.
Proof.
  intros (HA & Hs & Hc & Hcm) Hm Hl Hp. cbn. split_and!; [done | | |].
  - intros p Hp'. cbn in Hp'. rewrite Hm in Hp'. destruct (Hs p Hp') as (m & Hm' & Hl').
    exists m. split; [done|]. cbn. by rewrite Hl.
  - intros p Hp'. cbn in Hp'. destruct (Hp p Hp') as [E | (pm & m & _ & Hpm & Hin)]; [by apply Hc|].
    by apply (model_clip_live _ pm m).
  - intros [p Hp']. cbn. rewrite Hm.
    destruct (Hp p Hp') as [E | (pm & m & E & _)]; [apply Hcm; by eexists | by eexists].
Qed.

Lemma world_wf_cout w l : world_wf w -> world_wf {| w with w_cout := l |}.
Proof. done. Qed.

(** the methods that rewrite one field of the object other than the model,
    the table and the clip *)
Ltac wf_self_tac :=
  match goal with
  | |- exists w', update_this ?f ?w = Ok (tt, w') /\ world_wf w' =>
      eexists; split; [reflexivity|];
      apply world_wf_self; [done | done | done | by left]
  end.

(** ** Progress and preservation, method by method *)

(** [m] returns from [w] into a well-formed world, and keeps a model set *)
Definition sound (m : Method unit) (w : World) : Prop :=
  exists w', m w = Ok (tt, w') /\ world_wf w' /\
    (is_Some (_skinnedModel (w_self w)) -> is_Some (_skinnedModel (w_self w'))).

Lemma sound_self m w o' :
  world_wf w -> m w = Ok (tt, {| w with w_self := o' |}) ->
  _skinnedModel o' = _skinnedModel (w_self w) ->
  length (_materialIndices o') = length (_materialIndices (w_self w)) ->
  (forall p, _currentAnimation o' = Some p ->
     _currentAnimation (w_self w) = Some p \/
     exists pm m, _skinnedModel (w_self w) = Some pm /\
                  g_skinnedModels (w_assets w) !! pm = Some m /\ p ∈ m_animations m) ->
  sound m w.
Proof.
  intros Hw Hr Hm Hl Hc. eexists. split_and!; [exact Hr | by apply world_wf_self |].
  cbn. by rewrite Hm.
Qed.

Lemma sound_same m w : world_wf w -> m w = Ok (tt, w) -> sound m w.
Proof. intros Hw Hr. by exists w. Qed.

Lemma sound_cout m w l : world_wf w -> m w = Ok (tt, {| w with w_cout := l |}) -> sound m w.
Proof. intros Hw Hr. by eexists. Qed.

(** the methods that rewrite one field other than the model, the table
    and the clip *)
Lemma update_this_sound f w :
  world_wf w -> _skinnedModel (f (w_self w)) = _skinnedModel (w_self w) ->
  _materialIndices (f (w_self w)) = _materialIndices (w_self w) ->
  _currentAnimation (f (w_self w)) = _currentAnimation (w_self w) ->
  sound (update_this f) w.
Proof.
  intros Hw Hm Ht Hc. apply (sound_self _ _ (f (w_self w))); [done | done | done | by rewrite Ht |].
  intros p Hp. left. by rewrite <- Hc.
Qed.

(** the model of [this] is live in a well-formed world *)
Lemma wf_model w p :
  world_wf w -> _skinnedModel (w_self w) = Some p ->
  exists m, g_skinnedModels (w_assets w) !! p = Some m /\ model_ready w m /\
            sized_model w m.
Proof.
  intros (HA & Hs & _) Hp. destruct (Hs p Hp) as (m & Hm & Hl).
  exists m. split_and!; [done | | by exists p].
  exists p. split_and!; [done | done |].
  exact (proj1 (proj1 (Forall_lookup _ _) HA p m Hm)).
Qed.

(** a play method that finds a clip of the model selects it, else prints *)
Lemma play_sound mm sel name w p m :
  world_wf w -> _skinnedModel (w_self w) = Some p -> g_skinnedModels (w_assets w) !! p = Some m ->
  (forall q o, _skinnedModel (sel q o) = _skinnedModel o /\
               _materialIndices (sel q o) = _materialIndices o /\
               _currentAnimation (sel q o) = Some q) ->
  mm w = Ok (tt, after_play w (clip_by_name (w_assets w) name (m_animations m)) sel name) ->
  sound mm w.
Proof.
  intros Hw Hp Hm Hsel Hr.
  destruct (clip_by_name (w_assets w) name (m_animations m)) as [q|] eqn:Hq; cbn [after_play].
  - destruct (Hsel q (w_self w)) as (E1 & E2 & E3).
    apply (sound_self _ _ (sel q (w_self w))); [done | by rewrite Hr; rewrite ?Hq | done | by rewrite E2 |].
    intros q' Hq'. right. exists p, m. split_and!; [done | done |].
    rewrite E3 in Hq'. injection Hq' as <-. by apply (clip_by_name_elem (w_assets w) name).
  - by apply (sound_cout _ _ (w_cout w ++ [not_found_line name])); [|rewrite Hr; rewrite ?Hq].
Qed.

Lemma select_looping_shape p speed o :
  _skinnedModel (select_looping p speed o) = _skinnedModel o /\
  _materialIndices (select_looping p speed o) = _materialIndices o /\
  _currentAnimation (select_looping p speed o) = Some p.
Proof. unfold select_looping. by case_decide. Qed.

Lemma advance_shape d dt o :
  _skinnedModel (advance d dt o) = _skinnedModel o /\
  _materialIndices (advance d dt o) = _materialIndices o.
Proof. by advance_cases. Qed.

Lemma SetSkinnedModel_sound name w : world_wf w -> sound (SetSkinnedModel name) w.
Proof.
  intros Hw. destruct (GetSkinnedModel (w_assets w) name) as [p|] eqn:Hg.
  - destruct (GetSkinnedModel_Some _ _ _ Hg) as (m & Hm & _).
    unfold sound, SetSkinnedModel. rewrite (bind_Ok _ _ _ _ _ (assets_run w)), Hg.
    cbv [bind deref_ptr deref ret]. rewrite Hm. eexists. split; [reflexivity|].
    destruct Hw as (HA & _ & Hc & _). split; [|by eauto].
    split_and!; [exact HA | | exact Hc | by eauto].
    intros p' [= <-]. exists m. split; [done|]. apply length_vec_resize.
  - eapply sound_cout; [done|]. unfold SetSkinnedModel.
    by rewrite (bind_Ok _ _ _ _ _ (assets_run w)), Hg.
Qed.

(** a mesh loop or an indexed write rewrites the table with one of the
    same length *)
Lemma with_table_sound mm w l :
  world_wf w -> mm w = Ok (tt, with_table w l) ->
  length l = length (_materialIndices (w_self w)) -> sound mm w.
Proof.
  intros Hw Hr Hl.
  apply (sound_self _ _ (let o := w_self w in {| o with _materialIndices := l |}));
    [done | exact Hr | done | done | by left].
Qed.

Lemma material_calls_sound meshName materialName meshIndex w :
  world_wf w ->
  sound (SetMeshMaterial meshName materialName) w /\
  sound (SetMeshMaterialByIndex meshIndex materialName) w /\
  sound (SetMaterial materialName) w.
Proof.
  intros Hw. destruct (_skinnedModel (w_self w)) as [p|] eqn:Hp.
  - destruct (wf_model w p Hw Hp) as (m & Hm & _ & Hs). pose proof Hs as (_ & _ & _ & Hl).
    split_and!.
    + eapply with_table_sound; [done | by apply SetMeshMaterial_run |].
      rewrite length_bind_selected; congruence.
    + destruct (decide (0 <= meshIndex /\
                        meshIndex < Z.of_nat (length (_materialIndices (w_self w))))%Z).
      * eapply with_table_sound; [done | | apply length_insert].
        rewrite SetMeshMaterialByIndex_run by (rewrite Hp; eauto). by rewrite decide_True.
      * apply sound_same; [done|].
        rewrite SetMeshMaterialByIndex_run by (rewrite Hp; eauto). by rewrite decide_False.
    + eapply with_table_sound; [done | by apply SetMaterial_run |].
      rewrite length_bind_selected; congruence.
  - split_and!; apply sound_same; [done | | done | | done |];
      cbv [SetMeshMaterial SetMeshMaterialByIndex SetMaterial bind this get ret]; by rewrite Hp.
Qed.

Section Sound.
Context `{BoneSampler}.

Lemma Update_sound dt w : world_wf w -> sound (Update dt) w.
Proof.
  intros Hw. destruct (_currentAnimation (w_self w)) as [pa|] eqn:Hc.
  - pose proof Hw as (_ & _ & Hlive & Hcm).
    destruct (Hcm ltac:(by rewrite Hc)) as [p Hp].
    destruct (wf_model w p Hw Hp) as (m & Hm & _).
    destruct (Hlive pa Hc) as [a Ha].
    apply (sound_self _ _ (sampled m a (advance (clip_duration a) dt (w_self w)))); [done | | | |].
    + apply (Update_run w m a pa dt); [by exists p, pa; split_and! | done].
    + apply advance_shape.
    + cbn. f_equal. apply advance_shape.
    + intros q Hq. left. cbn in Hq. by rewrite advance_currentAnimation in Hq.
  - apply sound_same; [done|]. unfold Update. by rewrite (bind_Ok _ _ _ _ _ (this_run w)), Hc.
Qed.

(** every call whose precondition holds returns from a well-formed world
    into a well-formed world, and keeps a model set *)
Lemma run_call_sound c w : world_wf w -> call_defined w c -> sound (run_call c) w.
Proof.
  intros Hw Hd. destruct c as [n s|n s| | |dt|n|mn n|i n|n|n|v|s|r|r|r| |];
    cbn [run_call call_defined] in *;
    try (apply update_this_sound; [done | reflexivity..]).
  - destruct (_skinnedModel (w_self w)) as [p|] eqn:Hp.
    + destruct (wf_model w p Hw Hp) as (m & Hm & Hr & _).
      apply (play_sound _ (fun q => select_looping q s) n w p m); [done..| |].
      * intros q o. apply select_looping_shape.
      * by apply PlayAndLoopAnimation_run.
    + by apply sound_same, PlayAndLoopAnimation_null.
  - destruct Hd as [p Hp]. destruct (wf_model w p Hw Hp) as (m & Hm & Hr & _).
    apply (play_sound _ (fun q => select_once q s) n w p m); [done..| |].
    + intros q o. by split_and!.
    + by apply PlayAnimation_run.
  - by apply Update_sound.
  - by apply SetSkinnedModel_sound.
  - by apply (material_calls_sound mn n 0).
  - by apply (material_calls_sound "" n i).
  - by apply (material_calls_sound "" n 0).
Qed.

(** sequences of calls, by induction on the sequence *)
Lemma run_calls_wf cs w :
  world_wf w -> is_Some (_skinnedModel (w_self w)) ->
  exists w', run_calls cs w = Ok (tt, w') /\ world_wf w' /\ is_Some (_skinnedModel (w_self w')).
Proof.
  revert w. induction cs as [|c cs IH]; intros w Hw Hm; [by exists w|].
  destruct (run_call_sound c w Hw) as (w1 & Hr & Hw1 & Hm1);
    [by destruct c; cbn|].
  destruct (IH w1 Hw1 (Hm1 Hm)) as (w2 & Hr2 & Hw2 & Hm2).
  exists w2. cbn [run_calls]. by rewrite (bind_Ok _ _ _ _ _ Hr).
Qed.

(** C40. Soundness of the class's mutating interface: from a well-formed
    world with a model set, every sequence of public method calls returns
    (no null or dangling dereference, no out-of-range access) and ends in
    a well-formed world with a model set. *)
Theorem run_calls_sound cs w :
  world_wf w -> is_Some (_skinnedModel (w_self w)) ->
  exists w', run_calls cs w = Ok (tt, w') /\ world_wf w' /\ is_Some (_skinnedModel (w_self w')).
Proof. exact (run_calls_wf cs w). Qed.

End Sound.

(** ** A frame loop on [demo_world], for the witness

    With the sampler [Pose.demo_sampler]: play "Fire" once, tick 1 s,
    rebind the body mesh, pause and resume, tick past the end, rebind the
    model and switch to the looping "Idle" clip. *)

Definition demo_calls : list call :=
  [CPlayAnimation "Fire" 1; CUpdate 1; CSetMeshMaterial "Body" "Metal";
   CToggleAnimationPause; CToggleAnimationPause; CUpdate 2;
   CSetSkinnedModel "Glock"; CPlayAndLoopAnimation "Idle" 2; CUpdate (1#2)].

Lemma demo_world_wf : world_wf demo_world.
Proof.
  split_and!.
  - constructor; [split | constructor].
    + apply Forall_forall. intros p Hp. cbn. apply list_elem_of_lookup_1 in Hp as [i Hi].
      destruct i as [|[|i]]; cbn in Hi; simplify_eq; lia.
    + apply (bool_decide_unpack _). vm_compute. reflexivity.
  - intros p [= <-]. by exists glock_model.
  - by intros p [=].
  - by intros [? [=]].
Qed.

Lemma run_calls_sound_witness :
  exists w', run_calls demo_calls demo_world = Ok (tt, w') /\ world_wf w' /\
    is_Some (_skinnedModel (w_self w')).
Proof. apply run_calls_sound; [apply demo_world_wf | by eexists]. Defined.
