(* ===== verification/PlaybackSpec.v ===== *)
(** * The spec's playback state machine, and its refinement by the code

    Section 4.1 of the spec describes playback as a machine with the states
    NoClip, Playing, Paused and Completed (Completed implies Paused and not
    looping) and the operations PlayLooping, PlayOnce, Pause, TogglePause
    and Tick. This file states that machine as the inductive step relation
    [astep] on [AState], and the methods of [AnimatedGameObject] as the
    labelled step relation [cstep] on worlds: every call of a public method
    that returns (does not fault) is a step, labelled with the abstract
    event it performs.

    The abstraction [abs] reads the current clip and the three flags of the
    object; it is partial: an object that is complete but not paused, or
    complete and looping, is no state of the spec. The refinement theorem
    shows that every concrete step from a state of the spec whose time is
    within its clip is an abstract step of the same label, except
    [ToggleAnimationPause] on a completed clip, which leaves the spec's
    state space (complete and running); traces of steps refine traces of
    the abstract machine. The part of the spec's invariant the code keeps
    under every method, [complete -> not looping], is proved for all
    reachable worlds by rule induction. *)

From S2P Require Import Prelude CppStd Glm Assets GameObject Playback Pose Materials.

(** ** The abstract machine of the spec *)

Inductive phase := Playing | Paused | Completed.

#[export] Instance phase_eq_dec : EqDecision phase.
Proof. solve_decision. Defined.

Inductive AState :=
  | NoClip
  | Clip (p : AnimationPtr) (ph : phase) (looping : bool).

#[export] Instance AState_eq_dec : EqDecision AState.
Proof. solve_decision. Defined.

Inductive event :=
  | EPlayLoop (p : AnimationPtr)
  | EPlayOnce (p : AnimationPtr)
  | ENotFound
  | EPause
  | EToggle
  | ETick
  | EOther.

(** the spec's states: Completed is never looping *)
Definition astate_wf (s : AState) : Prop :=
  match s with Clip _ Completed true => False | _ => True end.

(** Pause of a clip: Playing becomes Paused, Completed stays *)
Definition pause_phase (ph : phase) : phase :=
  match ph with Playing => Paused | ph => ph end.

(** PlayLooping of the current clip: complete is cleared, pause is kept *)
Definition reselect_phase (ph : phase) : phase :=
  match ph with Playing => Playing | _ => Paused end.

Inductive astep : AState -> event -> AState -> Prop :=
  | as_loop_noclip p : astep NoClip (EPlayLoop p) (Clip p Playing true)
  | as_loop_other q ph l p : q <> p -> astep (Clip q ph l) (EPlayLoop p) (Clip p Playing true)
  | as_loop_same p ph l : astep (Clip p ph l) (EPlayLoop p) (Clip p (reselect_phase ph) true)
  | as_once s p : astep s (EPlayOnce p) (Clip p Playing false)
  | as_not_found s : astep s ENotFound s
  | as_pause_noclip : astep NoClip EPause NoClip
  | as_pause p ph l : astep (Clip p ph l) EPause (Clip p (pause_phase ph) l)
  | as_toggle_noclip : astep NoClip EToggle NoClip
  | as_toggle_playing p l : astep (Clip p Playing l) EToggle (Clip p Paused l)
  | as_toggle_paused p l : astep (Clip p Paused l) EToggle (Clip p Playing l)
  | as_tick_noclip : astep NoClip ETick NoClip
  | as_tick_playing p l : astep (Clip p Playing l) ETick (Clip p Playing l)
  | as_tick_complete p : astep (Clip p Playing false) ETick (Clip p Completed false)
  | as_tick_paused p l : astep (Clip p Paused l) ETick (Clip p Paused l)
  | as_tick_completed p : astep (Clip p Completed false) ETick (Clip p Completed false)
  | as_other s : astep s EOther s.

Inductive asteps : AState -> list event -> AState -> Prop :=
  | asteps_nil s : asteps s [] s
  | asteps_cons s e s1 es s2 : astep s e s1 -> asteps s1 es s2 -> asteps s (e :: es) s2.

#[export] Hint Constructors astep asteps : anim.

(** the two rules whose target phase is computed, with the phase as an
    equation so that [eapply] need not invert [pause_phase] *)
Lemma as_pause_eq p ph l ph' : ph' = pause_phase ph -> astep (Clip p ph l) EPause (Clip p ph' l).
Proof. intros ->. constructor. Qed.

Lemma as_loop_same_eq p ph l ph' :
  ph' = reselect_phase ph -> astep (Clip p ph l) (EPlayLoop p) (Clip p ph' true).
Proof. intros ->. constructor. Qed.

(** ** The abstraction of the object *)

Definition abs (o : AnimatedGameObject) : option AState :=
  match _currentAnimation o with
  | None => if _animationIsComplete o then None else Some NoClip
  | Some p =>
      if _animationIsComplete o then
        if _animationPaused o && negb (_loopAnimation o) then Some (Clip p Completed false)
        else None
      else Some (Clip p (if _animationPaused o then Paused else Playing) (_loopAnimation o))
  end.

(** every clip of the registry has a non-negative length and rate *)
Definition clips_ok (A : Assets) : Prop :=
  Forall (fun a => 0 <= m_duration a /\ 0 <= m_ticksPerSecond a) (g_animations A).

(** the time has not passed the end of the current clip *)
Definition time_within (A : Assets) (o : AnimatedGameObject) : Prop :=
  forall p a, _currentAnimation o = Some p -> g_animations A !! p = Some a ->
    fgt (_currentAnimationTime o) (clip_duration a) = false.

(** the model [this] designates, if any *)
Definition model_of (w : World) : option SkinnedModel :=
  _skinnedModel (w_self w) ≫= fun p => g_skinnedModels (w_assets w) !! p.

(** the clip a play method finds *)
Definition clip_found (w : World) (name : string) : option AnimationPtr :=
  model_of w ≫= fun m => clip_by_name (w_assets w) name (m_animations m).

Definition loop_event (w : World) (name : string) : event :=
  match clip_found w name with Some p => EPlayLoop p | None => ENotFound end.

Definition once_event (w : World) (name : string) : event :=
  match clip_found w name with Some p => EPlayOnce p | None => ENotFound end.

(** ** Frame conditions

    [frame w w']: the registry and the fields the state machine reads are
    the same; [keeps m]: every run of [m] that returns is a [frame]. *)

Definition same_playback (o o' : AnimatedGameObject) : Prop :=
  _currentAnimation o' = _currentAnimation o /\
  _currentAnimationTime o' = _currentAnimationTime o /\
  _animationPaused o' = _animationPaused o /\
  _loopAnimation o' = _loopAnimation o /\
  _animationIsComplete o' = _animationIsComplete o.

Definition frame (w w' : World) : Prop :=
  w_assets w' = w_assets w /\ same_playback (w_self w) (w_self w').

Definition keeps {A} (m : Method A) : Prop :=
  forall w a w', m w = Ok (a, w') -> frame w w'.

#[export] Instance same_playback_preorder : PreOrder same_playback.
Proof.
  split; [by intros o; split_and!|].
  intros o1 o2 o3 (? & ? & ? & ? & ?) (? & ? & ? & ? & ?). split_and!; congruence.
Qed.

#[export] Instance frame_preorder : PreOrder frame.
Proof.
  split; [by intros w; split; [|reflexivity]|].
  intros w1 w2 w3 [? ?] [? ?]. split; [congruence | by etrans].
Qed.

Lemma keeps_ret {A} (a : A) : keeps (ret a).
Proof. by intros w ? w' [= _ <-]. Qed.

Lemma keeps_get : keeps get.
Proof. by intros w ? w' [= _ <-]. Qed.

Lemma keeps_fault {A} e : keeps (fault (A:=A) e).
Proof. done. Qed.

Lemma keeps_bind {A B} (m : Method A) (k : A -> Method B) :
  keeps m -> (forall a, keeps (k a)) -> keeps (bind m k).
Proof.
  intros Hm Hk w b w'' H. apply bind_Ok_inv in H as (a & w' & H1 & H2).
  etrans; [exact (Hm _ _ _ H1) | exact (Hk _ _ _ _ H2)].
Qed.

Lemma keeps_update_this f : (forall o, same_playback o (f o)) -> keeps (update_this f).
Proof. intros Hf w ? w' [= _ <-]. split; [done | apply Hf]. Qed.

Lemma keeps_cout s : keeps (cout s).
Proof. intros w ? w' [= _ <-]. split; [done | reflexivity]. Qed.

Lemma keeps_for_each_idx {A} i (l : list A) body :
  (forall i x, keeps (body i x)) -> keeps (for_each_idx i l body).
Proof.
  intros Hb w [] w'. apply (for_each_idx_post (frame w)); [|reflexivity].
  intros j x s s' Hs Hrun. etrans; [exact Hs | exact (Hb _ _ _ _ _ Hrun)].
Qed.

(** prove [keeps m] for a method built from the accessors *)
Ltac keeps_tac :=
  repeat first
    [ apply keeps_bind; [|intros ?]
    | apply keeps_ret | apply keeps_get | apply keeps_fault | apply keeps_cout
    | apply keeps_for_each_idx; intros ??
    | apply keeps_update_this; intros ?; by split_and!
    | progress cbv beta delta [this assets this_skinnedModel this_currentAnimation
                               deref_ptr deref]
    | match goal with |- keeps (match ?x with _ => _ end) => destruct x end
    | match goal with |- keeps (if ?b then _ else _) => destruct b end ].

Lemma keeps_set_material_index i v : keeps (set_material_index i v).
Proof. unfold set_material_index. keeps_tac. Qed.

Lemma keeps_material_body sel materialName i mesh :
  keeps (material_body sel materialName i mesh).
Proof. unfold material_body. keeps_tac; apply keeps_set_material_index. Qed.

#[export] Hint Resolve keeps_set_material_index keeps_material_body : anim.

Lemma keeps_SetSkinnedModel name : keeps (SetSkinnedModel name).
Proof. unfold SetSkinnedModel. keeps_tac. Qed.

Lemma keeps_SetMeshMaterial meshName materialName :
  keeps (SetMeshMaterial meshName materialName).
Proof. unfold SetMeshMaterial. keeps_tac; auto with anim. Qed.

Lemma keeps_SetMeshMaterialByIndex meshIndex materialName :
  keeps (SetMeshMaterialByIndex meshIndex materialName).
Proof. unfold SetMeshMaterialByIndex. keeps_tac; auto with anim. Qed.

Lemma keeps_SetMaterial materialName : keeps (SetMaterial materialName).
Proof. unfold SetMaterial. keeps_tac; auto with anim. Qed.

(** the public methods that do not touch the state machine *)
Inductive other_method : Method unit -> Prop :=
  | om_SetSkinnedModel name : other_method (SetSkinnedModel name)
  | om_SetMeshMaterial meshName materialName :
      other_method (SetMeshMaterial meshName materialName)
  | om_SetMeshMaterialByIndex meshIndex materialName :
      other_method (SetMeshMaterialByIndex meshIndex materialName)
  | om_SetMaterial materialName : other_method (SetMaterial materialName)
  | om_SetName name : other_method (SetName name)
  | om_SetPosition p : other_method (SetPosition p)
  | om_SetScale sc : other_method (SetScale sc)
  | om_SetRotationX r : other_method (SetRotationX r)
  | om_SetRotationY r : other_method (SetRotationY r)
  | om_SetRotationZ r : other_method (SetRotationZ r)
  | om_EnableMotionBlur : other_method EnableMotionBlur
  | om_DisableMotionBlur : other_method DisableMotionBlur.

(** the public queries *)
Inductive query_method : forall {A}, Method A -> Prop :=
  | qm_GetName : query_method GetName
  | qm_IsAnimationComplete : query_method IsAnimationComplete
  | qm_AnimationIsPastPercentage percent : query_method (AnimationIsPastPercentage percent).

Lemma other_method_keeps m : other_method m -> keeps m.
Proof.
  destruct 1;
    first [ apply keeps_SetSkinnedModel | apply keeps_SetMeshMaterial
          | apply keeps_SetMeshMaterialByIndex | apply keeps_SetMaterial
          | cbv delta [SetName SetPosition SetScale SetRotationX SetRotationY SetRotationZ
                       EnableMotionBlur DisableMotionBlur]; keeps_tac ].
Qed.

Lemma query_method_keeps {A} (m : Method A) : query_method m -> keeps m.
Proof.
  destruct 1; cbv delta [GetName IsAnimationComplete AnimationIsPastPercentage]; keeps_tac.
Qed.

(** ** The play methods and the tick, run to completion *)

Lemma find_animation_ok A name ps w r w' :
  find_animation A name ps w = Ok (r, w') -> r = clip_by_name A name ps /\ w' = w.
Proof.
  unfold clip_by_name. revert w. induction ps as [|p ps IH]; intros w H.
  - by injection H as <- <-.
  - cbn [find_animation] in H. apply bind_Ok_inv in H as (a & w1 & H1 & H).
    cbv [deref_ptr deref ret fault] in H1.
    destruct (g_animations A !! p) as [a'|] eqn:Ha; [|done]. injection H1 as <- <-.
    simpl. rewrite Ha. simpl. case_decide; case_decide; try congruence.
    + by injection H as <- <-.
    + destruct (IH w H) as [-> ->]. by destruct (list_find _ ps) as [[]|].
Qed.

(** run a method's [this], [assets] and model dereference in hypothesis [H] *)
Ltac run_prologue H :=
  repeat match type of H with
  | bind this _ _ = Ok _ => apply bind_Ok_inv in H as (? & ? & [= <- <-] & H)
  | bind assets _ _ = Ok _ => apply bind_Ok_inv in H as (? & ? & [= <- <-] & H)
  end.

Lemma this_skinnedModel_ok w m w' :
  this_skinnedModel w = Ok (m, w') -> model_of w = Some m /\ w' = w.
Proof.
  unfold model_of. unfold_accessors. destruct (_skinnedModel _); [|done]. simpl.
  by destruct (_ !! _); [intros [= <- <-] | ].
Qed.

Lemma PlayAndLoopAnimation_ok name speed w w' :
  PlayAndLoopAnimation name speed w = Ok (tt, w') ->
  w_assets w' = w_assets w /\
  w_self w' = match clip_found w name with
              | Some p => select_looping p speed (w_self w)
              | None => w_self w
              end.
Proof.
  unfold PlayAndLoopAnimation, clip_found. intros H. run_prologue H.
  destruct (_skinnedModel (w_self w)) eqn:Hp.
  - apply bind_Ok_inv in H as (m & w1 & H1 & H).
    apply this_skinnedModel_ok in H1 as [-> ->]. simpl. run_prologue H.
    apply bind_Ok_inv in H as (r & w2 & H2 & H). apply find_animation_ok in H2 as [-> ->].
    by destruct (clip_by_name _ _ _); injection H as <-.
  - unfold model_of. rewrite Hp. by injection H as <-.
Qed.

Lemma PlayAnimation_ok name speed w w' :
  PlayAnimation name speed w = Ok (tt, w') ->
  w_assets w' = w_assets w /\
  w_self w' = match clip_found w name with
              | Some p => select_once p speed (w_self w)
              | None => w_self w
              end.
Proof.
  unfold PlayAnimation, clip_found. intros H.
  apply bind_Ok_inv in H as (m & w1 & H1 & H).
  apply this_skinnedModel_ok in H1 as [-> ->]. simpl. run_prologue H.
  apply bind_Ok_inv in H as (r & w2 & H2 & H). apply find_animation_ok in H2 as [-> ->].
  by destruct (clip_by_name _ _ _); injection H as <-.
Qed.

Section Tick.
Context `{BoneSampler}.

Lemma keeps_CalculateBoneTransforms : keeps CalculateBoneTransforms.
Proof. unfold CalculateBoneTransforms. keeps_tac. Qed.

Lemma Update_ok dt w w' :
  Update dt w = Ok (tt, w') ->
  w_assets w' = w_assets w /\
  match _currentAnimation (w_self w) with
  | None => w_self w' = w_self w
  | Some p => exists a, g_animations (w_assets w) !! p = Some a /\
                same_playback (advance (clip_duration a) dt (w_self w)) (w_self w')
  end.
Proof.
  unfold Update. intros Hr. run_prologue Hr.
  destruct (_currentAnimation (w_self w)) as [p|] eqn:Hp; [|by injection Hr as <-].
  apply bind_Ok_inv in Hr as ([] & w1 & H1 & Hr).
  unfold UpdateAnimation in H1. apply bind_Ok_inv in H1 as (a & w2 & H2 & H1).
  cbv beta iota delta [this_currentAnimation this assets bind get ret deref_ptr deref fault] in H2.
  rewrite Hp in H2.
  destruct (g_animations _ !! p) as [a'|] eqn:Ha; [|done]. injection H2 as <- <-.
  injection H1 as <-. destruct (keeps_CalculateBoneTransforms _ _ _ Hr) as [E1 E2].
  split; [done|]. by exists a'.
Qed.
End Tick.

(** ** Each operation, seen through [abs] *)

Lemma abs_same o o' : same_playback o o' -> abs o' = abs o.
Proof. intros (E1 & E2 & E3 & E4 & E5). unfold abs. by rewrite E1, E3, E4, E5. Qed.

Lemma time_within_same A o o' :
  same_playback o o' -> time_within A o -> time_within A o'.
Proof. intros (E1 & E2 & _) Ht p a Hp Ha. rewrite E2. apply (Ht p); congruence. Qed.

(** a clip of a well-formed registry starts within itself *)
Lemma clip_start_within A p a :
  clips_ok A -> g_animations A !! p = Some a -> fgt 0 (clip_duration a) = false.
Proof.
  intros Hok Ha. destruct (proj1 (Forall_lookup _ _) Hok p a Ha).
  by apply fgt_nonneg_duration.
Qed.

Lemma advance_within d dt o :
  fgt 0 d = false -> fgt (_currentAnimationTime (advance d dt o)) d = false.
Proof. intros H0. advance_cases; done. Qed.

Lemma abs_select_looping p speed o s :
  abs o = Some s -> exists s', abs (select_looping p speed o) = Some s' /\ astep s (EPlayLoop p) s'.
Proof.
  unfold abs, select_looping. intros Hs. case_decide as Hc; simpl.
  - rewrite Hc in Hs. eexists. split; [reflexivity|].
    destruct (_animationIsComplete o), (_animationPaused o), (_loopAnimation o);
      simplify_eq/=; apply (as_loop_same p).
  - eexists. split; [reflexivity|].
    destruct (_currentAnimation o) as [q|]; [|destruct (_animationIsComplete o); simplify_eq; constructor].
    assert (q <> p) by congruence.
    destruct (_animationIsComplete o), (_animationPaused o), (_loopAnimation o);
      simplify_eq/=; by constructor.
Qed.

Lemma abs_select_once p speed o s :
  abs o = Some s -> abs (select_once p speed o) = Some (Clip p Playing false) /\
                    astep s (EPlayOnce p) (Clip p Playing false).
Proof. intros _. split; [reflexivity | constructor]. Qed.

(** close a goal [exists s', abs o' = Some s' /\ astep s e s'] once every
    flag of the object is a constructor *)
Ltac flag_cases o :=
  repeat (cbn; first
    [ match goal with H : ?f o = _ |- context [?f o] => rewrite H end
    | match goal with |- context [_animationPaused o] => destruct (_animationPaused o) eqn:? end
    | match goal with |- context [_loopAnimation o] => destruct (_loopAnimation o) eqn:? end
    | match goal with |- context [_animationIsComplete o] =>
        destruct (_animationIsComplete o) eqn:? end ]).

Ltac abs_step_tac o :=
  flag_cases o; repeat (case_match; flag_cases o); intros; simplify_eq/=; try congruence;
  (eexists; split;
   [reflexivity | first [constructor | by eapply as_pause_eq | by eapply as_loop_same_eq]]).

Lemma abs_pause o s :
  abs o = Some s ->
  exists s', abs {| o with _animationPaused := true |} = Some s' /\ astep s EPause s'.
Proof. unfold abs. cbn. revert s. abs_step_tac o. Qed.

Lemma abs_toggle o s :
  _animationIsComplete o = false -> abs o = Some s ->
  exists s', abs {| o with _animationPaused := negb (_animationPaused o) |} = Some s' /\
             astep s EToggle s'.
Proof. unfold abs. cbn. revert s. abs_step_tac o. Qed.

Lemma abs_advance d dt o p s :
  _currentAnimation o = Some p -> abs o = Some s ->
  fgt (_currentAnimationTime o) d = false ->
  exists s', abs (advance d dt o) = Some s' /\ astep s ETick s'.
Proof. unfold abs, advance. intros Hp. revert s. abs_step_tac o. Qed.

(** ** The time stays within the clip *)

Lemma time_within_select_looping A p speed o :
  clips_ok A -> time_within A o -> time_within A (select_looping p speed o).
Proof.
  intros Hok Ht q a. unfold select_looping. case_decide as Hc; cbn; intros [= <-] Ha.
  - by apply (Ht p).
  - by apply (clip_start_within A p).
Qed.

Lemma time_within_select_once A p speed o :
  clips_ok A -> time_within A (select_once p speed o).
Proof. intros Hok q a [= <-] Ha. by apply (clip_start_within A p). Qed.

(** ** The methods as a labelled step relation on worlds *)

Section Machine.
Context `{BoneSampler}.

Inductive cstep : World -> event -> World -> Prop :=
  | cs_PlayAndLoopAnimation name speed w w' :
      PlayAndLoopAnimation name speed w = Ok (tt, w') -> cstep w (loop_event w name) w'
  | cs_PlayAnimation name speed w w' :
      PlayAnimation name speed w = Ok (tt, w') -> cstep w (once_event w name) w'
  | cs_PauseAnimation w w' : PauseAnimation w = Ok (tt, w') -> cstep w EPause w'
  | cs_ToggleAnimationPause w w' : ToggleAnimationPause w = Ok (tt, w') -> cstep w EToggle w'
  | cs_Update dt w w' : Update dt w = Ok (tt, w') -> cstep w ETick w'
  | cs_other m w w' : other_method m -> m w = Ok (tt, w') -> cstep w EOther w'
  | cs_query {A} (m : Method A) w a w' : query_method m -> m w = Ok (a, w') -> cstep w EOther w'.

(** the spec's domain of TogglePause: a clip that is not completed *)
Definition spec_guard (w : World) (e : event) : Prop :=
  e = EToggle -> _animationIsComplete (w_self w) = false.

(** any sequence of method calls that return *)
Inductive csteps : World -> list event -> World -> Prop :=
  | csteps_nil w : csteps w [] w
  | csteps_cons w e w1 es w2 : cstep w e w1 -> csteps w1 es w2 -> csteps w (e :: es) w2.

(** the sequences that stay in the spec's domain *)
Inductive gsteps : World -> list event -> World -> Prop :=
  | gsteps_nil w : gsteps w [] w
  | gsteps_cons w e w1 es w2 :
      cstep w e w1 -> spec_guard w e -> gsteps w1 es w2 -> gsteps w (e :: es) w2.

(** what one step must satisfy: the registry is unchanged, the time stays
    within the clip, and the abstract state moves by an [astep] *)
Definition refines_to (w : World) (e : event) (w' : World) : Prop :=
  w_assets w' = w_assets w /\ time_within (w_assets w') (w_self w') /\
  forall s, abs (w_self w) = Some s -> exists s', abs (w_self w') = Some s' /\ astep s e s'.

Lemma frame_refines w w' :
  frame w w' -> time_within (w_assets w) (w_self w) -> refines_to w EOther w'.
Proof.
  intros [HA Hs] Ht. split_and!; [done | rewrite HA; by eapply time_within_same|].
  intros s E. exists s. rewrite (abs_same _ _ Hs). split; [done | constructor].
Qed.

Lemma PlayAndLoopAnimation_refines name speed w w' :
  clips_ok (w_assets w) -> time_within (w_assets w) (w_self w) ->
  PlayAndLoopAnimation name speed w = Ok (tt, w') -> refines_to w (loop_event w name) w'.
Proof.
  intros Hok Ht Hr. apply PlayAndLoopAnimation_ok in Hr as [HA Hs].
  unfold loop_event. split_and!; [done | rewrite HA, Hs |]; destruct (clip_found w name).
  - by apply time_within_select_looping.
  - done.
  - rewrite Hs. apply abs_select_looping.
  - rewrite Hs. intros s ->. eexists. split; [done | constructor].
Qed.

Lemma PlayAnimation_refines name speed w w' :
  clips_ok (w_assets w) -> time_within (w_assets w) (w_self w) ->
  PlayAnimation name speed w = Ok (tt, w') -> refines_to w (once_event w name) w'.
Proof.
  intros Hok Ht Hr. apply PlayAnimation_ok in Hr as [HA Hs].
  unfold once_event. split_and!; [done | rewrite HA, Hs |]; destruct (clip_found w name).
  - by apply time_within_select_once.
  - done.
  - rewrite Hs. intros s Hs0. eexists. apply (abs_select_once _ speed _ _ Hs0).
  - rewrite Hs. intros s ->. eexists. split; [done | constructor].
Qed.

Lemma Update_refines dt w w' :
  clips_ok (w_assets w) -> time_within (w_assets w) (w_self w) ->
  Update dt w = Ok (tt, w') -> refines_to w ETick w'.
Proof.
  intros Hok Ht Hr. apply Update_ok in Hr as [HA Hr]. split_and!; [done | |].
  - rewrite HA. destruct (_currentAnimation (w_self w)) as [p|] eqn:Hp.
    + destruct Hr as (a & Ha & Hs). apply (time_within_same (w_assets w) _ _ Hs).
      intros q a' Hq Ha'. rewrite advance_currentAnimation, Hp in Hq. simplify_eq.
      apply advance_within, (clip_start_within (w_assets w) q); done.
    + rewrite Hr. intros q a. by rewrite Hp.
  - intros s Hs0. destruct (_currentAnimation (w_self w)) as [p|] eqn:Hp.
    + destruct Hr as (a & Ha & Hs). rewrite (abs_same _ _ Hs).
      apply (abs_advance _ _ _ p); [done | done | by apply (Ht p)].
    + rewrite Hr, Hs0. eexists. split; [done|].
      unfold abs in Hs0. rewrite Hp in Hs0. destruct (_animationIsComplete _); simplify_eq.
      constructor.
Qed.

Lemma update_this_inv f w w' :
  update_this f w = Ok (tt, w') -> w' = {| w with w_self := f (w_self w) |}.
Proof. by intros [= <-]. Qed.

(** the refinement: from a state of the spec whose time is within its
    clip, every step of the code within the spec's domain is a step of
    the spec with the same label *)
Lemma cstep_refines w e w' :
  clips_ok (w_assets w) -> time_within (w_assets w) (w_self w) ->
  cstep w e w' -> spec_guard w e -> refines_to w e w'.
Proof.
  intros Hok Ht Hs Hg. destruct Hs as [| | w w' Hr | w w' Hr | dt w w' Hr | m w w' Hm Hr
                                     | A m w a w' Hm Hr].
  - by apply (PlayAndLoopAnimation_refines _ speed).
  - by apply (PlayAnimation_refines _ speed).
  - apply update_this_inv in Hr as ->. split_and!; [done | exact Ht |].
    apply abs_pause.
  - apply update_this_inv in Hr as ->. split_and!; [done | exact Ht |].
    intros s. apply abs_toggle. by apply Hg.
  - by apply (Update_refines dt).
  - apply frame_refines; [exact (other_method_keeps m Hm _ tt _ Hr) | done].
  - apply frame_refines; [exact (query_method_keeps m Hm _ a _ Hr) | done].
Qed.

(** ** Abstract facts used by the corollaries *)

(** the spec's looping states: no clip, or a looping clip that is not
    completed *)
Definition looping_state (s : AState) : Prop :=
  match s with NoClip => True | Clip _ ph l => l = true /\ ph <> Completed end.

Lemma astep_looping s e s' :
  looping_state s -> astep s e s' -> (forall p, e <> EPlayOnce p) -> looping_state s'.
Proof.
  intros Hl Hs He. destruct Hs; cbn in *; try destruct ph; cbn in *;
    try (by exfalso; eapply He); intuition congruence.
Qed.

(** the events that are not a play or a toggle *)
Definition passive (e : event) : Prop := e = ETick \/ e = EPause \/ e = ENotFound \/ e = EOther.

Lemma astep_completed p e s' :
  astep (Clip p Completed false) e s' -> passive e -> s' = Clip p Completed false.
Proof. unfold passive. inversion 1; intuition congruence. Qed.

Lemma abs_complete_false o s :
  abs o = Some s -> (forall p, s <> Clip p Completed false) -> _animationIsComplete o = false.
Proof.
  unfold abs. intros Hs Hn. destruct (_currentAnimation o) as [p|], (_animationIsComplete o),
    (_animationPaused o), (_loopAnimation o); simplify_eq/=; try done; exfalso; by eapply Hn.
Qed.

Lemma abs_completed o p :
  abs o = Some (Clip p Completed false) <->
  _currentAnimation o = Some p /\ _animationIsComplete o = true /\
  _animationPaused o = true /\ _loopAnimation o = false.
Proof.
  unfold abs. split; [|by intros (-> & -> & -> & ->)].
  destruct (_currentAnimation o), (_animationIsComplete o), (_animationPaused o),
    (_loopAnimation o); intros ?; simplify_eq/=; by split_and!.
Qed.

(** no tick clears [_animationIsComplete] *)
Lemma advance_all_complete d dts o :
  _animationIsComplete o = true -> _animationIsComplete (advance_all d dts o) = true.
Proof.
  revert o. induction dts as [|dt dts IH]; intros o Hc; [done|]. cbn [advance_all].
  apply IH. by advance_cases.
Qed.

(** ** [complete -> not looping], for every sequence of calls *)

Definition complete_inv (o : AnimatedGameObject) : Prop :=
  _animationIsComplete o = true -> _loopAnimation o = false /\ is_Some (_currentAnimation o).

Lemma complete_inv_same o o' : same_playback o o' -> complete_inv o -> complete_inv o'.
Proof. intros (E1 & _ & _ & E4 & E5). unfold complete_inv. by rewrite E1, E4, E5. Qed.

Lemma advance_complete_inv d dt o :
  is_Some (_currentAnimation o) -> complete_inv o -> complete_inv (advance d dt o).
Proof.
  intros Hp Hi. unfold complete_inv in *. rewrite advance_currentAnimation, advance_loopAnimation.
  advance_cases; intros Hc; rewrite ?Hc in Hi;
    first [split; [congruence | done] | destruct (Hi eq_refl); split; [congruence | done]].
Qed.

Lemma cstep_complete_inv w e w' :
  cstep w e w' -> complete_inv (w_self w) -> complete_inv (w_self w').
Proof.
  intros Hs Hi. destruct Hs as [name speed w w' Hr | name speed w w' Hr | w w' Hr | w w' Hr
                               | dt w w' Hr | m w w' Hm Hr | A m w a w' Hm Hr].
  - apply PlayAndLoopAnimation_ok in Hr as [_ ->].
    destruct (clip_found w name); [|done].
    unfold select_looping. by case_decide.
  - apply PlayAnimation_ok in Hr as [_ ->]. by destruct (clip_found w name).
  - by apply update_this_inv in Hr as ->.
  - by apply update_this_inv in Hr as ->.
  - apply Update_ok in Hr as [_ Hr]. destruct (_currentAnimation (w_self w)) eqn:Hp.
    + destruct Hr as (a & _ & Hs). apply (complete_inv_same _ _ Hs).
      apply advance_complete_inv; [by rewrite Hp | done].
    + by rewrite Hr.
  - apply (complete_inv_same (w_self w)); [apply (other_method_keeps m Hm w tt _ Hr) | done].
  - apply (complete_inv_same (w_self w)); [apply (query_method_keeps m Hm w a _ Hr) | done].
Qed.

(** ** Properties *)

(** C32. Refinement: from a state of the spec whose time is within its
    clip, in a registry whose clips have non-negative length and rate,
    every sequence of method calls that stays in the spec's domain (no
    [ToggleAnimationPause] of a completed clip) is a run of the spec's
    state machine with the same events, and ends with the time within the
    clip. *)
Theorem gsteps_refine w es w' s :
  clips_ok (w_assets w) -> time_within (w_assets w) (w_self w) ->
  abs (w_self w) = Some s -> gsteps w es w' ->
  exists s', abs (w_self w') = Some s' /\ asteps s es s' /\
             time_within (w_assets w') (w_self w').
Proof.
  intros Hok Ht Hs Hg. revert s Hok Ht Hs.
  induction Hg as [w|w e w1 es w2 Hst Hgd Hg IH]; intros s Hok Ht Hs.
  - eexists. split_and!; [done | constructor | done].
  - destruct (cstep_refines w e w1 Hok Ht Hst Hgd) as (HA & Ht1 & Hsim).
    destruct (Hsim s Hs) as (s1 & Hs1 & Hstep).
    destruct (IH s1) as (s2 & ? & ? & ?); [by rewrite HA | done | done |].
    eexists. split_and!; eauto with anim.
Qed.

(** C33. The part of the spec's invariant the code keeps under every call
    of every public method, [ToggleAnimationPause] included: a complete
    object is not looping and has a clip. *)
Theorem csteps_complete_inv w es w' :
  csteps w es w' -> complete_inv (w_self w) -> complete_inv (w_self w').
Proof.
  induction 1 as [|w e w1 es w2 Hs _ IH]; [done|]. intros Hi.
  by apply IH, (cstep_complete_inv w e).
Qed.

(** C34. Divergence from the spec: [ToggleAnimationPause] of a completed
    clip resumes it while it stays complete, a state the spec excludes
    (Completed implies Paused); no later tick clears [_animationIsComplete]. *)
Theorem toggle_completed_leaves_spec w p :
  abs (w_self w) = Some (Clip p Completed false) ->
  exists w', ToggleAnimationPause w = Ok (tt, w') /\ abs (w_self w') = None /\
    _animationPaused (w_self w') = false /\
    forall d dts, _animationIsComplete (advance_all d dts (w_self w')) = true.
Proof.
  intros (Hp & Hc & Hpa & Hl)%abs_completed. eexists. split; [reflexivity|]. cbn.
  split_and!; [by unfold abs; cbn; rewrite Hp, Hc, Hpa | by rewrite Hpa |].
  intros d dts. by apply advance_all_complete.
Qed.

(** C35. A looping object never completes, whatever public methods are
    called, as long as no [PlayAnimation] succeeds: every other call keeps
    it looping (or clip-less) and incomplete. Assumed of the start: every
    clip of the registry has a non-negative length and rate, and the time
    is within the current clip. *)
Theorem csteps_looping_never_completes w es w' :
  clips_ok (w_assets w) -> time_within (w_assets w) (w_self w) ->
  _animationIsComplete (w_self w) = false -> _loopAnimation (w_self w) = true ->
  csteps w es w' -> (forall p, EPlayOnce p ∉ es) ->
  _animationIsComplete (w_self w') = false.
Proof.
  intros Hok Ht Hc Hl Hs Hes.
  assert (Hw : exists s, abs (w_self w) = Some s /\ looping_state s).
  { unfold abs. rewrite Hc, Hl.
    destruct (_currentAnimation (w_self w)), (_animationPaused (w_self w)); by eexists. }
  clear Hc Hl. destruct Hw as (s & Hs0 & Hls). revert s Hok Ht Hs0 Hls.
  induction Hs as [w|w e w1 es w2 Hst _ IH]; intros s Hok Ht Hs0 Hls.
  - apply (abs_complete_false _ s); [done|]. intros p ->. by destruct Hls.
  - assert (Hg : spec_guard w e).
    { intros _. apply (abs_complete_false _ s); [done|]. intros p ->. by destruct Hls. }
    destruct (cstep_refines w e w1 Hok Ht Hst Hg) as (HA & Ht1 & Hsim).
    destruct (Hsim s Hs0) as (s1 & Hs1 & Hstep).
    apply (IH ltac:(set_solver) s1); [by rewrite HA | done | done |].
    apply (astep_looping s e); [done | done |]. intros p ->. set_solver.
Qed.

(** C36. A completed clip stays completed (paused, complete, same clip)
    through every call that is not a play or a toggle. Assumed of the
    start: every clip of the registry has a non-negative length and rate,
    and the time is within the current clip. *)
Theorem csteps_completed_stays w es w' p :
  clips_ok (w_assets w) -> time_within (w_assets w) (w_self w) ->
  _currentAnimation (w_self w) = Some p -> _animationIsComplete (w_self w) = true ->
  _animationPaused (w_self w) = true -> _loopAnimation (w_self w) = false ->
  csteps w es w' -> Forall passive es ->
  _currentAnimation (w_self w') = Some p /\ _animationIsComplete (w_self w') = true /\
  _animationPaused (w_self w') = true /\ _loopAnimation (w_self w') = false.
Proof.
  intros Hok Ht Hp Hc Hpa Hl Hs Hes. apply abs_completed.
  assert (Hs0 : abs (w_self w) = Some (Clip p Completed false)) by by apply abs_completed.
  clear Hp Hc Hpa Hl. revert Hok Ht Hs0.
  induction Hs as [w|w e w1 es w2 Hst _ IH]; intros Hok Ht Hs0; [done|].
  apply Forall_cons in Hes as [He Hes].
  assert (Hg : spec_guard w e) by (intros ->; unfold passive in He; intuition congruence).
  destruct (cstep_refines w e w1 Hok Ht Hst Hg) as (HA & Ht1 & Hsim).
  destruct (Hsim _ Hs0) as (s1 & Hs1 & Hstep).
  rewrite (astep_completed p e s1) in Hs1 by done.
  apply IH; [done | by rewrite HA | done | done].
Qed.

End Machine.

(** ** Runs on [demo_world], for the witnesses

    With the sampler [Pose.demo_sampler]: [demo_world] plays "Fire" once
    ([demo_playing]) and ticks 1 s ([demo_ticked]); [demo_looping] plays it
    in a loop and ticks 3 s, past its end ([demo_looped]); the completed
    [demo_completed] ticks 1 s more ([demo_completed_ticked]). *)

Definition demo_ticked : World :=
  {| demo_world with w_self :=
       sampled glock_model clip_fire (advance (clip_duration clip_fire) 1 (w_self demo_playing)) |}.

Definition demo_looping : World :=
  {| demo_world with w_self := select_looping 0%nat 1 demo_object |}.

Definition demo_looped : World :=
  {| demo_world with w_self :=
       sampled glock_model clip_fire (advance (clip_duration clip_fire) 3 (w_self demo_looping)) |}.

Definition demo_completed_ticked : World :=
  {| demo_world with w_self :=
       sampled glock_model clip_fire (advance (clip_duration clip_fire) 1 (w_self demo_completed)) |}.

Lemma demo_clips_ok : clips_ok demo_assets.
Proof. repeat constructor; cbn; lra. Qed.

Lemma demo_play_step : cstep demo_world (EPlayOnce 0%nat) demo_playing.
Proof.
  change (EPlayOnce 0%nat) with (once_event demo_world "Fire").
  apply (cs_PlayAnimation "Fire" 1). reflexivity.
Qed.

Lemma demo_tick_step : cstep demo_playing ETick demo_ticked.
Proof. apply (cs_Update 1). reflexivity. Qed.

Lemma demo_looped_step : cstep demo_looping ETick demo_looped.
Proof. apply (cs_Update 3). reflexivity. Qed.

Lemma demo_completed_step : cstep demo_completed ETick demo_completed_ticked.
Proof. apply (cs_Update 1). reflexivity. Qed.

Lemma gsteps_refine_witness :
  exists s', abs (w_self demo_ticked) = Some s' /\
    asteps NoClip [EPlayOnce 0%nat; ETick] s' /\
    time_within (w_assets demo_ticked) (w_self demo_ticked).
Proof.
  apply (gsteps_refine demo_world _ demo_ticked NoClip).
  - apply demo_clips_ok.
  - by intros p a [=].
  - reflexivity.
  - eapply gsteps_cons; [apply demo_play_step | discriminate |].
    eapply gsteps_cons; [apply demo_tick_step | discriminate | constructor].
Defined.

Lemma csteps_complete_inv_witness : complete_inv (w_self demo_ticked).
Proof.
  apply (csteps_complete_inv demo_world [EPlayOnce 0%nat; ETick]).
  - eapply csteps_cons; [apply demo_play_step|].
    eapply csteps_cons; [apply demo_tick_step | constructor].
  - discriminate.
Defined.

Lemma toggle_completed_leaves_spec_witness :
  abs (w_self demo_completed) = Some (Clip 0%nat Completed false) /\
  exists w', ToggleAnimationPause demo_completed = Ok (tt, w') /\ abs (w_self w') = None /\
    _animationPaused (w_self w') = false /\
    forall d dts, _animationIsComplete (advance_all d dts (w_self w')) = true.
Proof.
  assert (E : abs (w_self demo_completed) = Some (Clip 0%nat Completed false))
    by (vm_compute; reflexivity).
  split; [exact E | exact (toggle_completed_leaves_spec demo_completed 0%nat E)].
Defined.

Lemma csteps_looping_never_completes_witness :
  _animationIsComplete (w_self demo_looped) = false.
Proof.
  apply (csteps_looping_never_completes demo_looping [ETick]).
  - apply demo_clips_ok.
  - intros p a [= <-] [= <-]. reflexivity.
  - reflexivity.
  - reflexivity.
  - eapply csteps_cons; [apply demo_looped_step | constructor].
  - intros p. rewrite list_elem_of_singleton. discriminate.
Defined.

Lemma csteps_completed_stays_witness :
  _currentAnimation (w_self demo_completed_ticked) = Some 0%nat /\
  _animationIsComplete (w_self demo_completed_ticked) = true /\
  _animationPaused (w_self demo_completed_ticked) = true /\
  _loopAnimation (w_self demo_completed_ticked) = false.
Proof.
  apply (csteps_completed_stays demo_completed [ETick]).
  - apply demo_clips_ok.
  - intros p a [= <-] [= <-]. vm_compute. reflexivity.
  - reflexivity.
  - vm_compute. reflexivity.
  - vm_compute. reflexivity.
  - reflexivity.
  - eapply csteps_cons; [apply demo_completed_step | constructor].
  - repeat constructor.
Defined.
