(* ===== verification/Frames.v ===== *)
(** * Frames of calls with the loops as written

    A frame of the game calls the public methods of [AnimatedGameObject]
    in sequence. [Soundness] runs such sequences ([run_calls]) with the
    structural models of the four loop methods; this file runs them with
    the loops as the C++ writes them ([Loops]: [int] counter, [size()]
    re-read, fuel), as [run_calls_for], and composes the two results:

    - every call leaves the asset registry as it found it
      ([assets_kept]), so a bound on the clip and mesh counts of the
      registry's models ([registry_at_most]) holds for the whole frame;
    - under that bound, with [n <= INT_MAX] and fuel [n + 1], the frame
      run with the loops as written returns exactly what the structural
      run returns, for every world;
    - hence, from a well-formed world with a model set, the frame as
      written terminates without a fault in a well-formed world. *)

From S2P Require Import Prelude CppStd Glm Assets GameObject Playback Pose Materials Loops Soundness.

Local Open Scope Z_scope.

(** ** Frames run with the loops as written *)

Section Frames.
Context `{BoneSampler}.

(** one call: the four loop methods with [int_for], the others as in
    [run_call] *)
Definition run_call_for (fuel : nat) (c : call) : FM World unit :=
  match c with
  | CPlayAndLoopAnimation n s => PlayAndLoopAnimation_for fuel n s
  | CPlayAnimation n s => PlayAnimation_for fuel n s
  | CSetMeshMaterial mn n => SetMeshMaterial_for fuel mn n
  | CSetMaterial n => SetMaterial_for fuel n
  | c => flift (run_call c)
  end.

Fixpoint run_calls_for (fuel : nat) (cs : list call) : FM World unit :=
  match cs with
  | [] => flift (ret tt)
  | c :: cs' => fbind (run_call_for fuel c) (fun _ => run_calls_for fuel cs')
  end.

End Frames.

(** every model of the registry has at most [n] clips and [n] meshes *)
Definition registry_at_most (n : nat) (A : Assets) : Prop :=
  Forall (fun m => length (m_animations m) <= n /\ length (m_meshEntries m) <= n)%nat
         (g_skinnedModels A).

(** [m] never writes the registry *)
Definition assets_kept {A} (m : Method A) : Prop :=
  forall w a w', m w = Ok (a, w') -> w_assets w' = w_assets w.

(** ** The registry is left alone *)

Lemma kept_ret {A} (a : A) : assets_kept (ret a).
Proof. by intros w ? w' [= _ <-]. Qed.

Lemma kept_get : assets_kept get.
Proof. by intros w ? w' [= _ <-]. Qed.

Lemma kept_fault {A} e : assets_kept (fault (A:=A) e).
Proof. done. Qed.

Lemma kept_update_this f : assets_kept (update_this f).
Proof. by intros w ? w' [= _ <-]. Qed.

Lemma kept_cout s : assets_kept (cout s).
Proof. by intros w ? w' [= _ <-]. Qed.

Lemma kept_bind {A B} (m : Method A) (k : A -> Method B) :
  assets_kept m -> (forall a, assets_kept (k a)) -> assets_kept (bind m k).
Proof.
  intros Hm Hk w b w'' E. apply bind_Ok_inv in E as (a & w' & E1 & E2).
  rewrite (Hk _ _ _ _ E2). exact (Hm _ _ _ E1).
Qed.

Lemma kept_for_each_idx {A} i (l : list A) body :
  (forall i x, assets_kept (body i x)) -> assets_kept (for_each_idx i l body).
Proof.
  intros Hb w [] w'. apply (for_each_idx_post (fun s => w_assets s = w_assets w)); [|done].
  intros j x s s' Hs E. rewrite <- Hs. exact (Hb _ _ _ _ _ E).
Qed.

(** prove [assets_kept m] for a method built from the accessors *)
Ltac kept_tac :=
  repeat first
    [ apply kept_bind; [|intros ?]
    | apply kept_ret | apply kept_get | apply kept_fault | apply kept_cout
    | apply kept_update_this
    | apply kept_for_each_idx; intros ??
    | progress cbv beta delta [this assets this_skinnedModel this_currentAnimation
                               deref_ptr deref vec_read]
    | match goal with |- assets_kept (match ?x with _ => _ end) => destruct x end
    | match goal with |- assets_kept (if ?b then _ else _) => destruct b end ].

Lemma kept_find_animation A name ps : assets_kept (find_animation A name ps).
Proof. induction ps as [|p ps IH]; cbn [find_animation]; kept_tac; exact IH. Qed.

Lemma kept_material_body sel materialName i mesh :
  assets_kept (material_body sel materialName i mesh).
Proof. cbv delta [material_body set_material_index]. kept_tac. Qed.

#[export] Hint Resolve kept_find_animation kept_material_body : anim.

Section Kept.
Context `{BoneSampler}.

Lemma run_call_kept c : assets_kept (run_call c).
Proof.
  destruct c; cbv delta [run_call PlayAndLoopAnimation PlayAnimation PauseAnimation
    ToggleAnimationPause Update UpdateAnimation CalculateBoneTransforms SetSkinnedModel
    SetMeshMaterial SetMeshMaterialByIndex SetMaterial set_material_index SetName SetPosition
    SetScale SetRotationX SetRotationY SetRotationZ EnableMotionBlur DisableMotionBlur];
    kept_tac; auto with anim.
Qed.

(** ** One call, and a frame, with the loops as written *)

Lemma registry_model_at_most n w :
  registry_at_most n (w_assets w) ->
  model_at_most m_animations n w /\ model_at_most m_meshEntries n w.
Proof.
  intros HR. split; intros pm m _ Hm; apply (proj1 (Forall_lookup _ _) HR pm m Hm).
Qed.

Lemma run_call_for_run fuel n c w :
  Z.of_nat n <= INT_MAX -> (n < fuel)%nat -> registry_at_most n (w_assets w) ->
  run_call_for fuel c w = Some (run_call c w).
Proof.
  intros Hn Hf HR. destruct (registry_model_at_most n w HR) as [Ha Hm].
  destruct c; cbn [run_call_for run_call]; try reflexivity.
  - exact (PlayAndLoopAnimation_for_run w fuel n _ _ Hn Hf Ha).
  - exact (PlayAnimation_for_run w fuel n _ _ Hn Hf Ha).
  - exact (mesh_method_run w fuel n _ _ Hn Hf Hm).
  - exact (mesh_method_run w fuel n _ _ Hn Hf Hm).
Qed.

Lemma run_calls_for_run fuel n cs w :
  Z.of_nat n <= INT_MAX -> (n < fuel)%nat -> registry_at_most n (w_assets w) ->
  run_calls_for fuel cs w = Some (run_calls cs w).
Proof.
  intros Hn Hf. revert w. induction cs as [|c cs IH]; intros w HR; [done|].
  cbn [run_calls_for run_calls]. rewrite (fbind_at _ _ _ _ (run_call_for_run fuel n c w Hn Hf HR)).
  unfold bind. destruct (run_call c w) as [[[] w1]|e] eqn:E; [|done].
  apply IH. by rewrite (run_call_kept c w tt w1 E).
Qed.

(** C28. Composition of the loops as written with the soundness of the
    interface: from a well-formed world with a model set, whose registry
    has models of at most [n <= INT_MAX] clips and meshes, every sequence of
    public method calls, run with the four loops as the C++ writes them
    and [n + 1] tests of fuel, terminates without a fault, with the result
    of the structural run, in a well-formed world with a model set. *)
Theorem run_calls_for_sound fuel n cs w :
  Z.of_nat n <= INT_MAX -> (n < fuel)%nat -> registry_at_most n (w_assets w) ->
  world_wf w -> is_Some (_skinnedModel (w_self w)) ->
  exists w', run_calls_for fuel cs w = Some (Ok (tt, w')) /\ run_calls cs w = Ok (tt, w') /\
    world_wf w' /\ is_Some (_skinnedModel (w_self w')).
Proof.
  intros Hn Hf HR Hw Hm. destruct (run_calls_wf cs w Hw Hm) as (w' & E & Hw' & Hm').
  exists w'. rewrite (run_calls_for_run fuel n cs w Hn Hf HR), E. by split_and!.
Qed.

End Kept.

(** ** Witness: the frame of [Soundness] on [demo_world] *)

Lemma run_calls_for_sound_witness :
  exists w', run_calls_for 3 demo_calls demo_world = Some (Ok (tt, w')) /\
    run_calls demo_calls demo_world = Ok (tt, w') /\
    world_wf w' /\ is_Some (_skinnedModel (w_self w')).
Proof.
  apply (run_calls_for_sound 3 2);
    [unfold INT_MAX; lia | lia | repeat constructor; simpl; lia | apply demo_world_wf | by eexists].
Defined.
